(** * astro-vectordb: the HNSW graph engine (src/hnsw.ts, src/pqueue.ts,
    the AstroNode record and src/astrovault.ts), embedded shallowly.

    Numbers.  A JavaScript [number] holding a similarity or a vector
    component is read as a rational ([Q]); [a - b > 0] and [a < b] are the
    exact comparisons (NaN and the infinities are outside the model).
    Counts ([M], [ef], [K], lengths) are [nat]; levels are [Z] because
    [selectLevel] returns [probs.length - 1], which is [-1] for an empty
    table.

    Objects.  The engine keeps its node objects in [nodes : Map<string,
    AstroNode>].  Every object that the engine reads or writes during an
    operation is stored in that map, under one key, so an object reference
    is modelled by the key it is stored under; the map itself is an
    association list in insertion order (JavaScript maps iterate in
    insertion order, and [toJSON] and [rebuildGraphNodes] iterate).

    Exceptions.  A method is a function from the engine state to an outcome
    and the state it leaves behind: what was written before a [throw]
    stays written. *)

From Stdlib Require Import QArith Qpower ZArith Lia.
From stdpp Require Import base list sorting gmap strings.

Local Open Scope string_scope.
Local Open Scope list_scope.

(** ** Numbers *)

Definition Qltb (a b : Q) : bool := negb (Qle_bool b a).

Abbreviation Vector := (list Q) (only parsing).
Definition Similarity := Vector -> Vector -> Q.

(** ** Sparse arrays

    [neighbors: string[][]] is created as [[]] and written by index, so it
    is a JavaScript array with holes: reading a hole, or past the end,
    gives [undefined]; writing past the end extends the array with holes.
    The engine only ever indexes it with a level taken from a loop that
    stops at 0. *)

Abbreviation sparse A := (list (option A)) (only parsing).

Definition arr_get {A} (a : sparse A) (i : Z) : option A :=
  if (i <? 0)%Z then None else mjoin (a !! Z.to_nat i).

Definition arr_set {A} (a : sparse A) (i : Z) (x : A) : sparse A :=
  if (i <? 0)%Z then a
  else let n := Z.to_nat i in
       if decide (n < length a) then <[n := Some x]> a
       else a ++ replicate (n - length a) None ++ [Some x].

(** ** AstroNode *)

Record AstroNode := mkNode {
  uniqueid : string;
  level : Z;
  vector : Vector;
  neighbors : sparse (list string);
  deleted : bool
}.

(** [new AstroNode(uniqueid, vector, level, M)]: no [neighbors] argument, so
    [this.neighbors = []]; [deleted] defaults to [false]. *)
Definition new_AstroNode (id : string) (v : Vector) (lvl : Z) : AstroNode :=
  mkNode id lvl v [] false.

Definition set_neighbors (n : AstroNode) (nb : sparse (list string)) :=
  mkNode (uniqueid n) (level n) (vector n) nb (deleted n).

Definition set_deleted (n : AstroNode) (b : bool) :=
  mkNode (uniqueid n) (level n) (vector n) (neighbors n) b.

(** ** The node map *)

Abbreviation NodeMap := (list (string * AstroNode)) (only parsing).

Fixpoint map_get (m : NodeMap) (k : string) : option AstroNode :=
  match m with
  | [] => None
  | (k', n) :: r => if decide (k' = k) then Some n else map_get r k
  end.

(** [Map.set]: an existing key keeps its position. *)
Fixpoint map_set (m : NodeMap) (k : string) (n : AstroNode) : NodeMap :=
  match m with
  | [] => [(k, n)]
  | (k', n') :: r =>
      if decide (k' = k) then (k, n) :: r else (k', n') :: map_set r k n
  end.

(** A write to a field of the object stored under [k]. *)
Fixpoint map_modify (m : NodeMap) (k : string) (f : AstroNode -> AstroNode)
  : NodeMap :=
  match m with
  | [] => []
  | (k', n) :: r =>
      if decide (k' = k) then (k', f n) :: r else (k', n) :: map_modify r k f
  end.

Definition keys (m : NodeMap) : list string := map fst m.

(** [obj.neighbors[lvl]] of the object stored under [k]. *)
Definition get_nb (m : NodeMap) (k : string) (lvl : Z) : option (list string) :=
  n ← map_get m k; arr_get (neighbors n) lvl.

(** [obj.neighbors[lvl] = l]. *)
Definition set_nb (m : NodeMap) (k : string) (lvl : Z) (l : list string) :=
  map_modify m k (fun n => set_neighbors n (arr_set (neighbors n) lvl l)).

(** [if (!obj.neighbors[lvl]) obj.neighbors[lvl] = [];] *)
Definition init_nb (m : NodeMap) (k : string) (lvl : Z) : NodeMap :=
  match get_nb m k lvl with
  | Some _ => m
  | None => set_nb m k lvl []
  end.

(** ** References held by queues and arrays

    A queue entry is a reference to an object of the map.  [ref_key] is the
    key the object is stored under; [ref_obj] is the object as it was when
    the reference was taken.  [uniqueid], [level] and [vector] are assigned
    once, in the constructor, and are read from [ref_obj]; [neighbors] and
    [deleted] are assigned later and are read from the map, through
    [ref_key]. *)

Record Ref := mkRef { ref_key : string; ref_obj : AstroNode }.

Definition live (m : NodeMap) (r : Ref) : AstroNode :=
  match map_get m (ref_key r) with
  | Some n => n
  | None => ref_obj r
  end.

Definition ref_get (m : NodeMap) (k : string) : option Ref :=
  mkRef k <$> map_get m k.

(** ** PriorityQueue (src/pqueue.ts) *)

Section PQ.
Context {T : Type} (compare : T -> T -> Q).

(** [push]: skip the items [x] with [compare(item, x) > 0], splice there. *)
Fixpoint pq_push (item : T) (items : list T) : list T :=
  match items with
  | [] => [item]
  | x :: r =>
      if Qltb 0 (compare item x) then x :: pq_push item r
      else item :: x :: r
  end.
End PQ.

Definition popFirst {T} (items : list T) : option T * list T :=
  match items with
  | [] => (None, [])
  | x :: r => (Some x, r)
  end.

Definition popLast {T} (items : list T) : list T := removelast items.

Definition getLast {T} (items : list T) : option T := last items.

(** The comparator every queue of the engine is built with:
    [(a, b) => sim(q, b.vector) - sim(q, a.vector)]. *)
Definition by_similarity (sim : Similarity) (q : Vector) (a b : Ref) : Q :=
  (sim q (vector (ref_obj b)) - sim q (vector (ref_obj a)))%Q.

(** ** Outcomes *)

Inductive error :=
| DimensionMismatch   (* Error("All vectors must be of the same dimension") *)
| InvalidMetric       (* Error("Invalid metric") *)
| TypeError.          (* a property read on [undefined] *)

Inductive outcome (A : Type) :=
| Ret (a : A)
| Throw (e : error)
| OutOfFuel.
Arguments Ret {A} a.
Arguments Throw {A} e.
Arguments OutOfFuel {A}.

(** Sequencing: the state left by the first step is handed to the second,
    and is the final state when the first step throws. *)
Definition andThen {S A B}
  (x : outcome A * S) (f : A -> S -> outcome B * S) : outcome B * S :=
  match x with
  | (Ret a, s) => f a s
  | (Throw e, s) => (Throw e, s)
  | (OutOfFuel, s) => (OutOfFuel, s)
  end.

Notation "'let!' ( a , s ) := x 'in' body" :=
  (andThen x (fun a s => body))
  (at level 10, a name, s name, x at level 100, body at level 200,
   only parsing).

(** ** searchLayer *)

(** [for (hi; i >= lo; i--)] *)
Definition range_down (hi lo : Z) : list Z :=
  map (fun k => (hi - Z.of_nat k)%Z) (seq 0 (Z.to_nat (hi - lo + 1))).

(** slice(0, n) when the array is longer than [n], the array itself
    otherwise ([getTopBeam], [selectNeighbors]). *)
Definition getTopBeam {T} (candidates : list T) (beamSize : nat) : list T :=
  if (length candidates <=? beamSize)%nat then candidates
  else take beamSize candidates.

Definition selectNeighbors {T} (nearestNeighbors : list T) (n : nat) : list T :=
  if (length nearestNeighbors <=? n)%nat then nearestNeighbors
  else take n nearestNeighbors.

Definition uid (r : Ref) : string := uniqueid (ref_obj r).

Definition nb_list (m : NodeMap) (k : string) (lvl : Z) : list string :=
  default [] (get_nb m k lvl).

Record SearchState := mkSearch {
  visited : gset string;
  candidates : list Ref;
  found : list Ref      (* foundNearestNeighbors *)
}.

Section Search.
Variable sim : Similarity.
Variable query : Vector.

Definition score_of (r : Ref) : Q := sim query (vector (ref_obj r)).
Definition cmp := by_similarity sim query.

(** The loop over the entry points. *)
Fixpoint seed (entryPoints : list Ref) (s : SearchState) : SearchState :=
  match entryPoints with
  | [] => s
  | ep :: r =>
      if decide (uid ep ∈ visited s) then seed r s
      else seed r (mkSearch ({[uid ep]} ∪ visited s)
                            (pq_push cmp ep (candidates s))
                            (pq_push cmp ep (found s)))
  end.

(** The loop over [current.neighbors[level]]. *)
Fixpoint scan (ef : nat) (m : NodeMap) (ids : list string) (s : SearchState)
  : outcome SearchState :=
  match ids with
  | [] => Ret s
  | neighborId :: r =>
      if decide (neighborId = "") then scan ef m r s
      else if decide (neighborId ∈ visited s) then scan ef m r s
      else
        let vis := {[neighborId]} ∪ visited s in
        match ref_get m neighborId with
        | None => Throw TypeError      (* neighbor.vector *)
        | Some neighbor =>
            let enter :=
              if (length (found s) <? ef)%nat then Ret true
              else match getLast (found s) with
                   | None => Throw TypeError      (* furthest.vector *)
                   | Some furthest =>
                       Ret (Qltb (score_of furthest) (score_of neighbor))
                   end in
            match enter with
            | Ret true =>
                let f := pq_push cmp neighbor (found s) in
                scan ef m r
                  (mkSearch vis (pq_push cmp neighbor (candidates s))
                     (if (ef <? length f)%nat then popLast f else f))
            | Ret false => scan ef m r (mkSearch vis (candidates s) (found s))
            | Throw e => Throw e
            | OutOfFuel => OutOfFuel
            end
        end
  end.

(** [while (!candidates.isEmpty())]. *)
Fixpoint search_loop (fuel : nat) (ef : nat) (lvl : Z)
  (m : NodeMap) (s : SearchState) : outcome (list Ref) * NodeMap :=
  match candidates s with
  | [] => (Ret (found s), m)
  | current :: rest =>
      match fuel with
      | O => (OutOfFuel, m)
      | S fuel' =>
          match getLast (found s) with
          | None => (Throw TypeError, m)      (* furthest.vector *)
          | Some furthest =>
              if Qltb (score_of current) (score_of furthest)
              then (Ret (found s), m)
              else
                let m1 := init_nb m (ref_key current) lvl in
                match scan ef m1 (nb_list m1 (ref_key current) lvl)
                        (mkSearch (visited s) rest (found s)) with
                | Ret s' => search_loop fuel' ef lvl m1 s'
                | Throw e => (Throw e, m1)
                | OutOfFuel => (OutOfFuel, m1)
                end
          end
      end
  end.

(** Every pass of the loop takes one candidate, and a candidate is a
    distinct key of the map or one of the entry points, so the loop makes
    at most [length entryPoints + length m] passes. *)
Definition searchLayer (m : NodeMap) (entryPoints : list Ref)
  (ef : nat) (lvl : Z) : outcome (list Ref) * NodeMap :=
  search_loop (length entryPoints + length m) ef lvl m
    (seed entryPoints (mkSearch ∅ [] [])).

(** [while (size > maxSize) popLast()] *)
Definition truncate (maxSize : nat) (items : list Ref) : list Ref :=
  Nat.iter (length items - maxSize) popLast items.

Definition updateBestCandidates (m : NodeMap)
  (bestCandidates newCandidates : list Ref) (maxSize : nat) : list Ref :=
  truncate maxSize
    (fold_left (fun best c =>
                  if deleted (live m c) then best else pq_push cmp c best)
       newCandidates bestCandidates).
End Search.

(** ** The engine state *)

Record HNSW := mkHNSW {
  metric : string;
  similarityFunction : Similarity;
  d : option nat;
  M : nat;
  efConstruction : nat;
  levelMax : Z;
  entryPointId : string;
  nodes : NodeMap;
  probs : list Q
}.

Definition set_nodes (h : HNSW) (m : NodeMap) : HNSW :=
  mkHNSW (metric h) (similarityFunction h) (d h) (M h) (efConstruction h)
    (levelMax h) (entryPointId h) m (probs h).

Definition set_entryPointId (h : HNSW) (e : string) : HNSW :=
  mkHNSW (metric h) (similarityFunction h) (d h) (M h) (efConstruction h)
    (levelMax h) e (nodes h) (probs h).

Definition set_levelMax (h : HNSW) (l : Z) : HNSW :=
  mkHNSW (metric h) (similarityFunction h) (d h) (M h) (efConstruction h)
    l (entryPointId h) (nodes h) (probs h).

Definition set_d (h : HNSW) (n : option nat) : HNSW :=
  mkHNSW (metric h) (similarityFunction h) n (M h) (efConstruction h)
    (levelMax h) (entryPointId h) (nodes h) (probs h).

(** ** Level table and level draw *)

(** [set_probs(M, 1 / Math.log(M))].  With [levelMult = 1/ln M] the source's
    [Math.exp(-level / levelMult) * (1 - Math.exp(-1 / levelMult))] is
    [M^-level * (1 - 1/M)], which is what [level_prob] computes, exactly.
    The [while (true)] loop is given [fuel] passes; for [M >= 2] the entry
    falls below 1e-9 within 31 passes ([set_probs_fuel]). *)
Definition level_prob (M : nat) (level : nat) : Q :=
  ((1 / inject_Z (Z.of_nat M)) ^ Z.of_nat level
   * (1 - 1 / inject_Z (Z.of_nat M)))%Q.

Fixpoint set_probs_loop (fuel : nat) (M : nat) (level : nat) : list Q :=
  match fuel with
  | O => []
  | S fuel' =>
      let prob := level_prob M level in
      if Qltb prob (1 # 1000000000) then []
      else prob :: set_probs_loop fuel' M (S level)
  end.

Definition set_probs (M : nat) : list Q := set_probs_loop 64 M 0.

(** [this.probs.forEach((p, i) => { if (r < p) { return i; } r -= p; })]:
    the callback either returns [i] to [forEach] or decrements [r]. *)
Definition level_callback (r p : Q) (i : nat) : option nat * Q :=
  if Qltb r p then (Some i, r) else (None, (r - p)%Q).

(** [forEach] calls the callback on every entry and drops what it returns. *)
Fixpoint forEach_level (ps : list Q) (i : nat) (r : Q) : Q :=
  match ps with
  | [] => r
  | p :: rest => forEach_level rest (S i) (snd (level_callback r p i))
  end.

(** [selectLevel()], with the value of [Math.random()] as [r]. *)
Definition selectLevel (ps : list Q) (r : Q) : Z :=
  let _ := forEach_level ps 0 r in
  (Z.of_nat (length ps) - 1)%Z.

(** The draw as the specification words it: walk the table, subtracting
    each p(i) from r until r < p(i), return that i; cap at the table length
    minus 1. *)
Fixpoint spec_walk (ps : list Q) (i : nat) (r : Q) : option nat :=
  match ps with
  | [] => None
  | p :: rest => if Qltb r p then Some i else spec_walk rest (S i) (r - p)%Q
  end.

Definition spec_selectLevel (ps : list Q) (r : Q) : Z :=
  match spec_walk ps 0 r with
  | Some i => Z.of_nat i
  | None => (Z.of_nat (length ps) - 1)%Z
  end.

(** ** Insertion *)

Definition includes (l : list string) (x : string) : bool :=
  bool_decide (x ∈ l).

Definition non_empty_ids (l : list string) : list string :=
  filter (fun x => x ≠ "") l.

(** [push] on [obj.neighbors[lvl]] unless already included. *)
Definition push_unless_included (m : NodeMap) (k : string) (lvl : Z)
  (x : string) : NodeMap :=
  if includes (nb_list m k lvl) x then m
  else set_nb m k lvl (nb_list m k lvl ++ [x]).

Definition addBidirectionalConnections (m : NodeMap) (nodeA nodeB : Ref)
  (lvl : Z) : NodeMap :=
  let m := init_nb m (ref_key nodeA) lvl in
  let m := init_nb m (ref_key nodeB) lvl in
  let m := set_nb m (ref_key nodeA) lvl
             (non_empty_ids (nb_list m (ref_key nodeA) lvl)) in
  let m := set_nb m (ref_key nodeB) lvl
             (non_empty_ids (nb_list m (ref_key nodeB) lvl)) in
  let m := push_unless_included m (ref_key nodeA) lvl (uid nodeB) in
  push_unless_included m (ref_key nodeB) lvl (uid nodeA).

Definition shrinkConnectionsIfNeeded (sim : Similarity) (maxM : nat)
  (m : NodeMap) (node : Ref) (lvl : Z) : outcome unit * NodeMap :=
  match get_nb m (ref_key node) lvl with
  | None => (Throw TypeError, m)        (* neighbors.length *)
  | Some nbs =>
      if (maxM <? length nbs)%nat then
        let oldNeighbors :=
          fold_left (fun pq neighborId =>
                       match ref_get m neighborId with
                       | Some r => pq_push (cmp sim (vector (ref_obj node))) r pq
                       | None => pq
                       end) nbs [] in
        let newNeighborNodes := selectNeighbors oldNeighbors maxM in
        (Ret tt, set_nb m (ref_key node) lvl (map uid newNeighborNodes))
      else (Ret tt, m)
  end.

(** The two loops over [closestNeighborsAtLevel]. *)
Fixpoint link_all (m : NodeMap) (node : Ref) (closest : list Ref) (lvl : Z)
  : NodeMap :=
  match closest with
  | [] => m
  | c :: r =>
      match ref_get m (uid c) with
      | None => link_all m node r lvl
      | Some neighborNode =>
          link_all (addBidirectionalConnections m node neighborNode lvl)
            node r lvl
      end
  end.

Fixpoint shrink_all (sim : Similarity) (maxM : nat) (m : NodeMap)
  (closest : list Ref) (lvl : Z) : outcome unit * NodeMap :=
  match closest with
  | [] => (Ret tt, m)
  | c :: r =>
      match ref_get m (uid c) with
      | None => shrink_all sim maxM m r lvl
      | Some neighborNode =>
          let! (_, m1) := shrinkConnectionsIfNeeded sim maxM m neighborNode lvl in
          shrink_all sim maxM m1 r lvl
      end
  end.

(** First loop of [addNodeToGraphOptimized]: ef = 1 down to the level above
    the insertion level. *)
Fixpoint descend (sim : Similarity) (q : Vector) (lvls : list Z)
  (m : NodeMap) (entryPoints : list Ref) : outcome (list Ref) * NodeMap :=
  match lvls with
  | [] => (Ret entryPoints, m)
  | i :: r =>
      let! (foundNearest, m1) := searchLayer sim q m entryPoints 1 i in
      descend sim q r m1
        (match popFirst foundNearest with
         | (Some closest, _) => [closest]
         | (None, _) => entryPoints
         end)
  end.

(** Second loop: search, link, shrink, level by level down to 0. *)
Fixpoint connect (sim : Similarity) (maxM ef : nat) (node : Ref)
  (lvls : list Z) (m : NodeMap) (entryPoints : list Ref)
  : outcome unit * NodeMap :=
  match lvls with
  | [] => (Ret tt, m)
  | i :: r =>
      let! (foundNearest, m1) :=
        searchLayer sim (vector (ref_obj node)) m entryPoints ef i in
      let closest := selectNeighbors foundNearest maxM in
      let m2 := link_all m1 node closest i in
      let! (_, m3) := shrink_all sim maxM m2 closest i in
      connect sim maxM ef node r m3 foundNearest
  end.

Definition lift_nodes {A} (h : HNSW) (x : outcome A * NodeMap)
  : outcome A * HNSW :=
  (fst x, set_nodes h (snd x)).

Definition addNodeToGraphOptimized (h : HNSW) (node : Ref)
  (nodeInsertionLevel : Z) : outcome unit * HNSW :=
  if decide (entryPointId h = "") then
    (Ret tt, set_entryPointId h (uid node))
  else
    let sim := similarityFunction h in
    let entryPoints :=
      match ref_get (nodes h) (entryPointId h) with
      | Some e => [e]
      | None => []
      end in
    let! (_, h1) :=
      lift_nodes h
        (let! (eps, m1) :=
           descend sim (vector (ref_obj node))
             (range_down (levelMax h) (nodeInsertionLevel + 1))
             (nodes h) entryPoints in
         connect sim (M h) (efConstruction h) node
           (range_down (Z.min (levelMax h) nodeInsertionLevel) 0) m1 eps) in
    (Ret tt,
     if (levelMax h1 <? nodeInsertionLevel)%Z
     then set_entryPointId (set_levelMax h1 nodeInsertionLevel) (uid node)
     else h1).

(** [addPoint(uniqueid, vector)], with the value of [Math.random()] as [r]. *)
Definition addPoint (h : HNSW) (id : string) (v : Vector) (r : Q)
  : outcome unit * HNSW :=
  if decide (length v = 0) then (Ret tt, h)
  else if match d h with
          | Some n => negb (length v =? n)%nat
          | None => false
          end
  then (Throw DimensionMismatch, h)
  else
    let h := set_d h (Some (length v)) in
    let nodeInsertionLevel := selectLevel (probs h) r in
    let h := set_nodes h
               (map_set (nodes h) id (new_AstroNode id v nodeInsertionLevel)) in
    let node := mkRef id (new_AstroNode id v nodeInsertionLevel) in
    let h := set_levelMax h (Z.max (levelMax h) (level (ref_obj node))) in
    addNodeToGraphOptimized h node nodeInsertionLevel.

(** [removePoint(uniqueid)] *)
Definition removePoint (h : HNSW) (id : string) : HNSW :=
  match map_get (nodes h) id with
  | None => h
  | Some _ => set_nodes h (map_modify (nodes h) id (fun n => set_deleted n true))
  end.

(** [updatePoint(uniqueid, newVector)] *)
Definition updatePoint (h : HNSW) (id : string) (v : Vector) (r : Q)
  : outcome unit * HNSW :=
  match map_get (nodes h) id with
  | None => addPoint h id v r
  | Some _ =>
      let h := set_nodes h
                 (map_modify (nodes h) id (fun n => set_deleted n true)) in
      addPoint h id v r
  end.

(** The loop of [buildIndex] and of [rebuildGraphNodes]: one [addPoint] per
    item, the [i]-th with the sample [rnd i]; a throw ends the loop. *)
Fixpoint addPoints (h : HNSW) (data : list (string * Vector))
  (rnd : nat -> Q) (i : nat) : outcome unit * HNSW :=
  match data with
  | [] => (Ret tt, h)
  | (id, v) :: rest =>
      let! (_, h1) := addPoint h id v (rnd i) in
      addPoints h1 rest rnd (S i)
  end.

Definition buildIndex (h : HNSW) (data : list (string * Vector))
  (rnd : nat -> Q) : outcome unit * HNSW :=
  let h := set_nodes h [] in
  let h := set_levelMax h 0 in
  let h := set_entryPointId h "" in
  addPoints h data rnd 0.

(** ** Top-K search *)

(** An entry of the result: [{ ...node, score }]. *)
Record Scored := mkScored {
  sc_uniqueid : string;
  sc_level : Z;
  sc_vector : Vector;
  sc_neighbors : sparse (list string);
  sc_deleted : bool;
  score : Q
}.

Definition with_score (sim : Similarity) (q : Vector) (m : NodeMap) (r : Ref)
  : Scored :=
  mkScored (uid r) (level (ref_obj r)) (vector (ref_obj r))
    (neighbors (live m r)) (deleted (live m r)) (score_of sim q r).

(** The loop [for (level = levelMax; level >= 0; level--)]. *)
Fixpoint beam_levels (sim : Similarity) (q : Vector) (K ef beam_size : nat)
  (lvls : list Z) (m : NodeMap) (best beam : list Ref)
  : outcome (list Ref * list Ref) * NodeMap :=
  match lvls with
  | [] => (Ret (best, beam), m)
  | lvl :: r =>
      let! (layer_results, m1) :=
        searchLayer sim q m beam (Nat.min ef beam_size) lvl in
      beam_levels sim q K ef beam_size r m1
        (updateBestCandidates sim q m1 best layer_results (Nat.max K ef))
        (getTopBeam layer_results beam_size)
  end.

Definition searchKNNOptimized (h : HNSW) (q : Vector) (K : nat)
  (similarityStrength : Q) (ef beam_size : nat)
  : outcome (list Scored) * HNSW :=
  if decide (entryPointId h = "") then (Ret [], h)
  else
    match ref_get (nodes h) (entryPointId h) with
    | None => (Throw TypeError, h)        (* ep.uniqueid, on the first search *)
    | Some e =>
        let sim := similarityFunction h in
        lift_nodes h
          (let! (bb, m1) :=
             beam_levels sim q K ef beam_size (range_down (levelMax h) 0)
               (nodes h) [] [e] in
           let! (bottom, m2) := searchLayer sim q m1 (snd bb) ef 0 in
           let best :=
             updateBestCandidates sim q m2 (fst bb) bottom (Nat.max K ef) in
           let scoredCandidates :=
             filter (fun c => Qltb similarityStrength (score c) = true
                              /\ sc_deleted c = false)
               (map (with_score sim q m2) best) in
           (Ret (if (K <? length scoredCandidates)%nat
                 then take K scoredCandidates else scoredCandidates), m2))
    end.

(** ** Construction and snapshots

    The two kernels of [./similarity] and the narrowing done by
    [new Float32Array(...)] are parameters of the development. *)

(** [AstroNode.toJSON()] *)
Record NodeJSON := mkNodeJSON {
  j_uniqueid : string;
  j_level : Z;
  j_vector : list Q;
  j_neighbors : sparse (list string);
  j_deleted : bool
}.

(** [HNSW.toJSON()] *)
Record HNSWJSON := mkJSON {
  j_M : nat;
  j_efConstruction : nat;
  j_levelMax : Z;
  j_entryPointId : string;
  j_nodes : list (string * NodeJSON)
}.

Definition node_toJSON (n : AstroNode) : NodeJSON :=
  mkNodeJSON (uniqueid n) (level n) (vector n) (neighbors n) (deleted n).

Definition toJSON (h : HNSW) : HNSWJSON :=
  mkJSON (M h) (efConstruction h) (levelMax h) (entryPointId h)
    (map (fun e => (fst e, node_toJSON (snd e))) (nodes h)).

(** [AstroNode.parse(obj)] *)
Definition node_parse (uniqueid : string) (vector : Vector) (level : Z)
  (neighbors : sparse (list string)) (deleted : bool) : AstroNode :=
  mkNode uniqueid level vector neighbors deleted.

(** [new Map(entries)] *)
Definition new_Map (entries : list (string * AstroNode)) : NodeMap :=
  fold_left (fun m e => map_set m (fst e) (snd e)) entries [].

Section Kernels.
Variables cosineSimilarity euclideanSimilarity : Similarity.
Variable fround : Q -> Q.

Definition getMetric (metric : string) : outcome Similarity :=
  if decide (metric = "cosine") then Ret cosineSimilarity
  else if decide (metric = "euclidean") then Ret euclideanSimilarity
  else Throw InvalidMetric.

(** [new HNSW(M, efConstruction, d, metric)] *)
Definition new_HNSW (M efConstruction : nat) (d : option nat)
  (metric : string) : outcome HNSW :=
  let probs := set_probs M in
  match getMetric metric with
  | Ret sim =>
      Ret (mkHNSW metric sim d M efConstruction
             (Z.of_nat (length probs) - 1)%Z "" [] probs)
  | Throw e => Throw e
  | OutOfFuel => OutOfFuel
  end.

(** [new HNSW(M, efConstruction)]: [d = null], [metric = "cosine"]. *)
Definition new_HNSW_default (M efConstruction : nat) : HNSW :=
  let probs := set_probs M in
  mkHNSW "cosine" cosineSimilarity None M efConstruction
    (Z.of_nat (length probs) - 1)%Z "" [] probs.

(** [HNSW.fromJSON(json)] *)
Definition fromJSON (json : HNSWJSON) : HNSW :=
  let hnsw := new_HNSW_default (j_M json) (j_efConstruction json) in
  let hnsw := set_levelMax hnsw (j_levelMax json) in
  let hnsw := set_entryPointId hnsw (j_entryPointId json) in
  set_nodes hnsw
    (new_Map
       (map (fun e =>
               (fst e,
                node_parse (j_uniqueid (snd e))
                  (map fround (j_vector (snd e)))
                  (j_level (snd e)) (j_neighbors (snd e))
                  (j_deleted (snd e))))
          (j_nodes json))).
End Kernels.

(** What a node is after a round trip: its vector narrowed, the rest as
    it was. *)
Definition narrowed (fround : Q -> Q) (n : AstroNode) : AstroNode :=
  mkNode (uniqueid n) (level n) (map fround (vector n)) (neighbors n)
    (deleted n).

(** ** rebuildGraphNodes (src/astrovault.ts)

    [processNode(index)] handles one old node and schedules
    [processNode(index + 1)]; the chain is the loop below.  A record is
    re-inserted when [!node.deleted && node.uniqueid && node.vector]; an
    array is truthy, the empty string is not. *)

Definition rebuild_keeps (n : AstroNode) : bool :=
  negb (deleted n) && negb (bool_decide (uniqueid n = "")).

Fixpoint processNode (h : HNSW) (oldNodes : list AstroNode)
  (rnd : nat -> Q) (index : nat) : outcome unit * HNSW :=
  match oldNodes with
  | [] => (Ret tt, h)
  | node :: rest =>
      let! (_, h1) :=
        (if rebuild_keeps node
         then addPoint h (uniqueid node) (vector node) (rnd index)
         else (Ret tt, h)) in
      processNode h1 rest rnd (S index)
  end.

Definition rebuild_reset (h : HNSW) : HNSW :=
  let h := set_nodes h [] in
  set_entryPointId h "".

Definition rebuildGraphNodes (h : HNSW) (rnd : nat -> Q)
  : outcome unit * HNSW :=
  let oldNodes := map snd (nodes h) in
  processNode (rebuild_reset h) oldNodes rnd 0.

(** ** Stand-in kernels for evaluation

    Two rational kernels used to run the engine on concrete inputs: the dot
    product, which is the cosine on unit vectors, and 1 / (1 + squared
    distance), which orders pairs as the Euclidean similarity does. *)

Fixpoint dot (a b : Vector) : Q :=
  match a, b with
  | x :: a', y :: b' => (x * y + dot a' b')%Q
  | _, _ => 0%Q
  end.

Fixpoint sqdist (a b : Vector) : Q :=
  match a, b with
  | x :: a', y :: b' => ((x - y) * (x - y) + sqdist a' b')%Q
  | _, _ => 0%Q
  end.

Definition dotSimilarity : Similarity := dot.
Definition distSimilarity : Similarity := fun a b => (1 / (1 + sqdist a b))%Q.


(** ** Operations and reachable states *)

Inductive op :=
| OpAdd (id : string) (v : Vector) (r : Q)
| OpRemove (id : string)
| OpUpdate (id : string) (v : Vector) (r : Q)
| OpBuild (data : list (string * Vector)) (rnd : nat -> Q)
| OpRebuild (rnd : nat -> Q)
| OpSearch (q : Vector) (K : nat) (similarityStrength : Q) (ef beam_size : nat).

(** The state an operation leaves behind, whether it returned or threw. *)
Definition run_op (o : op) (h : HNSW) : HNSW :=
  match o with
  | OpAdd id v r => snd (addPoint h id v r)
  | OpRemove id => removePoint h id
  | OpUpdate id v r => snd (updatePoint h id v r)
  | OpBuild data rnd => snd (buildIndex h data rnd)
  | OpRebuild rnd => snd (rebuildGraphNodes h rnd)
  | OpSearch q K t ef b => snd (searchKNNOptimized h q K t ef b)
  end.

(** A state is reachable when a sequence of operations leads to it from an
    engine that holds no node, such as the one the constructor returns. *)
Inductive reachable : HNSW -> Prop :=
| reach_new h : nodes h = [] -> entryPointId h = "" -> reachable h
| reach_op h o : reachable h -> reachable (run_op o h).

(** ** Invariants *)

(** Every id in an adjacency list is a key of the map. *)
Definition adj_in (ks : list string) (n : AstroNode) : Prop :=
  Forall (fun o => Forall (fun y => y ∈ ks) (default [] o)) (neighbors n).

Definition closed (m : NodeMap) : Prop :=
  Forall (fun e => adj_in (keys m) (snd e)) m.

(** Every object is stored under its own [uniqueid]. *)
Definition ids_ok (m : NodeMap) : Prop :=
  Forall (fun e => uniqueid (snd e) = fst e) m.

Definition entry_ok (h : HNSW) : Prop :=
  entryPointId h = "" \/ entryPointId h ∈ keys (nodes h).

Definition wf (h : HNSW) : Prop :=
  closed (nodes h) /\ ids_ok (nodes h) /\ entry_ok h.

#[global] Instance wf_dec (h : HNSW) : Decision (wf h).
Proof. unfold wf, closed, adj_in, ids_ok, entry_ok. apply _. Defined.

(** The keys of the map that a search has not visited yet. *)
Definition unvisited (m : NodeMap) (vis : gset string) : nat :=
  length (filter (fun k => k ∉ vis) (keys m)).

(** A level that holds a list keeps holding one. *)
Definition def_mono (m m' : NodeMap) : Prop :=
  forall k l, is_Some (get_nb m k l) -> is_Some (get_nb m' k l).

(** Descending order of the scores against [q]. *)
Definition desc (sim : Similarity) (q : Vector) (a b : Ref) : Prop :=
  (score_of sim q b <= score_of sim q a)%Q.

(** ** Frames *)

(** The fields assigned once, and the tombstone. *)
Definition node_same (n n' : AstroNode) : Prop :=
  uniqueid n' = uniqueid n /\ level n' = level n /\
  vector n' = vector n /\ deleted n' = deleted n.

(** Each level of [a'] is the level of [a], or is an empty list where [a]
    has none. *)
Definition materialised (a a' : sparse (list string)) : Prop :=
  forall i, arr_get a' i = arr_get a i \/
            (arr_get a i = None /\ arr_get a' i = Some []).

Definition node_frame (n n' : AstroNode) : Prop :=
  node_same n n' /\ materialised (neighbors n) (neighbors n').

(** Same keys in the same order, related objects. *)
Definition map_rel (R : AstroNode -> AstroNode -> Prop) (m m' : NodeMap) : Prop :=
  Forall2 (fun e e' => fst e' = fst e /\ R (snd e) (snd e')) m m'.

Definition same_config (h h' : HNSW) : Prop :=
  metric h' = metric h /\ similarityFunction h' = similarityFunction h /\
  d h' = d h /\ M h' = M h /\ efConstruction h' = efConstruction h /\
  levelMax h' = levelMax h /\ entryPointId h' = entryPointId h /\
  probs h' = probs h.

(** Symmetric adjacency, as the specification words it. *)
Definition symmetric_adjacency (h : HNSW) : Prop :=
  forall x n, map_get (nodes h) x = Some n -> deleted n = false ->
  forall l nbs, (l <= level n)%Z -> arr_get (neighbors n) l = Some nbs ->
  forall y, y ∈ nbs ->
    y ∈ keys (nodes h) /\ x ∈ nb_list (nodes h) y l.

(** No self-loop, as the specification words it. *)
Definition no_self_loop (h : HNSW) : Prop :=
  forall x l, x ∈ keys (nodes h) -> x ∉ nb_list (nodes h) x l.

(** ** Engines used in the examples *)

Definition fround_id : Q -> Q := fun x => x.

(** The engine [new HNSW(M, ef, null, "euclidean")] over the stand-in
    kernels. *)
Definition euclidean_engine (M ef : nat) : HNSW :=
  match new_HNSW dotSimilarity distSimilarity M ef None "euclidean" with
  | Ret h => h
  | _ => new_HNSW_default dotSimilarity M ef
  end.

Definition rnd0 : nat -> Q := fun _ => 0%Q.

(** One node. *)
Definition e16 : HNSW := euclidean_engine 16 200.
Definition e16A : HNSW := snd (addPoint e16 "a" [1; 0; 0]%Q 0).

(** Four points on a line, M = 2: the third neighbour of a node forces a
    shrink. *)
Definition e2 : HNSW := euclidean_engine 2 10.
Definition e2A : HNSW := snd (addPoint e2 "a" [0]%Q 0).
Definition e2AB : HNSW := snd (addPoint e2A "b" [1]%Q 0).
Definition e2ABC : HNSW := snd (addPoint e2AB "c" [2]%Q 0).
Definition e2ABCD : HNSW := snd (addPoint e2ABC "d" [3]%Q 0).


(** * The rest of the engine *)

(** ** PriorityQueue: the remaining methods (src/pqueue.ts) *)

Definition peek {T} (items : list T) : option T := head items.
Definition isEmpty {T} (items : list T) : bool := bool_decide (length items = 0).
Definition size {T} (items : list T) : nat := length items.

(** ** AstroVault.updateIndex (src/astrovault.ts)

    [loadIndex] runs the same assignments on the blob read from the store.
    The fields copied from the restored engine are M, efConstruction,
    levelMax, entryPointId and nodes; [probs], [d], [metric] and the kernel
    of [this] stay.  The value returned is [nodes.size]. *)

Definition updateIndex (cosineSimilarity : Similarity) (fround : Q -> Q)
  (h : HNSW) (newHnsw : HNSWJSON) : nat * HNSW :=
  let hnsw := fromJSON cosineSimilarity fround newHnsw in
  (length (nodes hnsw),
   mkHNSW (metric h) (similarityFunction h) (d h) (M hnsw)
     (efConstruction hnsw) (levelMax hnsw) (entryPointId hnsw) (nodes hnsw)
     (probs h)).

(** ** The worker (src/driver/worker.ts) *)

(** [existingVector.every((value, index) => value === item.vector[index])] *)
Fixpoint every_equal (existingVector itemVector : list Q) : bool :=
  match existingVector with
  | [] => true
  | value :: rest =>
      match itemVector with
      | [] => false                       (* value === undefined *)
      | y :: rest' => Qeq_bool value y && every_equal rest rest'
      end
  end.

(** One pass of the loop of [syncVectorsFromCloud]; what the body throws is
    caught and the loop goes on with the state the throw left. *)
Definition sync_item (h : HNSW) (item : string * list Q) (r : Q) : HNSW :=
  if decide (length (snd item) = 0) then h
  else
    match map_get (nodes h) (fst item) with
    | Some existing =>
        if every_equal (vector existing) (snd item) then h
        else snd (updatePoint h (fst item) (snd item) r)
    | None => snd (addPoint h (fst item) (snd item) r)
    end.

Fixpoint syncVectorsFromCloud (h : HNSW) (items : list (string * list Q))
  (rnd : nat -> Q) (i : nat) : HNSW :=
  match items with
  | [] => h
  | item :: rest =>
      syncVectorsFromCloud (sync_item h item (rnd i)) rest rnd (S i)
  end.



(** ** The facade (src/driver/driver.ts) *)

(** [Math.min(a, b)] *)
Definition Math_min (a b : Q) : Q := if Qltb b a then b else a.

(** [searchAstroDB]: the setting is a percentage, capped at 0.95; [ef] and
    [beam_size] take their defaults. *)
Definition searchAstroDB (h : HNSW) (vector : list Q) (numb_nodes : nat)
  (similarityStrengthSetting : Q) : outcome (list Scored) * HNSW :=
  let similarityStrength := (similarityStrengthSetting / 100)%Q in
  let similarityStrength := Math_min (95 # 100) similarityStrength in
  searchKNNOptimized h vector numb_nodes similarityStrength
    (efConstruction h) 10.

(** The loop of [removeMultipleFromAstroDB]. *)
Definition removeMultiple (h : HNSW) (uniqueids : list string) : HNSW :=
  fold_left removePoint uniqueids h.

(** ** Further invariants *)

(** Every adjacency list that an id leads to has at most [n] entries. *)
Definition degree_ok (n : nat) (m : NodeMap) : Prop :=
  forall k lvl, length (nb_list m k lvl) <= n.

(** The list that [push_unless_included] leaves. *)
Definition pushed (l : list string) (x : string) : list string :=
  if includes l x then l else l ++ [x].

(** During the linking loop of a level: a list of a peer is within the
    bound, or exceeds it by one, names the new node, and belongs to a peer
    already linked. *)
Definition peer_ok (n : nat) (id : string) (done : list string)
  (m : NodeMap) (lvl : Z) (k : string) : Prop :=
  length (nb_list m k lvl) <= n \/
  (length (nb_list m k lvl) <= n + 1 /\ id ∈ nb_list m k lvl /\ k ∈ done).

(** A reference taken from the map: its key is stored, and the record
    stored there has the id, level, vector and tombstone the reference
    carries. *)
Definition ref_ok (m : NodeMap) (r : Ref) : Prop :=
  exists n, map_get m (ref_key r) = Some n /\ node_same n (ref_obj r).

(** What [searchLayer] keeps true of [foundNearestNeighbors]. *)
Definition found_inv (sim : Similarity) (q : list Q) (m : NodeMap)
  (s : SearchState) : Prop :=
  StronglySorted (desc sim q) (found s) /\
  Forall (ref_ok m) (found s) /\
  Forall (fun r => uid r ∈ visited s) (found s) /\
  NoDup (map uid (found s)).

(** The outcome of an operation. *)
Definition forget {A} (x : outcome A) : outcome unit :=
  match x with
  | Ret _ => Ret tt
  | Throw e => Throw e
  | OutOfFuel => OutOfFuel
  end.

Definition op_outcome (o : op) (h : HNSW) : outcome unit :=
  match o with
  | OpAdd id v r => fst (addPoint h id v r)
  | OpRemove id => Ret tt
  | OpUpdate id v r => fst (updatePoint h id v r)
  | OpBuild data rnd => fst (buildIndex h data rnd)
  | OpRebuild rnd => fst (rebuildGraphNodes h rnd)
  | OpSearch q K t ef b => forget (fst (searchKNNOptimized h q K t ef b))
  end.

(** Every stored node is on level [c]. *)
Definition all_on_level (c : Z) (m : NodeMap) : Prop :=
  Forall (fun e => level (snd e) = c) m.

Definition benign (x : outcome unit) : Prop :=
  x = Ret tt \/ x = Throw DimensionMismatch.

(** Vectors that the narrowing to 32-bit floats leaves as they are. *)
Definition float32_vectors (fround : Q -> Q) (m : NodeMap) : Prop :=
  Forall (fun e => map fround (vector (snd e)) = vector (snd e)) m.

(** ** A cosine engine used in the examples *)

(** * Properties *)

(** ** Comparisons *)

Lemma Qltb_lt (a b : Q) : Qltb a b = true <-> (a < b)%Q.
Proof.
  unfold Qltb. rewrite negb_true_iff. split.
  - intros H. apply Qnot_le_lt. intros Hle.
    apply Qle_bool_iff in Hle. congruence.
  - intros H. destruct (Qle_bool b a) eqn:E; [|reflexivity].
    apply Qle_bool_iff in E. exfalso. exact (Qlt_not_le _ _ H E).
Qed.

Lemma Qltb_ge (a b : Q) : Qltb a b = false <-> (b <= a)%Q.
Proof.
  unfold Qltb. rewrite negb_false_iff. apply Qle_bool_iff.
Qed.


(** ** Level table *)

Lemma Qpower_nat_mono (a b : Q) (n : nat) :
  (0 <= a)%Q -> (a <= b)%Q -> (a ^ Z.of_nat n <= b ^ Z.of_nat n)%Q.
Proof.
  intros Ha Hab. induction n as [|n IH].
  - simpl. apply Qle_refl.
  - rewrite Nat2Z.inj_succ, <- Z.add_1_r.
    rewrite !Qpower_plus' by lia. simpl (_ ^ 1)%Q.
    apply Qmult_le_compat_nonneg.
    + split; [apply Qpower_0_le; exact Ha|exact IH].
    + split; [exact Ha|exact Hab].
Qed.

Lemma level_prob_30 (M : nat) :
  2 <= M -> Qltb (level_prob M 30) (1 # 1000000000) = true.
Proof.
  intros HM. apply Qltb_lt. unfold level_prob.
  set (a := (1 / inject_Z (Z.of_nat M))%Q).
  assert (Ha : (0 <= a)%Q /\ (a <= 1 # 2)%Q).
  { unfold a. destruct (Z.of_nat M) as [|p|p] eqn:E; [lia| |lia].
    assert (Hp : (2 <= Z.pos p)%Z) by lia.
    unfold Qdiv, Qinv, Qmult, Qle. simpl. lia. }
  destruct Ha as [Ha0 Ha2].
  apply Qle_lt_trans with (y := ((1 # 2) ^ 30 * 1)%Q); [|reflexivity].
  apply Qmult_le_compat_nonneg.
  - split; [apply Qpower_0_le; exact Ha0|].
    apply (Qpower_nat_mono a (1 # 2) 30 Ha0 Ha2).
  - split.
    + unfold Qminus. apply (proj1 (Qle_minus_iff a 1)).
      apply Qle_trans with (y := (1 # 2)%Q); [exact Ha2|discriminate].
    + apply (proj2 (Qle_minus_iff (1 - a) 1)).
      assert (E : (1 + - (1 - a) == a)%Q) by ring.
      rewrite E. exact Ha0.
Qed.

Lemma set_probs_loop_stable (M : nat) :
  forall k f g lvl,
    Qltb (level_prob M (lvl + k)) (1 # 1000000000) = true ->
    k < f -> k < g -> set_probs_loop f M lvl = set_probs_loop g M lvl.
Proof.
  induction k as [|k IH]; intros f g lvl Hstop Hf Hg;
    (destruct f as [|f]; [lia|]); (destruct g as [|g]; [lia|]); simpl.
  - rewrite Nat.add_0_r in Hstop. rewrite Hstop. reflexivity.
  - destruct (Qltb (level_prob M lvl) (1 # 1000000000)); [reflexivity|].
    f_equal. apply IH; [|lia|lia].
    replace (S lvl + k) with (lvl + S k) by lia. exact Hstop.
Qed.

(** For M >= 2 the loop of [set_probs] ends by itself within 31 passes: any
    larger number of passes gives the same table. *)
Lemma set_probs_fuel (M f : nat) :
  2 <= M -> 31 <= f -> set_probs_loop f M 0 = set_probs M.
Proof.
  intros HM Hf. unfold set_probs.
  apply (set_probs_loop_stable M 30); [|lia|lia].
  apply level_prob_30. exact HM.
Qed.

(** ** Level draw *)

Lemma selectLevel_cap (ps : list Q) (r : Q) :
  selectLevel ps r = (Z.of_nat (length ps) - 1)%Z.
Proof. reflexivity. Qed.

Lemma spec_walk_bound (ps : list Q) :
  forall i r k, spec_walk ps i r = Some k -> i <= k < i + length ps.
Proof.
  induction ps as [|p ps IH]; intros i r k; simpl; [discriminate|].
  destruct (Qltb r p).
  - intros [= <-]. lia.
  - intros H. apply IH in H. lia.
Qed.

(** C1 (the code departs from the claim).  [selectLevel] returns the table
    cap for every table and every sample: the [return i] of the source sits
    inside the callback given to [forEach], so the walk never ends the draw.
    On the table of M = 16 and the sample r = 0 the walk of the
    specification stops at level 0, and the source returns level 7, which
    is the level [addPoint] gives the node it inserts. *)
Theorem C1_selectLevel_always_cap :
  (forall ps r, selectLevel ps r = (Z.of_nat (length ps) - 1)%Z) /\
  spec_selectLevel (set_probs 16) 0 = 0%Z /\
  selectLevel (set_probs 16) 0 = 7%Z /\
  level <$> map_get (nodes (snd (addPoint e16 "a" [1; 0; 0]%Q 0))) "a"
  = Some 7%Z.
Proof.
  split; [intros; apply selectLevel_cap|].
  repeat split; vm_compute; reflexivity.
Qed.

(** ** Dimension check *)

Lemma addPoint_rejects_dimension
  (h : HNSW) (id : string) (v : list Q) (r : Q) (n : nat) :
  d h = Some n -> v <> [] -> length v <> n ->
  addPoint h id v r = (Throw DimensionMismatch, h).
Proof.
  intros Hd Hv Hn. unfold addPoint.
  destruct (decide (length v = 0)) as [E|_].
  - destruct v; [congruence|discriminate].
  - rewrite Hd.
    destruct (Nat.eqb_spec (length v) n) as [E|_]; [contradiction|].
    reflexivity.
Qed.

(** C5.  On an engine whose dimension is set, [addPoint] with a non-empty
    vector of another length throws DimensionMismatch and leaves the engine
    as it was. *)
Theorem C5_addPoint_dimension_mismatch
  (h : HNSW) (id : string) (v : Vector) (r : Q) (n : nat) :
  d h = Some n -> v <> [] -> length v <> n ->
  addPoint h id v r = (Throw DimensionMismatch, h).
Proof. apply addPoint_rejects_dimension. Qed.

Lemma C5_addPoint_dimension_mismatch_witness :
  d e16A = Some 3 /\ [1; 0]%Q <> [] /\ length [1; 0]%Q <> 3 /\
  addPoint e16A "b" [1; 0]%Q 0 = (Throw DimensionMismatch, e16A).
Proof.
  assert (Hd : d e16A = Some 3) by (vm_compute; reflexivity).
  assert (Hv : [1; 0]%Q <> []) by discriminate.
  assert (Hn : length [1; 0]%Q <> 3) by (simpl; lia).
  split; [exact Hd|]. split; [exact Hv|]. split; [exact Hn|].
  exact (C5_addPoint_dimension_mismatch e16A "b" [1; 0]%Q 0 3 Hd Hv Hn).
Defined.

(** ** Snapshots *)

Lemma map_get_keys (m : NodeMap) (k : string) :
  is_Some (map_get m k) <-> k ∈ keys m.
Proof.
  induction m as [|[k' n] m IH]; simpl.
  - split; [intros [? [=]]|intros H; inversion H].
  - destruct (decide (k' = k)) as [->|Hne].
    + split; [intros _; left|intros _; eauto].
    + rewrite IH. split; [intros H; right; exact H|].
      intros H. apply elem_of_cons in H as [->|H]; [contradiction|exact H].
Qed.

Lemma map_get_None (m : NodeMap) (k : string) :
  map_get m k = None <-> k ∉ keys m.
Proof.
  rewrite <- map_get_keys, <- eq_None_not_Some. reflexivity.
Qed.

Lemma map_get_elem (m : NodeMap) (k : string) (n : AstroNode) :
  map_get m k = Some n -> (k, n) ∈ m.
Proof.
  induction m as [|[k' n'] m IH]; simpl; [discriminate|].
  destruct (decide (k' = k)) as [->|Hne].
  - intros [= ->]. left.
  - intros H. right. auto.
Qed.

Lemma map_set_fresh (m : NodeMap) (k : string) (n : AstroNode) :
  k ∉ keys m -> map_set m k n = m ++ [(k, n)].
Proof.
  induction m as [|[k' n'] m IH]; simpl; intros Hk; [reflexivity|].
  apply not_elem_of_cons in Hk as [Hne Hk].
  destruct (decide (k' = k)); [congruence|].
  rewrite IH by exact Hk. reflexivity.
Qed.

Lemma new_Map_app (acc entries : list (string * AstroNode)) :
  NoDup (keys (acc ++ entries)) ->
  fold_left (fun m e => map_set m (fst e) (snd e)) entries acc = acc ++ entries.
Proof.
  revert acc. induction entries as [|[k n] entries IH]; intros acc Hnd; simpl.
  - rewrite app_nil_r. reflexivity.
  - rewrite map_set_fresh.
    + rewrite IH; rewrite <- app_assoc; [reflexivity|exact Hnd].
    + unfold keys in Hnd. rewrite map_app in Hnd. simpl in Hnd.
      apply NoDup_app in Hnd as (_ & Hdis & _).
      intros Hin. apply (Hdis k Hin). left.
Qed.

Lemma new_Map_NoDup (entries : list (string * AstroNode)) :
  NoDup (keys entries) -> new_Map entries = entries.
Proof. intros H. unfold new_Map. rewrite new_Map_app; auto. Qed.

Lemma fromJSON_toJSON_nodes (cos : Similarity) (fround : Q -> Q) (h : HNSW) :
  NoDup (keys (nodes h)) ->
  nodes (fromJSON cos fround (toJSON h)) =
  map (fun e => (fst e, narrowed fround (snd e))) (nodes h).
Proof.
  intros Hnd. unfold fromJSON, toJSON. simpl.
  rewrite map_map. simpl.
  apply new_Map_NoDup.
  unfold keys. rewrite map_map. simpl. exact Hnd.
Qed.

Lemma map_get_map_values (f : AstroNode -> AstroNode) (m : NodeMap) (k : string) :
  map_get (map (fun e => (fst e, f (snd e))) m) k = f <$> map_get m k.
Proof.
  induction m as [|[k' n] m IH]; simpl; [reflexivity|].
  destruct (decide (k' = k)); [reflexivity|exact IH].
Qed.

(** C4.  [fromJSON(toJSON(idx))] has the M, efConstruction, levelMax and
    entryPointId of [idx], the same node ids in the same order, and under
    every id a node with the same adjacency lists level by level, the same
    tombstone flag, and the vector narrowed component by component. *)
Theorem C4_snapshot_round_trip
  (cos : Similarity) (fround : Q -> Q) (idx : HNSW) :
  NoDup (keys (nodes idx)) ->
  let idx' := fromJSON cos fround (toJSON idx) in
  M idx' = M idx /\ efConstruction idx' = efConstruction idx /\
  levelMax idx' = levelMax idx /\ entryPointId idx' = entryPointId idx /\
  keys (nodes idx') = keys (nodes idx) /\
  forall k n, map_get (nodes idx) k = Some n ->
    exists n', map_get (nodes idx') k = Some n' /\
      uniqueid n' = uniqueid n /\ level n' = level n /\
      neighbors n' = neighbors n /\ deleted n' = deleted n /\
      vector n' = map fround (vector n).
Proof.
  intros Hnd idx'.
  assert (Hn := fromJSON_toJSON_nodes cos fround idx Hnd). fold idx' in Hn.
  repeat (split; [reflexivity|]).
  split.
  - rewrite Hn. unfold keys. rewrite map_map. reflexivity.
  - intros k n Hk. exists (narrowed fround n). rewrite Hn.
    rewrite map_get_map_values, Hk. repeat split.
Qed.

Lemma C4_snapshot_round_trip_witness :
  NoDup (keys (nodes e2ABCD)) /\
  keys (nodes (fromJSON dotSimilarity fround_id (toJSON e2ABCD))) =
  ["a"; "b"; "c"; "d"].
Proof.
  assert (Hnd : NoDup (keys (nodes e2ABCD))).
  { apply (bool_decide_unpack _). vm_compute. reflexivity. }
  split; [exact Hnd|].
  destruct (C4_snapshot_round_trip dotSimilarity fround_id e2ABCD Hnd)
    as (_ & _ & _ & _ & Hk & _).
  rewrite Hk. vm_compute. reflexivity.
Defined.

(** C7 (amended).  [fromJSON] builds the engine with [new HNSW(json.M,
    json.efConstruction)]: whatever engine was serialized, the restored one
    carries the metric tag "cosine" and the cosine kernel; its level table
    is the one computed from the serialized M. *)
Theorem C7_fromJSON_restores_cosine
  (cos euc : Similarity) (fround : Q -> Q) (h : HNSW) :
  let h' := fromJSON cos fround (toJSON h) in
  metric h' = "cosine" /\ similarityFunction h' = cos /\
  probs h' = set_probs (M h) /\ d h' = None.
Proof. repeat split. Qed.

(** C7 (the claim as stated fails).  An engine built with the euclidean
    metric scores (0) against (1) at 1/2; after [toJSON] and [fromJSON] the
    engine is tagged "cosine" and scores the same pair with the cosine
    kernel, at 0. *)
Lemma C7_euclidean_not_restored :
  let h := euclidean_engine 16 200 in
  let h' := fromJSON dotSimilarity fround_id (toJSON h) in
  new_HNSW dotSimilarity distSimilarity 16 200 None "euclidean" = Ret h /\
  metric h = "euclidean" /\ similarityFunction h = distSimilarity /\
  metric h' = "cosine" /\
  similarityFunction h [0]%Q [1]%Q = (1 # 2)%Q /\
  similarityFunction h' [0]%Q [1]%Q = 0%Q /\
  similarityFunction h' <> similarityFunction h.
Proof.
  repeat (split; [vm_compute; reflexivity|]).
  intros H.
  apply (f_equal (fun f => f [0]%Q [1]%Q)) in H. vm_compute in H.
  discriminate H.
Qed.

(** ** Rebuild *)

Lemma rebuild_reset_fields (h : HNSW) :
  nodes (rebuild_reset h) = [] /\ entryPointId (rebuild_reset h) = "" /\
  levelMax (rebuild_reset h) = levelMax h.
Proof. repeat split. Qed.

Lemma addPoint_sample_irrelevant (h : HNSW) (id : string) (v : list Q)
  (r r' : Q) :
  addPoint h id v r = addPoint h id v r'.
Proof. reflexivity. Qed.

Lemma processNode_addPoints (oldNodes : list AstroNode) :
  forall h rnd i rnd' j,
    processNode h oldNodes rnd i =
    addPoints h
      (map (fun n => (uniqueid n, vector n))
         (filter (fun n => rebuild_keeps n = true) oldNodes)) rnd' j.
Proof.
  induction oldNodes as [|n oldNodes IH]; intros h rnd i rnd' j; simpl;
    [reflexivity|].
  rewrite filter_cons. destruct (rebuild_keeps n) eqn:E.
  - destruct (decide (true = true)); [|congruence]. simpl.
    rewrite (addPoint_sample_irrelevant h _ _ (rnd i) (rnd' j)).
    destruct (addPoint h (uniqueid n) (vector n) (rnd' j)) as [[[]| |] h1];
      simpl; [apply IH|reflexivity|reflexivity].
  - destruct (decide (false = true)); [congruence|]. simpl. apply IH.
Qed.

(** C8 (the code departs from the claim).  The reset of
    [rebuildGraphNodes] empties the map and the entry point and leaves
    [levelMax] as it was, where [buildIndex] sets it to 0; the records
    whose [deleted] is false (and whose id is not empty) are then passed to
    [addPoint] in map order, as the claim says.  On the engine
    that holds the one tombstoned node "a" the rebuild re-inserts nothing
    and ends with [levelMax = 7]; [buildIndex([])] ends with 0. *)
Theorem C8_rebuild_keeps_levelMax :
  (forall h, nodes (rebuild_reset h) = [] /\
             entryPointId (rebuild_reset h) = "" /\
             levelMax (rebuild_reset h) = levelMax h) /\
  (forall h rnd,
     rebuildGraphNodes h rnd =
     addPoints (rebuild_reset h)
       (map (fun n => (uniqueid n, vector n))
          (filter (fun n => rebuild_keeps n = true) (map snd (nodes h))))
       rnd 0) /\
  let h := removePoint e16A "a" in
  fst (rebuildGraphNodes h rnd0) = Ret tt /\
  nodes (snd (rebuildGraphNodes h rnd0)) = [] /\
  entryPointId (snd (rebuildGraphNodes h rnd0)) = "" /\
  levelMax (snd (rebuildGraphNodes h rnd0)) = 7%Z /\
  levelMax (snd (buildIndex h [] rnd0)) = 0%Z.
Proof.
  split; [intros h; apply rebuild_reset_fields|].
  split; [intros h rnd; apply processNode_addPoints|].
  repeat split; vm_compute; reflexivity.
Qed.

(** ** Self-loops *)

Lemma arr_get_nil {A} (i : Z) : arr_get (@nil (option A)) i = None.
Proof. unfold arr_get. destruct (i <? 0)%Z; reflexivity. Qed.

(** C6 (the code departs from the claim).  On the engine that holds the one
    node "a", [updatePoint("a", (0,1,0))] returns, and leaves "a" in its own
    adjacency list at level 0 (and at every level up to 7): the new record
    is stored under "a" before the graph is searched, the entry point "a"
    resolves to it, and it is linked to itself. *)
Theorem C6_update_links_node_to_itself :
  let h := snd (updatePoint e16A "a" [0; 1; 0]%Q 0) in
  fst (updatePoint e16A "a" [0; 1; 0]%Q 0) = Ret tt /\
  keys (nodes e16A) = ["a"] /\
  no_self_loop e16A /\
  nb_list (nodes h) "a" 0 = ["a"] /\
  nb_list (nodes h) "a" 7 = ["a"] /\
  ~ no_self_loop h.
Proof.
  split; [vm_compute; reflexivity|].
  split; [vm_compute; reflexivity|].
  split.
  { intros x l Hx Hin.
    assert (Hx' : x = "a").
    { change (keys (nodes e16A)) with ["a"] in Hx.
      apply list_elem_of_singleton in Hx. exact Hx. }
    subst x. unfold nb_list, get_nb in Hin.
    change (map_get (nodes e16A) "a")
      with (Some (new_AstroNode "a" [1; 0; 0]%Q 7)) in Hin.
    simpl in Hin. rewrite arr_get_nil in Hin. inversion Hin. }
  split; [vm_compute; reflexivity|].
  split; [vm_compute; reflexivity|].
  intros Hno. apply (Hno "a" 0%Z).
  - apply (bool_decide_unpack _). vm_compute. reflexivity.
  - apply (bool_decide_unpack _). vm_compute. reflexivity.
Qed.

(** ** Sparse arrays and the node map *)

Lemma arr_get_set_eq {A} (a : sparse A) (i : Z) (x : A) :
  (0 <= i)%Z -> arr_get (arr_set a i x) i = Some x.
Proof.
  intros Hi. unfold arr_get, arr_set.
  destruct (Z.ltb_spec i 0); [lia|]. cbv zeta.
  destruct (decide (Z.to_nat i < length a)) as [Hlt|Hge].
  - rewrite list_lookup_insert_eq by exact Hlt. reflexivity.
  - rewrite lookup_app_r by lia.
    rewrite lookup_app_r by (rewrite length_replicate; lia).
    rewrite length_replicate.
    replace (Z.to_nat i - length a - (Z.to_nat i - length a)) with 0 by lia.
    reflexivity.
Qed.

Lemma arr_get_set_ne {A} (a : sparse A) (i j : Z) (x : A) :
  i <> j -> arr_get (arr_set a i x) j = arr_get a j.
Proof.
  intros Hne. unfold arr_get, arr_set.
  destruct (Z.ltb_spec j 0); [reflexivity|].
  destruct (Z.ltb_spec i 0); [reflexivity|]. cbv zeta.
  assert (Hn : Z.to_nat i <> Z.to_nat j) by lia.
  destruct (decide (Z.to_nat i < length a)) as [Hlt|Hge].
  - rewrite list_lookup_insert_ne by exact Hn. reflexivity.
  - destruct (decide (Z.to_nat j < length a)) as [Hj|Hj].
    + rewrite lookup_app_l by exact Hj. reflexivity.
    + rewrite lookup_app_r by lia.
      rewrite (lookup_ge_None_2 a) by lia. simpl.
      destruct (decide (Z.to_nat j - length a < Z.to_nat i - length a)) as [Hr|Hr].
      * rewrite lookup_app_l by (rewrite length_replicate; exact Hr).
        rewrite lookup_replicate_2 by exact Hr. reflexivity.
      * rewrite lookup_app_r by (rewrite length_replicate; lia).
        rewrite length_replicate.
        rewrite lookup_ge_None_2 by (simpl; lia). reflexivity.
Qed.

Lemma arr_get_elem {A} (a : sparse A) (i : Z) (x : A) :
  arr_get a i = Some x -> Some x ∈ a.
Proof.
  unfold arr_get. destruct (i <? 0)%Z; [discriminate|].
  destruct (a !! Z.to_nat i) as [o|] eqn:E; simpl; [|discriminate].
  intros ->. eapply list_elem_of_lookup_2. exact E.
Qed.

Lemma elem_arr_get {A} (a : sparse A) (x : A) :
  Some x ∈ a -> exists i, arr_get a i = Some x.
Proof.
  intros H. apply list_elem_of_lookup_1 in H as [j Hj].
  exists (Z.of_nat j). unfold arr_get.
  destruct (Z.ltb_spec (Z.of_nat j) 0); [lia|].
  rewrite Nat2Z.id, Hj. reflexivity.
Qed.

Lemma keys_map_modify (m : NodeMap) (k : string) (f : AstroNode -> AstroNode) :
  keys (map_modify m k f) = keys m.
Proof.
  unfold keys. induction m as [|[k' n] m IH]; simpl; [reflexivity|].
  destruct (decide (k' = k)); simpl; [reflexivity|].
  rewrite IH. reflexivity.
Qed.

Lemma length_map_modify (m : NodeMap) (k : string) (f : AstroNode -> AstroNode) :
  length (map_modify m k f) = length m.
Proof.
  pose proof (f_equal length (keys_map_modify m k f)) as H.
  unfold keys in H. rewrite !length_map in H. exact H.
Qed.

Lemma map_get_map_modify (m : NodeMap) (k k' : string)
  (f : AstroNode -> AstroNode) :
  map_get (map_modify m k f) k' =
  if decide (k = k') then f <$> map_get m k' else map_get m k'.
Proof.
  induction m as [|[k0 n] m IH]; simpl.
  - destruct (decide (k = k')); reflexivity.
  - destruct (decide (k0 = k)) as [->|Hne]; simpl.
    + destruct (decide (k = k')); reflexivity.
    + destruct (decide (k0 = k')) as [->|Hne'].
      * destruct (decide (k = k')); [congruence|reflexivity].
      * exact IH.
Qed.

Lemma map_get_map_set (m : NodeMap) (k k' : string) (n : AstroNode) :
  map_get (map_set m k n) k' =
  if decide (k = k') then Some n else map_get m k'.
Proof.
  induction m as [|[k0 n0] m IH]; simpl.
  - destruct (decide (k = k')); reflexivity.
  - destruct (decide (k0 = k)) as [->|Hne]; simpl.
    + destruct (decide (k = k')); reflexivity.
    + destruct (decide (k0 = k')) as [->|Hne'].
      * destruct (decide (k = k')); [congruence|reflexivity].
      * exact IH.
Qed.

Lemma keys_map_set_in (m : NodeMap) (k : string) (n : AstroNode) :
  k ∈ keys m -> keys (map_set m k n) = keys m.
Proof.
  unfold keys. induction m as [|[k0 n0] m IH]; simpl; intros Hk.
  - inversion Hk.
  - destruct (decide (k0 = k)) as [->|Hne]; simpl; [reflexivity|].
    apply elem_of_cons in Hk as [->|Hk]; [contradiction|].
    rewrite IH by exact Hk. reflexivity.
Qed.

Lemma keys_map_set (m : NodeMap) (k : string) (n : AstroNode) :
  keys (map_set m k n) = if decide (k ∈ keys m) then keys m else keys m ++ [k].
Proof.
  destruct (decide (k ∈ keys m)) as [Hin|Hnin].
  - apply keys_map_set_in. exact Hin.
  - rewrite map_set_fresh by exact Hnin. unfold keys. rewrite map_app.
    reflexivity.
Qed.

Lemma keys_map_set_incl (m : NodeMap) (k : string) (n : AstroNode) (y : string) :
  y ∈ keys m -> y ∈ keys (map_set m k n).
Proof.
  rewrite keys_map_set. destruct (decide (k ∈ keys m)); [auto|].
  intros H. apply elem_of_app. left. exact H.
Qed.

Lemma key_in_map_set (m : NodeMap) (k : string) (n : AstroNode) :
  k ∈ keys (map_set m k n).
Proof.
  apply map_get_keys. rewrite map_get_map_set.
  destruct (decide (k = k)); [eauto|congruence].
Qed.

Lemma Forall_map_modify (P : string * AstroNode -> Prop) (m : NodeMap)
  (k : string) (f : AstroNode -> AstroNode) :
  Forall P m -> (forall n, P (k, n) -> P (k, f n)) ->
  Forall P (map_modify m k f).
Proof.
  intros H Hf. induction H as [|[k' n] m Hx H IH]; simpl; [constructor|].
  destruct (decide (k' = k)) as [->|Hne]; constructor; auto.
Qed.

Lemma Forall_map_set (P : string * AstroNode -> Prop) (m : NodeMap)
  (k : string) (n : AstroNode) :
  Forall P m -> P (k, n) -> Forall P (map_set m k n).
Proof.
  intros H Hn. induction H as [|[k' n'] m Hx H IH]; simpl.
  - constructor; [exact Hn|constructor].
  - destruct (decide (k' = k)) as [->|Hne]; constructor; auto.
Qed.

(** ** The relation between the map before and after *)

Lemma map_rel_refl (R : AstroNode -> AstroNode -> Prop) (m : NodeMap) :
  (forall n, R n n) -> map_rel R m m.
Proof.
  intros HR. unfold map_rel. induction m; constructor; auto.
Qed.

Lemma map_rel_trans (R : AstroNode -> AstroNode -> Prop) (m1 m2 m3 : NodeMap) :
  (forall a b c, R a b -> R b c -> R a c) ->
  map_rel R m1 m2 -> map_rel R m2 m3 -> map_rel R m1 m3.
Proof.
  intros HR H12. revert m3. induction H12 as [|e1 e2 m1 m2 [Hk H] H12 IH];
    intros m3 H23; inversion H23 as [|? e3 ? m3' [Hk' H'] H23']; subst;
    constructor.
  - split; [congruence|eauto].
  - apply IH. exact H23'.
Qed.

Lemma map_rel_impl (R R' : AstroNode -> AstroNode -> Prop) (m m' : NodeMap) :
  (forall a b, R a b -> R' a b) -> map_rel R m m' -> map_rel R' m m'.
Proof.
  intros HR H. induction H as [|e e' m m' [Hk H] _ IH]; constructor; auto.
Qed.

Lemma map_rel_keys (R : AstroNode -> AstroNode -> Prop) (m m' : NodeMap) :
  map_rel R m m' -> keys m' = keys m.
Proof.
  unfold keys.
  intros H. induction H as [|e e' m m' [Hk _] _ IH]; simpl; [reflexivity|].
  rewrite Hk, IH. reflexivity.
Qed.

Lemma map_rel_get (R : AstroNode -> AstroNode -> Prop) (m m' : NodeMap)
  (k : string) :
  map_rel R m m' ->
  match map_get m k, map_get m' k with
  | Some n, Some n' => R n n'
  | None, None => True
  | _, _ => False
  end.
Proof.
  intros H. induction H as [|[k1 n1] [k2 n2] m m' [Hk HR] _ IH]; simpl;
    [exact I|].
  simpl in Hk, HR. subst k2.
  destruct (decide (k1 = k)); [exact HR|exact IH].
Qed.

Lemma map_rel_modify (R : AstroNode -> AstroNode -> Prop) (m : NodeMap)
  (k : string) (f : AstroNode -> AstroNode) :
  (forall n, R n n) -> (forall n, R n (f n)) -> map_rel R m (map_modify m k f).
Proof.
  intros Hrefl Hf. induction m as [|[k' n] m IH]; simpl; [constructor|].
  destruct (decide (k' = k)) as [->|Hne]; constructor; simpl; auto.
  apply map_rel_refl. exact Hrefl.
Qed.

Lemma node_same_refl (n : AstroNode) : node_same n n.
Proof. repeat split. Qed.

Lemma node_same_trans (a b c : AstroNode) :
  node_same a b -> node_same b c -> node_same a c.
Proof.
  intros (?&?&?&?) (?&?&?&?). repeat split; congruence.
Qed.

Lemma materialised_refl (a : sparse (list string)) : materialised a a.
Proof. intros i. left. reflexivity. Qed.

Lemma materialised_trans (a b c : sparse (list string)) :
  materialised a b -> materialised b c -> materialised a c.
Proof.
  intros Hab Hbc i. destruct (Hab i) as [E|[E1 E2]], (Hbc i) as [F|[F1 F2]].
  - left. congruence.
  - right. split; congruence.
  - right. split; congruence.
  - congruence.
Qed.

Lemma node_frame_refl (n : AstroNode) : node_frame n n.
Proof. split; [apply node_same_refl|apply materialised_refl]. Qed.

Lemma node_frame_trans (a b c : AstroNode) :
  node_frame a b -> node_frame b c -> node_frame a c.
Proof.
  intros [? ?] [? ?].
  split; [eapply node_same_trans|eapply materialised_trans]; eauto.
Qed.

Lemma map_frame_refl (m : NodeMap) : map_rel node_frame m m.
Proof. apply map_rel_refl, node_frame_refl. Qed.

Lemma map_frame_trans (m1 m2 m3 : NodeMap) :
  map_rel node_frame m1 m2 -> map_rel node_frame m2 m3 ->
  map_rel node_frame m1 m3.
Proof. apply map_rel_trans, node_frame_trans. Qed.

Lemma map_same_refl (m : NodeMap) : map_rel node_same m m.
Proof. apply map_rel_refl, node_same_refl. Qed.

Lemma map_same_trans (m1 m2 m3 : NodeMap) :
  map_rel node_same m1 m2 -> map_rel node_same m2 m3 ->
  map_rel node_same m1 m3.
Proof. apply map_rel_trans, node_same_trans. Qed.

Lemma map_frame_same (m m' : NodeMap) :
  map_rel node_frame m m' -> map_rel node_same m m'.
Proof. apply map_rel_impl. intros a b [H _]. exact H. Qed.

(** ** Reading and writing one adjacency list *)

Lemma get_nb_set_nb_eq (m : NodeMap) (k : string) (lvl : Z) (l : list string) :
  k ∈ keys m -> (0 <= lvl)%Z -> get_nb (set_nb m k lvl l) k lvl = Some l.
Proof.
  intros Hk Hl. unfold get_nb, set_nb. rewrite map_get_map_modify.
  destruct (decide (k = k)); [|congruence].
  apply map_get_keys in Hk as [n Hn]. rewrite Hn. simpl.
  apply arr_get_set_eq. exact Hl.
Qed.

Lemma get_nb_set_nb_ne (m : NodeMap) (k k' : string) (lvl lvl' : Z)
  (l : list string) :
  k <> k' \/ lvl <> lvl' ->
  get_nb (set_nb m k lvl l) k' lvl' = get_nb m k' lvl'.
Proof.
  intros Hne. unfold get_nb, set_nb. rewrite map_get_map_modify.
  destruct (decide (k = k')) as [->|]; [|reflexivity].
  destruct (map_get m k') as [n|]; simpl; [|reflexivity].
  destruct Hne as [Hne|Hne]; [congruence|].
  apply arr_get_set_ne. exact Hne.
Qed.

Lemma get_nb_set_nb (m : NodeMap) (k k' : string) (lvl lvl' : Z)
  (l : list string) :
  get_nb (set_nb m k lvl l) k' lvl' = get_nb m k' lvl' \/
  get_nb (set_nb m k lvl l) k' lvl' = Some l.
Proof.
  destruct (decide (k = k')) as [->|Hk];
    [|left; apply get_nb_set_nb_ne; left; exact Hk].
  destruct (decide (lvl = lvl')) as [->|Hl];
    [|left; apply get_nb_set_nb_ne; right; exact Hl].
  destruct (decide (k' ∈ keys m)) as [Hin|Hnin].
  - destruct (Z.le_gt_cases 0 lvl') as [Hpos|Hneg].
    + right. apply get_nb_set_nb_eq; assumption.
    + left. unfold get_nb, set_nb. rewrite map_get_map_modify.
      destruct (decide (k' = k')); [|congruence].
      destruct (map_get m k'); simpl; [|reflexivity].
      unfold arr_get. destruct (Z.ltb_spec lvl' 0); [reflexivity|lia].
  - left. unfold get_nb, set_nb. rewrite map_get_map_modify.
    apply map_get_None in Hnin. rewrite Hnin.
    destruct (decide (k' = k')); reflexivity.
Qed.

Lemma get_nb_key (m : NodeMap) (k : string) (lvl : Z) (l : list string) :
  get_nb m k lvl = Some l -> k ∈ keys m /\ (0 <= lvl)%Z.
Proof.
  unfold get_nb. destruct (map_get m k) as [n|] eqn:E; simpl; [|discriminate].
  intros H. split.
  - apply map_get_keys. eauto.
  - unfold arr_get in H. destruct (Z.ltb_spec lvl 0); [discriminate|lia].
Qed.

Lemma set_nb_same (m : NodeMap) (k : string) (lvl : Z) (l : list string) :
  map_rel node_same m (set_nb m k lvl l).
Proof.
  apply map_rel_modify; [apply node_same_refl|]. intros n. repeat split.
Qed.

Lemma set_nb_def_mono (m : NodeMap) (k : string) (lvl : Z) (l : list string) :
  def_mono m (set_nb m k lvl l).
Proof.
  intros k' l' H. destruct (get_nb_set_nb m k k' lvl l' l) as [E|E];
    rewrite E; eauto.
Qed.

Lemma def_mono_refl (m : NodeMap) : def_mono m m.
Proof. intros k l H. exact H. Qed.

Lemma def_mono_trans (m1 m2 m3 : NodeMap) :
  def_mono m1 m2 -> def_mono m2 m3 -> def_mono m1 m3.
Proof. intros H1 H2 k l H. auto. Qed.

Lemma init_nb_frame (m : NodeMap) (k : string) (lvl : Z) :
  map_rel node_frame m (init_nb m k lvl).
Proof.
  unfold init_nb. destruct (get_nb m k lvl) as [l|] eqn:E;
    [apply map_frame_refl|].
  unfold set_nb, get_nb in *.
  induction m as [|[k' n] m IH]; simpl in *; [constructor|].
  destruct (decide (k' = k)) as [->|Hne].
  - constructor; [|apply map_frame_refl]. simpl. split; [reflexivity|].
    split; [repeat split|]. simpl. intros i.
    destruct (decide (lvl = i)) as [->|Hi].
    + destruct (Z.le_gt_cases 0 i) as [Hpos|Hneg].
      * right. split; [exact E|]. apply arr_get_set_eq. exact Hpos.
      * left. unfold arr_set. destruct (Z.ltb_spec i 0); [reflexivity|lia].
    + left. apply arr_get_set_ne. exact Hi.
  - constructor; [|apply IH; exact E]. simpl. split; [reflexivity|].
    apply node_frame_refl.
Qed.

Lemma init_nb_same (m : NodeMap) (k : string) (lvl : Z) :
  map_rel node_same m (init_nb m k lvl).
Proof. apply map_frame_same, init_nb_frame. Qed.

Lemma init_nb_def_mono (m : NodeMap) (k : string) (lvl : Z) :
  def_mono m (init_nb m k lvl).
Proof.
  unfold init_nb. destruct (get_nb m k lvl);
    [apply def_mono_refl|apply set_nb_def_mono].
Qed.

Lemma init_nb_defined (m : NodeMap) (k : string) (lvl : Z) :
  k ∈ keys m -> (0 <= lvl)%Z -> is_Some (get_nb (init_nb m k lvl) k lvl).
Proof.
  intros Hk Hl. unfold init_nb. destruct (get_nb m k lvl) as [l|] eqn:E.
  - rewrite E. eauto.
  - rewrite get_nb_set_nb_eq by assumption. eauto.
Qed.

Lemma keys_set_nb (m : NodeMap) (k : string) (lvl : Z) (l : list string) :
  keys (set_nb m k lvl l) = keys m.
Proof. apply keys_map_modify. Qed.

Lemma keys_init_nb (m : NodeMap) (k : string) (lvl : Z) :
  keys (init_nb m k lvl) = keys m.
Proof.
  unfold init_nb. destruct (get_nb m k lvl); [reflexivity|apply keys_set_nb].
Qed.

(** ** Closed adjacency *)

Lemma adj_in_get (ks : list string) (n : AstroNode) (i : Z) (l : list string) :
  adj_in ks n -> arr_get (neighbors n) i = Some l -> Forall (fun y => y ∈ ks) l.
Proof.
  unfold adj_in. rewrite Forall_forall. intros H Hg.
  exact (H _ (arr_get_elem _ _ _ Hg)).
Qed.

Lemma adj_in_intro (ks : list string) (n : AstroNode) :
  (forall i l, arr_get (neighbors n) i = Some l -> Forall (fun y => y ∈ ks) l) ->
  adj_in ks n.
Proof.
  intros H. unfold adj_in. apply Forall_forall. intros [l|] Ho; simpl.
  - apply elem_arr_get in Ho as [i Hi]. eauto.
  - constructor.
Qed.

Lemma adj_in_mono (ks ks' : list string) (n : AstroNode) :
  (forall y, y ∈ ks -> y ∈ ks') -> adj_in ks n -> adj_in ks' n.
Proof.
  intros Hsub. unfold adj_in. intros H.
  eapply Forall_impl; [exact H|]. intros o Ho. simpl in Ho.
  eapply Forall_impl; [exact Ho|]. exact Hsub.
Qed.

Lemma adj_in_set (ks : list string) (n : AstroNode) (lvl : Z) (l : list string) :
  adj_in ks n -> Forall (fun y => y ∈ ks) l ->
  adj_in ks (set_neighbors n (arr_set (neighbors n) lvl l)).
Proof.
  intros Hn Hl. apply adj_in_intro. simpl. intros i l' Hg.
  destruct (decide (lvl = i)) as [->|Hne].
  - destruct (Z.le_gt_cases 0 i) as [Hpos|Hneg].
    + rewrite arr_get_set_eq in Hg by exact Hpos. congruence.
    + unfold arr_get in Hg. destruct (Z.ltb_spec i 0); [discriminate|lia].
  - rewrite arr_get_set_ne in Hg by exact Hne. eapply adj_in_get; eauto.
Qed.

Lemma closed_get_nb (m : NodeMap) (k : string) (lvl : Z) (l : list string) :
  closed m -> get_nb m k lvl = Some l -> Forall (fun y => y ∈ keys m) l.
Proof.
  unfold closed, get_nb. intros H Hg.
  destruct (map_get m k) as [n|] eqn:E; simpl in Hg; [|discriminate].
  apply map_get_elem in E. rewrite Forall_forall in H.
  exact (adj_in_get _ _ _ _ (H _ E) Hg).
Qed.

Lemma closed_nb_list (m : NodeMap) (k : string) (lvl : Z) :
  closed m -> Forall (fun y => y ∈ keys m) (nb_list m k lvl).
Proof.
  intros H. unfold nb_list. destruct (get_nb m k lvl) as [l|] eqn:E; simpl.
  - eapply closed_get_nb; eauto.
  - constructor.
Qed.

Lemma closed_set_nb (m : NodeMap) (k : string) (lvl : Z) (l : list string) :
  closed m -> Forall (fun y => y ∈ keys m) l -> closed (set_nb m k lvl l).
Proof.
  unfold closed. intros H Hl. rewrite keys_set_nb.
  apply Forall_map_modify; [exact H|]. simpl. intros n Hn.
  apply adj_in_set; assumption.
Qed.

Lemma closed_init_nb (m : NodeMap) (k : string) (lvl : Z) :
  closed m -> closed (init_nb m k lvl).
Proof.
  intros H. unfold init_nb. destruct (get_nb m k lvl); [exact H|].
  apply closed_set_nb; [exact H|constructor].
Qed.

Lemma closed_frame (m m' : NodeMap) :
  closed m -> map_rel node_frame m m' -> closed m'.
Proof.
  intros H Hrel. unfold closed. rewrite (map_rel_keys _ _ _ Hrel).
  unfold closed in H. generalize dependent (keys m). intros ks H.
  induction Hrel as [|e e' m m' [_ [_ Hmat]] _ IH]; [constructor|].
  inversion H as [|? ? He Hm]; subst. constructor; [|auto].
  apply adj_in_intro. intros i l Hg. destruct (Hmat i) as [E|[_ E]].
  - rewrite E in Hg. eapply adj_in_get; eauto.
  - rewrite E in Hg. injection Hg as <-. constructor.
Qed.

Lemma closed_map_set_new (m : NodeMap) (id : string) (v : list Q) (lvl : Z) :
  closed m -> closed (map_set m id (new_AstroNode id v lvl)).
Proof.
  unfold closed. intros H. apply Forall_map_set.
  - eapply Forall_impl; [exact H|]. intros e He.
    eapply adj_in_mono; [|exact He]. intros y. apply keys_map_set_incl.
  - simpl. constructor.
Qed.

Lemma closed_set_deleted (m : NodeMap) (k : string) (b : bool) :
  closed m -> closed (map_modify m k (fun n => set_deleted n b)).
Proof.
  unfold closed. intros H. rewrite keys_map_modify.
  apply Forall_map_modify; [exact H|]. intros n Hn. exact Hn.
Qed.

Lemma ids_ok_same (m m' : NodeMap) :
  ids_ok m -> map_rel node_same m m' -> ids_ok m'.
Proof.
  unfold ids_ok. intros H Hrel.
  induction Hrel as [|e e' m m' [Hk [Hu _]] _ IH]; [constructor|].
  inversion H; subst. constructor; [congruence|auto].
Qed.

Lemma ids_ok_get (m : NodeMap) (k : string) (n : AstroNode) :
  ids_ok m -> map_get m k = Some n -> uniqueid n = k.
Proof.
  unfold ids_ok. rewrite Forall_forall. intros H Hg.
  apply map_get_elem in Hg. exact (H _ Hg).
Qed.

Lemma ids_ok_map_set_new (m : NodeMap) (id : string) (v : list Q) (lvl : Z) :
  ids_ok m -> ids_ok (map_set m id (new_AstroNode id v lvl)).
Proof. intros H. apply Forall_map_set; [exact H|reflexivity]. Qed.

Lemma ids_ok_set_deleted (m : NodeMap) (k : string) (b : bool) :
  ids_ok m -> ids_ok (map_modify m k (fun n => set_deleted n b)).
Proof.
  intros H. apply Forall_map_modify; [exact H|]. intros n Hn. exact Hn.
Qed.

Lemma ref_get_uid (m : NodeMap) (k : string) (r : Ref) :
  ids_ok m -> ref_get m k = Some r -> ref_key r = k /\ uid r = k.
Proof.
  unfold ref_get. intros H. destruct (map_get m k) as [n|] eqn:E; simpl;
    [|discriminate].
  intros [= <-]. split; [reflexivity|]. unfold uid. simpl.
  eapply ids_ok_get; eauto.
Qed.

Lemma ref_get_key (m : NodeMap) (k : string) (r : Ref) :
  ref_get m k = Some r -> ref_key r = k /\ k ∈ keys m.
Proof.
  unfold ref_get. destruct (map_get m k) as [n|] eqn:E; simpl; [|discriminate].
  intros [= <-]. split; [reflexivity|]. apply map_get_keys. eauto.
Qed.

Lemma ref_get_is_Some (m : NodeMap) (k : string) :
  k ∈ keys m -> is_Some (ref_get m k).
Proof.
  intros H. apply map_get_keys in H as [n Hn]. unfold ref_get. rewrite Hn.
  simpl. eauto.
Qed.

Lemma ref_get_None (m : NodeMap) (k : string) :
  ref_get m k = None -> k ∉ keys m.
Proof.
  unfold ref_get. destruct (map_get m k) eqn:E; simpl; [discriminate|].
  intros _. apply map_get_None. exact E.
Qed.

(** ** The priority queue *)

Section PQ_facts.
Context {T : Type} (compare : T -> T -> Q).

Lemma pq_push_length (x : T) (l : list T) :
  length (pq_push compare x l) = S (length l).
Proof.
  induction l as [|y l IH]; simpl; [reflexivity|].
  destruct (Qltb 0 (compare x y)); simpl; [rewrite IH|]; reflexivity.
Qed.

Lemma elem_of_pq_push (x y : T) (l : list T) :
  y ∈ pq_push compare x l <-> y = x \/ y ∈ l.
Proof.
  induction l as [|z l IH]; simpl.
  - rewrite list_elem_of_singleton. split; [auto|].
    intros [H|H]; [exact H|inversion H].
  - destruct (Qltb 0 (compare x z)).
    + rewrite !elem_of_cons, IH. tauto.
    + rewrite !elem_of_cons. tauto.
Qed.

Lemma pq_push_not_nil (x : T) (l : list T) : pq_push compare x l <> [].
Proof.
  intros H. apply (f_equal length) in H. rewrite pq_push_length in H.
  discriminate H.
Qed.
End PQ_facts.

Lemma popLast_length {T} (l : list T) : length (popLast l) = pred (length l).
Proof.
  unfold popLast. rewrite removelast_firstn_len.
  apply length_take_le. lia.
Qed.

Lemma iter_popLast {T} (k : nat) (l : list T) :
  Nat.iter k popLast l = take (length l - k) l.
Proof.
  induction k as [|k IH]; simpl.
  - rewrite Nat.sub_0_r, firstn_all. reflexivity.
  - rewrite IH. unfold popLast. rewrite removelast_firstn_len.
    rewrite length_take, take_take. f_equal. lia.
Qed.

Lemma truncate_take (n : nat) (l : list Ref) :
  truncate n l = take (Nat.min n (length l)) l.
Proof.
  unfold truncate. rewrite iter_popLast. f_equal. lia.
Qed.

(** Descending order of the scores. *)
Lemma Qlt_0_minus (a b : Q) : Qltb 0 (b - a) = true <-> (a < b)%Q.
Proof.
  rewrite Qltb_lt. unfold Qminus. symmetry. apply Qlt_minus_iff.
Qed.

Section Sorted_facts.
Variable sim : Similarity.
Variable q : list Q.

Lemma pq_push_sorted (x : Ref) (l : list Ref) :
  StronglySorted (desc sim q) l -> StronglySorted (desc sim q) (pq_push (cmp sim q) x l).
Proof.
  induction 1 as [|y l Hl IH Hy]; simpl.
  - repeat constructor.
  - unfold cmp at 1, by_similarity.
    destruct (Qltb 0 (sim q (vector (ref_obj y)) - sim q (vector (ref_obj x))))
      eqn:E.
    + apply Qlt_0_minus in E. constructor; [exact IH|].
      apply Forall_forall. intros z Hz. apply elem_of_pq_push in Hz as [->|Hz].
      * unfold desc, score_of. apply Qlt_le_weak. exact E.
      * rewrite Forall_forall in Hy. auto.
    + assert (Hle : (score_of sim q y <= score_of sim q x)%Q).
      { apply Qnot_lt_le. intros Hlt. apply Qlt_0_minus in Hlt.
        unfold score_of in Hlt. congruence. }
      constructor; [constructor; assumption|].
      constructor; [exact Hle|].
      eapply Forall_impl; [exact Hy|]. intros z Hz. unfold desc in *.
      eapply Qle_trans; eauto.
Qed.

Lemma take_sorted (n : nat) (l : list Ref) :
  StronglySorted (desc sim q) l -> StronglySorted (desc sim q) (take n l).
Proof.
  intros H. rewrite <- (take_drop n l) in H.
  eapply StronglySorted_app_1_l. exact H.
Qed.

Lemma updateBestCandidates_sorted (m : NodeMap) (best news : list Ref)
  (maxSize : nat) :
  StronglySorted (desc sim q) best ->
  StronglySorted (desc sim q) (updateBestCandidates sim q m best news maxSize).
Proof.
  intros H. unfold updateBestCandidates. rewrite truncate_take.
  apply take_sorted. revert best H.
  induction news as [|c news IH]; intros best H; simpl; [exact H|].
  apply IH. destruct (deleted (live m c)); [exact H|].
  apply pq_push_sorted. exact H.
Qed.
End Sorted_facts.

Lemma StronglySorted_filter {A} (R : A -> A -> Prop) (P : A -> Prop)
  `{forall x, Decision (P x)} (l : list A) :
  StronglySorted R l -> StronglySorted R (filter P l).
Proof.
  induction 1 as [|x l Hl IH Hx]; [constructor|].
  rewrite filter_cons. destruct (decide (P x)); [|exact IH].
  constructor; [exact IH|].
  apply Forall_forall. intros y Hy. apply list_elem_of_filter in Hy as [_ Hy].
  rewrite Forall_forall in Hx. auto.
Qed.

(** ** searchLayer *)

Lemma unvisited_le (m : NodeMap) (vis : gset string) (x : string) :
  unvisited m ({[x]} ∪ vis) <= unvisited m vis.
Proof.
  unfold unvisited. induction (keys m) as [|k ks IH]; simpl; [lia|].
  rewrite !filter_cons.
  destruct (decide (k ∉ {[x]} ∪ vis)) as [H1|H1],
           (decide (k ∉ vis)) as [H2|H2]; simpl; try lia.
  exfalso. apply H2. set_solver.
Qed.

Lemma unvisited_lt (m : NodeMap) (vis : gset string) (x : string) :
  x ∈ keys m -> x ∉ vis -> unvisited m ({[x]} ∪ vis) < unvisited m vis.
Proof.
  unfold unvisited. intros Hx Hv.
  induction (keys m) as [|k ks IH]; [inversion Hx|].
  rewrite !filter_cons.
  assert (Hle : length (filter (fun k => k ∉ {[x]} ∪ vis) ks)
                <= length (filter (fun k => k ∉ vis) ks)).
  { clear. induction ks as [|k ks IH]; simpl; [lia|]. rewrite !filter_cons.
    destruct (decide (k ∉ {[x]} ∪ vis)) as [H1|H1],
             (decide (k ∉ vis)) as [H2|H2]; simpl; try lia.
    exfalso. apply H2. set_solver. }
  apply elem_of_cons in Hx as [<-|Hx].
  - destruct (decide (x ∉ {[x]} ∪ vis)) as [H1|H1]; [set_solver|].
    destruct (decide (x ∉ vis)); [simpl; lia|contradiction].
  - specialize (IH Hx).
    destruct (decide (k ∉ {[x]} ∪ vis)) as [H1|H1],
             (decide (k ∉ vis)) as [H2|H2]; simpl; try lia.
    exfalso. apply H2. set_solver.
Qed.

Lemma unvisited_bound (m : NodeMap) (vis : gset string) :
  unvisited m vis <= length m.
Proof.
  unfold unvisited, keys. rewrite <- (length_map fst m).
  apply length_filter.
Qed.

Lemma unvisited_keys (m m' : NodeMap) (vis : gset string) :
  keys m' = keys m -> unvisited m' vis = unvisited m vis.
Proof. unfold unvisited. intros ->. reflexivity. Qed.

Section Search_facts.
Variable sim : Similarity.
Variable q : list Q.

Lemma seed_inv (eps : list Ref) (s : SearchState) :
  length (candidates s) = length (found s) ->
  length (candidates (seed sim q eps s)) = length (found (seed sim q eps s))
  /\ length (candidates (seed sim q eps s)) <= length eps + length (candidates s).
Proof.
  revert s. induction eps as [|ep eps IH]; intros s Hs; simpl; [lia|].
  destruct (decide (uid ep ∈ visited s)).
  - destruct (IH s Hs). lia.
  - edestruct (IH (mkSearch ({[uid ep]} ∪ visited s)
                     (pq_push (cmp sim q) ep (candidates s))
                     (pq_push (cmp sim q) ep (found s)))) as [H1 H2].
    + simpl. rewrite !pq_push_length. lia.
    + split; [exact H1|]. simpl in H2. rewrite pq_push_length in H2. lia.
Qed.

Lemma scan_ok (ef : nat) (m : NodeMap) (ids : list string) :
  forall s, Forall (fun y => y ∈ keys m) ids -> found s <> [] ->
  exists s', scan sim q ef m ids s = Ret s' /\ found s' <> [] /\
    length (candidates s') + unvisited m (visited s')
    <= length (candidates s) + unvisited m (visited s).
Proof.
  induction ids as [|nid ids IH]; intros s Hids Hf; simpl.
  - exists s. split; [reflexivity|]. split; [exact Hf|lia].
  - inversion Hids as [|? ? Hnid Hids']; subst.
    destruct (decide (nid = "")); [apply IH; assumption|].
    destruct (decide (nid ∈ visited s)) as [Hv|Hv]; [apply IH; assumption|].
    destruct (ref_get_is_Some m nid Hnid) as [nb Hnb]. rewrite Hnb.
    pose proof (unvisited_lt m (visited s) nid Hnid Hv) as Hlt.
    assert (Hpush : forall b,
      (if (length (found s) <? ef)%nat then Ret true
       else match getLast (found s) with
            | None => Throw TypeError
            | Some furthest =>
                Ret (Qltb (score_of sim q furthest) (score_of sim q nb))
            end) = Ret b ->
      exists s', (if b then
                scan sim q ef m ids
                  (mkSearch ({[nid]} ∪ visited s)
                     (pq_push (cmp sim q) nb (candidates s))
                     (if (ef <? length (pq_push (cmp sim q) nb (found s)))%nat
                      then popLast (pq_push (cmp sim q) nb (found s))
                      else pq_push (cmp sim q) nb (found s)))
              else scan sim q ef m ids
                     (mkSearch ({[nid]} ∪ visited s) (candidates s) (found s)))
             = Ret s' /\ found s' <> [] /\
        length (candidates s') + unvisited m (visited s')
        <= length (candidates s) + unvisited m (visited s)).
    { intros [|] _.
      - edestruct IH as (s' & E & Hf' & Hm); [exact Hids'| |].
        2:{ exists s'. split; [exact E|]. split; [exact Hf'|].
            simpl in Hm. rewrite pq_push_length in Hm. lia. }
        simpl. destruct (ef <? _)%nat; [|apply pq_push_not_nil].
        intros Hnil. apply (f_equal length) in Hnil.
        rewrite popLast_length, pq_push_length in Hnil. simpl in Hnil.
        destruct (found s); [congruence|discriminate].
      - edestruct IH as (s' & E & Hf' & Hm); [exact Hids'| |].
        2:{ exists s'. split; [exact E|]. split; [exact Hf'|].
            simpl in Hm. lia. }
        exact Hf. }
    destruct (length (found s) <? ef)%nat.
    + apply (Hpush true). reflexivity.
    + unfold getLast in *. destruct (last (found s)) as [fu|] eqn:El.
      * destruct (Qltb (score_of sim q fu) (score_of sim q nb)) eqn:Eb.
        -- apply (Hpush true). reflexivity.
        -- apply (Hpush false). reflexivity.
      * apply last_None in El. contradiction.
Qed.

Lemma search_loop_frame (ef : nat) (lvl : Z) :
  forall fuel m s,
    map_rel node_frame m (snd (search_loop sim q fuel ef lvl m s)).
Proof.
  induction fuel as [|fuel IH]; intros m s; simpl.
  - destruct (candidates s); apply map_frame_refl.
  - destruct (candidates s) as [|current rest]; [apply map_frame_refl|].
    destruct (getLast (found s)); [|apply map_frame_refl].
    destruct (Qltb _ _); [apply map_frame_refl|].
    destruct (scan _ _ _ _ _ _) as [s'| |]; simpl;
      try apply init_nb_frame.
    eapply map_frame_trans; [apply init_nb_frame|apply IH].
Qed.

Lemma searchLayer_frame (m : NodeMap) (eps : list Ref) (ef : nat) (lvl : Z) :
  map_rel node_frame m (snd (searchLayer sim q m eps ef lvl)).
Proof. apply search_loop_frame. Qed.

Lemma search_loop_ok (ef : nat) (lvl : Z) :
  forall fuel m s, closed m ->
    candidates s = [] \/ found s <> [] ->
    length (candidates s) + unvisited m (visited s) <= fuel ->
    exists res, fst (search_loop sim q fuel ef lvl m s) = Ret res.
Proof.
  induction fuel as [|fuel IH]; intros m s Hc Hinv Hfuel.
  - simpl. destruct (candidates s); simpl in *; [eauto|lia].
  - simpl. destruct (candidates s) as [|current rest] eqn:Ec; [simpl; eauto|].
    destruct Hinv as [Hinv|Hinv]; [discriminate|].
    unfold getLast. destruct (last (found s)) as [fu|] eqn:El.
    2:{ apply last_None in El. contradiction. }
    destruct (Qltb _ _); [simpl; eauto|].
    set (m1 := init_nb m (ref_key current) lvl).
    assert (Hc1 : closed m1) by (apply closed_init_nb; exact Hc).
    destruct (scan_ok ef m1 (nb_list m1 (ref_key current) lvl)
                (mkSearch (visited s) rest (found s)))
      as (s' & E & Hf' & Hm).
    + apply closed_nb_list. exact Hc1.
    + exact Hinv.
    + rewrite E. apply IH; [exact Hc1|right; exact Hf'|].
      simpl in Hm, Hfuel.
      rewrite !(unvisited_keys m m1) in Hm by apply keys_init_nb.
      rewrite (unvisited_keys m m1) by apply keys_init_nb. lia.
Qed.

Lemma searchLayer_ok (m : NodeMap) (eps : list Ref) (ef : nat) (lvl : Z) :
  closed m ->
  exists res m', searchLayer sim q m eps ef lvl = (Ret res, m') /\
    map_rel node_frame m m'.
Proof.
  intros Hc.
  destruct (seed_inv eps (mkSearch ∅ [] []) eq_refl) as [Hlen Hle].
  simpl in Hle.
  destruct (search_loop_ok ef lvl (length eps + length m) m
              (seed sim q eps (mkSearch ∅ [] [])) Hc) as [res Hres].
  - destruct (candidates (seed sim q eps _)) eqn:E; [left; reflexivity|].
    right. intros Hnil. rewrite Hnil in Hlen. discriminate Hlen.
  - pose proof (unvisited_bound m (visited (seed sim q eps (mkSearch ∅ [] [])))).
    lia.
  - pose proof (searchLayer_frame m eps ef lvl) as Hfr.
    unfold searchLayer in *.
    destruct (search_loop _ _ _ _ _ _ _) as [o m']. simpl in *. subst o.
    exists res, m'. split; [reflexivity|exact Hfr].
Qed.
End Search_facts.

(** ** Top-K search *)

Lemma StronglySorted_map {A B} (R : B -> B -> Prop) (f : A -> B) (l : list A) :
  StronglySorted (fun a b => R (f a) (f b)) l -> StronglySorted R (map f l).
Proof.
  induction 1 as [|x l Hl IH Hx]; simpl; constructor; [exact IH|].
  apply Forall_forall. intros y Hy. apply list_elem_of_In, in_map_iff in Hy
    as (z & <- & Hz).
  rewrite Forall_forall in Hx. apply Hx. apply list_elem_of_In. exact Hz.
Qed.

Section KNN_facts.
Variable sim : Similarity.
Variable q : list Q.
Variables K ef beam_size : nat.

Lemma beam_levels_frame (lvls : list Z) :
  forall m best beam,
    map_rel node_frame m
      (snd (beam_levels sim q K ef beam_size lvls m best beam)).
Proof.
  induction lvls as [|lvl lvls IH]; intros m best beam; simpl;
    [apply map_frame_refl|].
  pose proof (searchLayer_frame sim q m beam (Nat.min ef beam_size) lvl) as H.
  destruct (searchLayer _ _ _ _ _ _) as [[res| |] m1]; simpl in *;
    try exact H.
  eapply map_frame_trans; [exact H|apply IH].
Qed.

Lemma beam_levels_ok (lvls : list Z) :
  forall m best beam, closed m -> StronglySorted (desc sim q) best ->
  exists best' beam' m',
    beam_levels sim q K ef beam_size lvls m best beam
    = (Ret (best', beam'), m') /\
    map_rel node_frame m m' /\ StronglySorted (desc sim q) best'.
Proof.
  induction lvls as [|lvl lvls IH]; intros m best beam Hc Hs; simpl.
  - exists best, beam, m. split; [reflexivity|].
    split; [apply map_frame_refl|exact Hs].
  - destruct (searchLayer_ok sim q m beam (Nat.min ef beam_size) lvl Hc)
      as (res & m1 & E & Hfr).
    rewrite E. simpl.
    destruct (IH m1 (updateBestCandidates sim q m1 best res (Nat.max K ef))
                (getTopBeam res beam_size))
      as (best' & beam' & m' & E' & Hfr' & Hs').
    + eapply closed_frame; eauto.
    + apply updateBestCandidates_sorted. exact Hs.
    + exists best', beam', m'. split; [exact E'|].
      split; [eapply map_frame_trans; eauto|exact Hs'].
Qed.
End KNN_facts.

Lemma searchKNN_frame (h : HNSW) (q : list Q) (K : nat) (t : Q)
  (ef beam_size : nat) :
  let h' := snd (searchKNNOptimized h q K t ef beam_size) in
  same_config h h' /\ map_rel node_frame (nodes h) (nodes h').
Proof.
  unfold searchKNNOptimized.
  destruct (decide (entryPointId h = ""));
    [split; [repeat split|apply map_frame_refl]|].
  destruct (ref_get (nodes h) (entryPointId h)) as [e|];
    [|split; [repeat split|apply map_frame_refl]].
  simpl. split; [repeat split|].
  pose proof (beam_levels_frame (similarityFunction h) q K ef beam_size
                (range_down (levelMax h) 0) (nodes h) [] [e]) as H1.
  destruct (beam_levels _ _ _ _ _ _ _ _ _) as [[[best beam]| |] m1];
    simpl in *; try exact H1.
  pose proof (searchLayer_frame (similarityFunction h) q m1 beam ef 0) as H2.
  destruct (searchLayer _ _ _ _ _ _) as [[bottom| |] m2]; simpl in *;
    eapply map_frame_trans; eauto.
Qed.

(** C9 (amended).  [searchKNNOptimized] leaves [entryPointId], [levelMax],
    [d] and the rest of the configuration as they were, keeps the keys of
    the map in place, and under every key keeps the id, the level, the
    vector and the tombstone flag; at every level the adjacency list is the
    one held before, except that a level that held no list may hold the
    empty list afterwards. *)
Theorem C9_search_leaves_graph
  (h : HNSW) (q : list Q) (K : nat) (t : Q) (ef beam_size : nat) :
  let h' := snd (searchKNNOptimized h q K t ef beam_size) in
  entryPointId h' = entryPointId h /\ levelMax h' = levelMax h /\
  d h' = d h /\ M h' = M h /\ efConstruction h' = efConstruction h /\
  keys (nodes h') = keys (nodes h) /\
  forall k n, map_get (nodes h) k = Some n ->
    exists n', map_get (nodes h') k = Some n' /\
      uniqueid n' = uniqueid n /\ level n' = level n /\
      vector n' = vector n /\ deleted n' = deleted n /\
      forall l, arr_get (neighbors n') l = arr_get (neighbors n) l \/
                (arr_get (neighbors n) l = None /\
                 arr_get (neighbors n') l = Some []).
Proof.
  intros h'.
  destruct (searchKNN_frame h q K t ef beam_size)
    as [(_ & _ & Hd & HM & Hef & Hl & He & _) Hrel].
  fold h' in Hd, HM, Hef, Hl, He, Hrel.
  repeat (split; [assumption|]).
  split; [eapply map_rel_keys; eauto|].
  intros k n Hk. pose proof (map_rel_get _ _ _ k Hrel) as Hg.
  rewrite Hk in Hg. destruct (map_get (nodes h') k) as [n'|]; [|contradiction].
  destruct Hg as [(?&?&?&?) Hmat]. exists n'. repeat split; assumption.
Qed.

(** C9 (the claim as stated fails).  On the engine that holds the one node
    "a", whose [neighbors] array is empty, a search returns and leaves the
    empty list at level 0 of "a", where no list was. *)
Lemma C9_search_writes_adjacency :
  let r := searchKNNOptimized e16A [1; 0; 0]%Q 1 (1 # 2) 200 10 in
  map sc_uniqueid (match fst r with Ret res => res | _ => [] end) = ["a"] /\
  get_nb (nodes e16A) "a" 0 = None /\
  get_nb (nodes (snd r)) "a" 0 = Some [] /\
  nodes (snd r) <> nodes e16A.
Proof.
  repeat (split; [vm_compute; reflexivity|]).
  intros H. apply (f_equal (fun m => get_nb m "a" 0)) in H.
  vm_compute in H. discriminate H.
Qed.

Lemma take_length_le {A} (n : nat) (l : list A) : length (take n l) <= n.
Proof. rewrite length_take. lia. Qed.

(** C3.  On a well-formed engine [searchKNNOptimized] returns; the result
    has at most K entries, every entry carries the score of its vector
    against the query, a score above the threshold, and no tombstone, and
    the scores are in descending order. *)
Theorem C3_searchKNN_result
  (h : HNSW) (q : list Q) (K : nat) (t : Q) (ef beam_size : nat) :
  wf h ->
  exists res h',
    searchKNNOptimized h q K t ef beam_size = (Ret res, h') /\
    length res <= K /\
    Forall (fun c => score c = similarityFunction h q (sc_vector c) /\
                     (t < score c)%Q /\ sc_deleted c = false) res /\
    StronglySorted (fun a b => (score b <= score a)%Q) res.
Proof.
  intros (Hc & _ & He). unfold searchKNNOptimized.
  destruct (decide (entryPointId h = "")) as [E|E].
  { exists [], h. split; [reflexivity|]. split; [simpl; lia|].
    split; constructor. }
  destruct He as [He|He]; [contradiction|].
  destruct (ref_get_is_Some _ _ He) as [e Hre]. rewrite Hre.
  set (sim := similarityFunction h).
  destruct (beam_levels_ok sim q K ef beam_size (range_down (levelMax h) 0)
              (nodes h) [] [e] Hc) as (best & beam & m1 & E1 & Hfr1 & Hs1);
    [constructor|].
  rewrite E1. simpl.
  destruct (searchLayer_ok sim q m1 beam ef 0) as (bottom & m2 & E2 & Hfr2);
    [eapply closed_frame; eauto|].
  rewrite E2. simpl. unfold lift_nodes. simpl.
  eexists _, _. split; [reflexivity|].
  set (scored := filter _ _).
  assert (Hall : Forall (fun c => score c = sim q (sc_vector c) /\
                                  (t < score c)%Q /\ sc_deleted c = false) scored).
  { apply Forall_forall. intros c Hin. unfold scored in Hin.
    apply list_elem_of_filter in Hin as [[Hlt Hdel] Hin].
    apply list_elem_of_In, in_map_iff in Hin as (r & <- & _).
    split; [reflexivity|]. split; [|exact Hdel].
    apply Qltb_lt. exact Hlt. }
  assert (Hsorted : StronglySorted (fun a b => (score b <= score a)%Q) scored).
  { unfold scored. apply StronglySorted_filter. apply StronglySorted_map.
    simpl. apply (updateBestCandidates_sorted sim q m2 best bottom). exact Hs1. }
  destruct (K <? length scored)%nat eqn:EK.
  - split; [apply take_length_le|]. split.
    + apply Forall_take. exact Hall.
    + rewrite <- (take_drop K scored) in Hsorted.
      eapply StronglySorted_app_1_l. exact Hsorted.
  - apply Nat.ltb_ge in EK. split; [exact EK|]. split; assumption.
Qed.

Lemma C3_searchKNN_result_witness :
  wf e2ABCD /\
  exists res h',
    searchKNNOptimized e2ABCD [3]%Q 2 (1 # 4) 10 10 = (Ret res, h') /\
    length res <= 2.
Proof.
  assert (Hwf : wf e2ABCD).
  { apply (bool_decide_unpack _). vm_compute. reflexivity. }
  split; [exact Hwf|].
  destruct (C3_searchKNN_result e2ABCD [3]%Q 2 (1 # 4) 10 10 Hwf)
    as (res & h' & E & Hlen & _).
  exists res, h'. split; [exact E|exact Hlen].
Defined.

(** ** Linking and shrinking *)

Lemma get_nb_set_nb_cases (m : NodeMap) (k k' : string) (lvl lvl' : Z)
  (l : list string) :
  get_nb (set_nb m k lvl l) k' lvl' = get_nb m k' lvl' \/
  (k' = k /\ lvl' = lvl /\ get_nb (set_nb m k lvl l) k' lvl' = Some l).
Proof.
  destruct (decide (k = k')) as [->|Hk];
    [|left; apply get_nb_set_nb_ne; left; exact Hk].
  destruct (decide (lvl = lvl')) as [->|Hl];
    [|left; apply get_nb_set_nb_ne; right; exact Hl].
  destruct (get_nb_set_nb m k' k' lvl' lvl' l) as [E|E]; [left|right]; auto.
Qed.

Lemma nb_list_set_nb_eq (m : NodeMap) (k : string) (lvl : Z) (l : list string) :
  k ∈ keys m -> (0 <= lvl)%Z -> nb_list (set_nb m k lvl l) k lvl = l.
Proof.
  intros Hk Hl. unfold nb_list. rewrite get_nb_set_nb_eq by assumption.
  reflexivity.
Qed.

Lemma push_same (m : NodeMap) (k : string) (lvl : Z) (x : string) :
  map_rel node_same m (push_unless_included m k lvl x).
Proof.
  unfold push_unless_included. destruct (includes _ _);
    [apply map_same_refl|apply set_nb_same].
Qed.

Lemma keys_push (m : NodeMap) (k : string) (lvl : Z) (x : string) :
  keys (push_unless_included m k lvl x) = keys m.
Proof. apply (map_rel_keys _ _ _ (push_same m k lvl x)). Qed.

Lemma push_def_mono (m : NodeMap) (k : string) (lvl : Z) (x : string) :
  def_mono m (push_unless_included m k lvl x).
Proof.
  unfold push_unless_included. destruct (includes _ _);
    [apply def_mono_refl|apply set_nb_def_mono].
Qed.

Lemma push_closed (m : NodeMap) (k : string) (lvl : Z) (x : string) :
  closed m -> x ∈ keys m -> closed (push_unless_included m k lvl x).
Proof.
  intros Hc Hx. unfold push_unless_included. destruct (includes _ _);
    [exact Hc|].
  apply closed_set_nb; [exact Hc|]. apply Forall_app. split.
  - apply closed_nb_list. exact Hc.
  - constructor; [exact Hx|constructor].
Qed.

Lemma push_included (m : NodeMap) (k : string) (lvl : Z) (x : string) :
  k ∈ keys m -> (0 <= lvl)%Z ->
  x ∈ nb_list (push_unless_included m k lvl x) k lvl.
Proof.
  intros Hk Hl. unfold push_unless_included, includes.
  destruct (bool_decide_reflect (x ∈ nb_list m k lvl)) as [H|H]; [exact H|].
  rewrite nb_list_set_nb_eq by assumption. apply elem_of_app. right. left.
Qed.

Lemma push_keeps (m : NodeMap) (k k' : string) (lvl lvl' : Z) (x y : string) :
  y ∈ nb_list m k' lvl' -> y ∈ nb_list (push_unless_included m k lvl x) k' lvl'.
Proof.
  intros Hy. unfold push_unless_included. destruct (includes _ _); [exact Hy|].
  unfold nb_list at 1.
  destruct (get_nb_set_nb_cases m k k' lvl lvl' (nb_list m k lvl ++ [x]))
    as [E|(-> & -> & E)]; rewrite E; [exact Hy|].
  simpl. apply elem_of_app. left. exact Hy.
Qed.

Lemma non_empty_ids_Forall (P : string -> Prop) (l : list string) :
  Forall P l -> Forall P (non_empty_ids l).
Proof.
  intros H. unfold non_empty_ids. apply Forall_forall. intros y Hy.
  apply list_elem_of_filter in Hy as [_ Hy]. rewrite Forall_forall in H. auto.
Qed.

Lemma link_spec (m : NodeMap) (a b : Ref) (lvl : Z) :
  closed m -> uid a ∈ keys m -> uid b ∈ keys m ->
  let m' := addBidirectionalConnections m a b lvl in
  closed m' /\ map_rel node_same m m' /\ def_mono m m' /\
  (ref_key b ∈ keys m -> (0 <= lvl)%Z -> is_Some (get_nb m' (ref_key b) lvl)).
Proof.
  intros Hc Ha Hb. unfold addBidirectionalConnections.
  set (m1 := init_nb m (ref_key a) lvl).
  set (m2 := init_nb m1 (ref_key b) lvl).
  set (m3 := set_nb m2 (ref_key a) lvl _).
  set (m4 := set_nb m3 (ref_key b) lvl _).
  set (m5 := push_unless_included m4 (ref_key a) lvl (uid b)).
  assert (K1 : keys m1 = keys m) by apply keys_init_nb.
  assert (K2 : keys m2 = keys m) by (unfold m2; rewrite keys_init_nb; exact K1).
  assert (K3 : keys m3 = keys m) by (unfold m3; rewrite keys_set_nb; exact K2).
  assert (K4 : keys m4 = keys m) by (unfold m4; rewrite keys_set_nb; exact K3).
  assert (K5 : keys m5 = keys m).
  { unfold m5. rewrite keys_push. exact K4. }
  assert (C1 : closed m1) by (apply closed_init_nb; exact Hc).
  assert (C2 : closed m2) by (apply closed_init_nb; exact C1).
  assert (C3 : closed m3).
  { apply closed_set_nb; [exact C2|]. apply non_empty_ids_Forall.
    apply closed_nb_list. exact C2. }
  assert (C4 : closed m4).
  { apply closed_set_nb; [exact C3|]. apply non_empty_ids_Forall.
    apply closed_nb_list. exact C3. }
  assert (C5 : closed m5) by (apply push_closed; [exact C4|rewrite K4; exact Hb]).
  simpl. split; [apply push_closed; [exact C5|rewrite K5; exact Ha]|].
  split.
  { eapply map_same_trans; [apply init_nb_same|].
    eapply map_same_trans; [apply init_nb_same|].
    eapply map_same_trans; [apply set_nb_same|].
    eapply map_same_trans; [apply set_nb_same|].
    eapply map_same_trans; apply push_same. }
  assert (D : def_mono m (push_unless_included m5 (ref_key b) lvl (uid a))).
  { eapply def_mono_trans; [apply init_nb_def_mono|].
    eapply def_mono_trans; [apply init_nb_def_mono|].
    eapply def_mono_trans; [apply set_nb_def_mono|].
    eapply def_mono_trans; [apply set_nb_def_mono|].
    eapply def_mono_trans; apply push_def_mono. }
  split; [exact D|].
  intros Hkb Hl.
  assert (D2 : def_mono m2 (push_unless_included m5 (ref_key b) lvl (uid a))).
  { eapply def_mono_trans; [apply set_nb_def_mono|].
    eapply def_mono_trans; [apply set_nb_def_mono|].
    eapply def_mono_trans; apply push_def_mono. }
  apply D2. apply init_nb_defined; [rewrite K1; exact Hkb|exact Hl].
Qed.

Lemma link_both (m : NodeMap) (a b : Ref) (lvl : Z) :
  ref_key a ∈ keys m -> ref_key b ∈ keys m -> (0 <= lvl)%Z ->
  let m' := addBidirectionalConnections m a b lvl in
  uid b ∈ nb_list m' (ref_key a) lvl /\ uid a ∈ nb_list m' (ref_key b) lvl.
Proof.
  intros Ha Hb Hl. unfold addBidirectionalConnections.
  set (m1 := init_nb m (ref_key a) lvl).
  set (m2 := init_nb m1 (ref_key b) lvl).
  set (m3 := set_nb m2 (ref_key a) lvl _).
  set (m4 := set_nb m3 (ref_key b) lvl _).
  set (m5 := push_unless_included m4 (ref_key a) lvl (uid b)).
  assert (K4 : keys m4 = keys m).
  { unfold m4, m3, m2, m1.
    rewrite !keys_set_nb, !keys_init_nb. reflexivity. }
  assert (K5 : keys m5 = keys m).
  { unfold m5. rewrite keys_push. exact K4. }
  simpl. split.
  - apply push_keeps. apply push_included; [rewrite K4; exact Ha|exact Hl].
  - apply push_included; [rewrite K5; exact Hb|exact Hl].
Qed.

Lemma selectNeighbors_elem {T} (l : list T) (n : nat) (x : T) :
  x ∈ selectNeighbors l n -> x ∈ l.
Proof.
  unfold selectNeighbors. destruct (length l <=? n)%nat; [auto|].
  apply subseteq_take.
Qed.

Lemma shrink_spec (sim : Similarity) (maxM : nat) (m : NodeMap) (node : Ref)
  (lvl : Z) :
  closed m -> ids_ok m -> is_Some (get_nb m (ref_key node) lvl) ->
  exists m', shrinkConnectionsIfNeeded sim maxM m node lvl = (Ret tt, m') /\
    closed m' /\ map_rel node_same m m' /\ def_mono m m'.
Proof.
  intros Hc Hi [nbs Hn]. unfold shrinkConnectionsIfNeeded. rewrite Hn.
  destruct (maxM <? length nbs)%nat.
  2:{ exists m. split; [reflexivity|]. split; [exact Hc|].
      split; [apply map_same_refl|apply def_mono_refl]. }
  assert (Hgen : forall ids acc,
    Forall (fun r => uid r ∈ keys m) acc ->
    Forall (fun r => uid r ∈ keys m)
      (fold_left (fun pq neighborId =>
                    match ref_get m neighborId with
                    | Some r => pq_push (cmp sim (vector (ref_obj node))) r pq
                    | None => pq
                    end) ids acc)).
  { induction ids as [|nid ids IH]; intros acc Hacc; simpl; [exact Hacc|].
    apply IH. destruct (ref_get m nid) as [r'|] eqn:E; [|exact Hacc].
    apply Forall_forall. intros z Hz. apply elem_of_pq_push in Hz as [->|Hz].
    - destruct (ref_get_uid m nid r' Hi E) as [_ ->].
      apply (ref_get_key m nid r' E).
    - rewrite Forall_forall in Hacc. auto. }
  eexists. split; [reflexivity|].
  split; [|split; [apply set_nb_same|apply set_nb_def_mono]].
  apply closed_set_nb; [exact Hc|].
  apply Forall_forall. intros y Hy.
  apply list_elem_of_In, in_map_iff in Hy as (r & <- & Hr).
  apply list_elem_of_In, selectNeighbors_elem in Hr.
  specialize (Hgen nbs [] (Forall_nil_2 _)). rewrite Forall_forall in Hgen.
  exact (Hgen r Hr).
Qed.

Lemma link_all_spec (node : Ref) (lvl : Z) (closest : list Ref) :
  forall m, closed m -> ids_ok m -> uid node ∈ keys m ->
  let m' := link_all m node closest lvl in
  closed m' /\ map_rel node_same m m' /\ def_mono m m' /\
  ((0 <= lvl)%Z -> forall c, c ∈ closest -> uid c ∈ keys m ->
     is_Some (get_nb m' (uid c) lvl)).
Proof.
  induction closest as [|c closest IH]; intros m Hc Hi Hn; simpl.
  - split; [exact Hc|]. split; [apply map_same_refl|].
    split; [apply def_mono_refl|]. intros _ c Hin. inversion Hin.
  - destruct (ref_get m (uid c)) as [nb|] eqn:E.
    + destruct (ref_get_uid m _ _ Hi E) as [Hk Hu].
      destruct (ref_get_key m _ _ E) as [_ Hin].
      destruct (link_spec m node nb lvl Hc Hn) as (C1 & S1 & D1 & Def1);
        [rewrite Hu; exact Hin|].
      set (m1 := addBidirectionalConnections m node nb lvl) in *.
      assert (K1 : keys m1 = keys m) by (eapply map_rel_keys; eauto).
      destruct (IH m1 C1 (ids_ok_same _ _ Hi S1)) as (C2 & S2 & D2 & Def2);
        [rewrite K1; exact Hn|].
      split; [exact C2|]. split; [eapply map_same_trans; eauto|].
      split; [eapply def_mono_trans; eauto|].
      intros Hl c' Hc' Hk'. apply elem_of_cons in Hc' as [->|Hc'].
      * apply D2. rewrite <- Hk. apply Def1; [rewrite Hk; exact Hin|exact Hl].
      * apply Def2; [exact Hl|exact Hc'|rewrite K1; exact Hk'].
    + destruct (IH m Hc Hi Hn) as (C2 & S2 & D2 & Def2).
      split; [exact C2|]. split; [exact S2|]. split; [exact D2|].
      intros Hl c' Hc' Hk'. apply elem_of_cons in Hc' as [->|Hc'].
      * apply ref_get_None in E. contradiction.
      * apply Def2; assumption.
Qed.

Lemma shrink_all_spec (sim : Similarity) (maxM : nat) (lvl : Z)
  (closest : list Ref) :
  forall m, closed m -> ids_ok m ->
  (forall c, c ∈ closest -> uid c ∈ keys m -> is_Some (get_nb m (uid c) lvl)) ->
  exists m', shrink_all sim maxM m closest lvl = (Ret tt, m') /\
    closed m' /\ map_rel node_same m m' /\ def_mono m m'.
Proof.
  induction closest as [|c closest IH]; intros m Hc Hi Hdef; simpl.
  - exists m. split; [reflexivity|]. split; [exact Hc|].
    split; [apply map_same_refl|apply def_mono_refl].
  - destruct (ref_get m (uid c)) as [nb|] eqn:E.
    + destruct (ref_get_key m _ _ E) as [Hk Hin].
      destruct (shrink_spec sim maxM m nb lvl Hc Hi) as (m1 & E1 & C1 & S1 & D1).
      { rewrite Hk. apply Hdef; [left|exact Hin]. }
      rewrite E1. simpl.
      assert (K1 : keys m1 = keys m) by (eapply map_rel_keys; eauto).
      destruct (IH m1 C1 (ids_ok_same _ _ Hi S1)) as (m2 & E2 & C2 & S2 & D2).
      { intros c' Hc' Hk'. apply D1. apply Hdef; [right; exact Hc'|].
        rewrite <- K1. exact Hk'. }
      exists m2. split; [exact E2|]. split; [exact C2|].
      split; [eapply map_same_trans; eauto|eapply def_mono_trans; eauto].
    + apply IH; [exact Hc|exact Hi|].
      intros c' Hc' Hk'. apply Hdef; [right; exact Hc'|exact Hk'].
Qed.

Lemma descend_spec (sim : Similarity) (q : list Q) (lvls : list Z) :
  forall m eps, closed m ->
  exists eps' m', descend sim q lvls m eps = (Ret eps', m') /\
    map_rel node_frame m m'.
Proof.
  induction lvls as [|i lvls IH]; intros m eps Hc; simpl.
  - exists eps, m. split; [reflexivity|apply map_frame_refl].
  - destruct (searchLayer_ok sim q m eps 1 i Hc) as (res & m1 & E & Hfr).
    rewrite E. simpl.
    edestruct IH as (eps' & m' & E' & Hfr'); [eapply closed_frame; eauto|].
    exists eps', m'. split; [exact E'|eapply map_frame_trans; eauto].
Qed.

Lemma connect_spec (sim : Similarity) (maxM ef : nat) (node : Ref)
  (lvls : list Z) :
  forall m eps, closed m -> ids_ok m -> uid node ∈ keys m ->
  Forall (fun l => (0 <= l)%Z) lvls ->
  exists m', connect sim maxM ef node lvls m eps = (Ret tt, m') /\
    closed m' /\ map_rel node_same m m'.
Proof.
  induction lvls as [|i lvls IH]; intros m eps Hc Hi Hn Hl; simpl.
  - exists m. split; [reflexivity|]. split; [exact Hc|apply map_same_refl].
  - inversion Hl as [|? ? Hi0 Hl']; subst.
    destruct (searchLayer_ok sim (vector (ref_obj node)) m eps ef i Hc)
      as (res & m1 & E & Hfr).
    rewrite E. simpl.
    assert (C1 : closed m1) by (eapply closed_frame; eauto).
    assert (S1 : map_rel node_same m m1) by (apply map_frame_same; exact Hfr).
    assert (I1 : ids_ok m1) by (eapply ids_ok_same; eauto).
    assert (K1 : keys m1 = keys m) by (eapply map_rel_keys; eauto).
    destruct (link_all_spec node i (selectNeighbors res maxM) m1 C1 I1)
      as (C2 & S2 & D2 & Def2); [rewrite K1; exact Hn|].
    set (m2 := link_all m1 node (selectNeighbors res maxM) i) in *.
    assert (K2 : keys m2 = keys m1) by (eapply map_rel_keys; eauto).
    destruct (shrink_all_spec sim maxM i (selectNeighbors res maxM) m2 C2
                (ids_ok_same _ _ I1 S2)) as (m3 & E3 & C3 & S3 & _).
    { intros c Hc' Hk. apply Def2; [exact Hi0|exact Hc'|].
      rewrite <- K2. exact Hk. }
    rewrite E3. simpl.
    assert (S13 : map_rel node_same m m3).
    { eapply map_same_trans; [exact S1|].
      eapply map_same_trans; [exact S2|exact S3]. }
    destruct (IH m3 res C3 (ids_ok_same _ _ Hi S13)) as (m' & E' & C' & S');
      [rewrite (map_rel_keys _ _ _ S13); exact Hn|exact Hl'|].
    exists m'. split; [exact E'|]. split; [exact C'|].
    eapply map_same_trans; eauto.
Qed.

Lemma range_down_nonneg (hi : Z) : Forall (fun l => (0 <= l)%Z) (range_down hi 0).
Proof.
  unfold range_down. apply Forall_forall. intros l Hl.
  apply list_elem_of_In, in_map_iff in Hl as (k & <- & Hk).
  apply in_seq in Hk. lia.
Qed.

(** ** Insertion *)

Lemma addNode_spec (h : HNSW) (node : Ref) (lvl : Z) :
  closed (nodes h) -> ids_ok (nodes h) -> uid node ∈ keys (nodes h) ->
  exists h', addNodeToGraphOptimized h node lvl = (Ret tt, h') /\
    closed (nodes h') /\ map_rel node_same (nodes h) (nodes h') /\
    (entryPointId h' = uid node \/
     (entryPointId h <> "" /\ entryPointId h' = entryPointId h)).
Proof.
  intros Hc Hi Hn. unfold addNodeToGraphOptimized.
  destruct (decide (entryPointId h = "")) as [E|E].
  { eexists. split; [reflexivity|]. simpl. split; [exact Hc|].
    split; [apply map_same_refl|left; reflexivity]. }
  set (eps := match ref_get (nodes h) (entryPointId h) with
              | Some e => [e] | None => [] end).
  destruct (descend_spec (similarityFunction h) (vector (ref_obj node))
              (range_down (levelMax h) (lvl + 1)) (nodes h) eps Hc)
    as (eps1 & m1 & E1 & Hfr1).
  rewrite E1. simpl.
  assert (S1 : map_rel node_same (nodes h) m1) by (apply map_frame_same; auto).
  destruct (connect_spec (similarityFunction h) (M h) (efConstruction h) node
              (range_down (Z.min (levelMax h) lvl) 0) m1 eps1)
    as (m2 & E2 & C2 & S2).
  - eapply closed_frame; eauto.
  - eapply ids_ok_same; eauto.
  - rewrite (map_rel_keys _ _ _ S1). exact Hn.
  - apply range_down_nonneg.
  - rewrite E2. simpl. eexists. split; [reflexivity|].
    assert (S : map_rel node_same (nodes h) m2)
      by (eapply map_same_trans; eauto).
    destruct (levelMax h <? lvl)%Z; simpl.
    + split; [exact C2|]. split; [exact S|left; reflexivity].
    + split; [exact C2|]. split; [exact S|right; split; [exact E|reflexivity]].
Qed.

Lemma addPoint_spec (h : HNSW) (id : string) (v : list Q) (r : Q) :
  wf h -> v <> [] -> (forall n, d h = Some n -> length v = n) ->
  let fresh := new_AstroNode id v (selectLevel (probs h) r) in
  exists h', addPoint h id v r = (Ret tt, h') /\ wf h' /\
    map_rel node_same (map_set (nodes h) id fresh) (nodes h').
Proof.
  intros (Hc & Hi & He) Hv Hd fresh. unfold addPoint.
  destruct (decide (length v = 0)) as [E|_];
    [destruct v; [congruence|discriminate]|].
  assert (Hdim : match d h with
                 | Some n => negb (length v =? n)%nat
                 | None => false
                 end = false).
  { destruct (d h) as [n|] eqn:En; [|reflexivity].
    rewrite (Hd n eq_refl), Nat.eqb_refl. reflexivity. }
  rewrite Hdim. simpl.
  set (h1 := set_levelMax _ _).
  destruct (addNode_spec h1
              (mkRef id (new_AstroNode id v (selectLevel (probs h) r)))
              (selectLevel (probs h) r)) as (h' & E' & C' & S' & He').
  - simpl. apply closed_map_set_new. exact Hc.
  - simpl. apply ids_ok_map_set_new. exact Hi.
  - simpl. apply key_in_map_set.
  - exists h'. split; [exact E'|]. split; [|exact S'].
    split; [exact C'|]. split.
    + eapply ids_ok_same; [|exact S']. simpl.
      apply ids_ok_map_set_new. exact Hi.
    + unfold entry_ok. rewrite (map_rel_keys _ _ _ S'). simpl.
      destruct He' as [->|[Hne ->]].
      * right. apply key_in_map_set.
      * simpl. destruct He as [He|He]; [contradiction|].
        right. apply keys_map_set_incl. exact He.
Qed.

Lemma addPoint_wf (h : HNSW) (id : string) (v : list Q) (r : Q) :
  wf h -> wf (snd (addPoint h id v r)).
Proof.
  intros Hwf.
  destruct (decide (v = [])) as [->|Hv]; [exact Hwf|].
  destruct (d h) as [n|] eqn:En.
  - destruct (decide (length v = n)) as [El|El].
    + destruct (addPoint_spec h id v r Hwf Hv) as (h' & E & Hwf' & _).
      * intros n' Hn'. congruence.
      * rewrite E. exact Hwf'.
    + rewrite (addPoint_rejects_dimension h id v r n En Hv El).
      exact Hwf.
  - destruct (addPoint_spec h id v r Hwf Hv) as (h' & E & Hwf' & _).
    + intros n' Hn'. congruence.
    + rewrite E. exact Hwf'.
Qed.

(** ** The invariant over the operations *)

Lemma tombstone_wf (h : HNSW) (id : string) :
  wf h ->
  wf (set_nodes h (map_modify (nodes h) id (fun n => set_deleted n true))).
Proof.
  intros (Hc & Hi & He). split; [apply closed_set_deleted; exact Hc|].
  split; [apply ids_ok_set_deleted; exact Hi|].
  unfold entry_ok. simpl. rewrite keys_map_modify. exact He.
Qed.

Lemma removePoint_wf (h : HNSW) (id : string) : wf h -> wf (removePoint h id).
Proof.
  intros Hwf. unfold removePoint. destruct (map_get (nodes h) id);
    [apply tombstone_wf; exact Hwf|exact Hwf].
Qed.

Lemma updatePoint_wf (h : HNSW) (id : string) (v : list Q) (r : Q) :
  wf h -> wf (snd (updatePoint h id v r)).
Proof.
  intros Hwf. unfold updatePoint. destruct (map_get (nodes h) id).
  - apply addPoint_wf, tombstone_wf. exact Hwf.
  - apply addPoint_wf. exact Hwf.
Qed.

Lemma addPoints_wf (data : list (string * list Q)) (rnd : nat -> Q) :
  forall h i, wf h -> wf (snd (addPoints h data rnd i)).
Proof.
  induction data as [|[id v] data IH]; intros h i Hwf; simpl; [exact Hwf|].
  pose proof (addPoint_wf h id v (rnd i) Hwf) as H1.
  destruct (addPoint h id v (rnd i)) as [[[]| |] h1]; simpl in *;
    [apply IH; exact H1|exact H1|exact H1].
Qed.

Lemma empty_wf (h : HNSW) : nodes h = [] -> entryPointId h = "" -> wf h.
Proof.
  intros Hn He. unfold wf, closed, ids_ok, entry_ok. rewrite Hn.
  split; [constructor|]. split; [constructor|left; exact He].
Qed.

Lemma buildIndex_wf (h : HNSW) (data : list (string * list Q)) (rnd : nat -> Q) :
  wf (snd (buildIndex h data rnd)).
Proof.
  unfold buildIndex. apply addPoints_wf. apply empty_wf; reflexivity.
Qed.

Lemma processNode_wf (oldNodes : list AstroNode) (rnd : nat -> Q) :
  forall h i, wf h -> wf (snd (processNode h oldNodes rnd i)).
Proof.
  induction oldNodes as [|n oldNodes IH]; intros h i Hwf; simpl; [exact Hwf|].
  destruct (rebuild_keeps n).
  - pose proof (addPoint_wf h (uniqueid n) (vector n) (rnd i) Hwf) as H1.
    destruct (addPoint h (uniqueid n) (vector n) (rnd i)) as [[[]| |] h1];
      simpl in *; [apply IH; exact H1|exact H1|exact H1].
  - simpl. apply IH. exact Hwf.
Qed.

Lemma rebuildGraphNodes_wf (h : HNSW) (rnd : nat -> Q) :
  wf (snd (rebuildGraphNodes h rnd)).
Proof.
  unfold rebuildGraphNodes. apply processNode_wf. apply empty_wf; reflexivity.
Qed.

Lemma searchKNN_wf (h : HNSW) (q : list Q) (K : nat) (t : Q)
  (ef beam_size : nat) :
  wf h -> wf (snd (searchKNNOptimized h q K t ef beam_size)).
Proof.
  intros (Hc & Hi & He).
  destruct (searchKNN_frame h q K t ef beam_size)
    as [(_ & _ & _ & _ & _ & _ & Hep & _) Hrel].
  split; [eapply closed_frame; eauto|].
  split; [eapply ids_ok_same; [exact Hi|apply map_frame_same; exact Hrel]|].
  unfold entry_ok. rewrite (map_rel_keys _ _ _ Hrel), Hep. exact He.
Qed.

Lemma run_op_wf (o : op) (h : HNSW) : wf h -> wf (run_op o h).
Proof.
  intros Hwf. destruct o; simpl.
  - apply addPoint_wf. exact Hwf.
  - apply removePoint_wf. exact Hwf.
  - apply updatePoint_wf. exact Hwf.
  - apply buildIndex_wf.
  - apply rebuildGraphNodes_wf.
  - apply searchKNN_wf. exact Hwf.
Qed.

Lemma reachable_wf (h : HNSW) : reachable h -> wf h.
Proof.
  induction 1 as [h Hn He|h o _ IH]; [apply empty_wf; assumption|].
  apply run_op_wf. exact IH.
Qed.

(** C2 (amended).  In every reachable state every id held in an adjacency
    list is a key of the map; and linking two stored nodes at a level puts
    each in the other's list at that level.  (The reverse edge is not kept
    when a later shrink drops it from one side.) *)
Theorem C2_adjacency_closed_and_linked (h : HNSW) :
  reachable h ->
  (forall x l nbs y,
     get_nb (nodes h) x l = Some nbs -> y ∈ nbs -> y ∈ keys (nodes h)) /\
  (forall x y a b l,
     ref_get (nodes h) x = Some a -> ref_get (nodes h) y = Some b ->
     (0 <= l)%Z ->
     let m' := addBidirectionalConnections (nodes h) a b l in
     y ∈ nb_list m' x l /\ x ∈ nb_list m' y l).
Proof.
  intros Hr. destruct (reachable_wf h Hr) as (Hc & Hi & _). split.
  - intros x l nbs y Hg Hy.
    pose proof (closed_get_nb _ _ _ _ Hc Hg) as H.
    rewrite Forall_forall in H. auto.
  - intros x y a b l Ha Hb Hl.
    destruct (ref_get_uid _ _ _ Hi Ha) as [Hka Hua].
    destruct (ref_get_uid _ _ _ Hi Hb) as [Hkb Hub].
    destruct (ref_get_key _ _ _ Ha) as [_ Hxa].
    destruct (ref_get_key _ _ _ Hb) as [_ Hyb].
    destruct (link_both (nodes h) a b l) as [H1 H2];
      [rewrite Hka; exact Hxa|rewrite Hkb; exact Hyb|exact Hl|].
    rewrite Hka, Hkb, Hua, Hub in *. split; assumption.
Qed.

Lemma C2_adjacency_closed_and_linked_witness :
  reachable e2ABCD /\
  (forall x l nbs y,
     get_nb (nodes e2ABCD) x l = Some nbs -> y ∈ nbs ->
     y ∈ keys (nodes e2ABCD)).
Proof.
  assert (Hr : reachable e2ABCD).
  { apply (reach_op e2ABC (OpAdd "d" [3]%Q 0)).
    apply (reach_op e2AB (OpAdd "c" [2]%Q 0)).
    apply (reach_op e2A (OpAdd "b" [1]%Q 0)).
    apply (reach_op e2 (OpAdd "a" [0]%Q 0)).
    apply reach_new; reflexivity. }
  split; [exact Hr|].
  exact (proj1 (C2_adjacency_closed_and_linked e2ABCD Hr)).
Defined.

(** C2 (the claim as stated fails).  With M = 2, inserting "d" after "a",
    "b", "c" links "d" to "c" and "b" and shrinks each of them to two
    neighbours: "c" drops "a".  In the state reached, "a" is live and lists
    "c" at level 0, and "c" does not list "a". *)
Lemma C2_shrink_breaks_symmetry :
  fst (addPoint e2ABC "d" [3]%Q 0) = Ret tt /\
  nb_list (nodes e2ABC) "c" 0 = ["b"; "a"] /\
  nb_list (nodes e2ABCD) "a" 0 = ["b"; "c"] /\
  nb_list (nodes e2ABCD) "c" 0 = ["d"; "b"] /\
  ~ symmetric_adjacency e2ABCD.
Proof.
  repeat (split; [vm_compute; reflexivity|]).
  intros Hsym.
  destruct (map_get (nodes e2ABCD) "a") as [n|] eqn:E;
    [|vm_compute in E; discriminate E].
  assert (Hd : deleted n = false).
  { vm_compute in E. injection E as <-. reflexivity. }
  assert (Hl : (0 <= level n)%Z).
  { vm_compute in E. injection E as <-. simpl. lia. }
  assert (Hg : arr_get (neighbors n) 0 = Some ["b"; "c"]).
  { vm_compute in E. injection E as <-. reflexivity. }
  destruct (Hsym "a" n E Hd 0%Z ["b"; "c"] Hl Hg "c") as [_ Hback].
  - right. left.
  - assert (Hc : nb_list (nodes e2ABCD) "c" 0 = ["d"; "b"])
      by (vm_compute; reflexivity).
    rewrite Hc in Hback.
    apply (bool_decide_pack _) in Hback. vm_compute in Hback.
    exact Hback.
Qed.

(** C10.  On a well-formed engine, [addPoint] on an id already in the map,
    with a non-empty vector of the stored dimension, returns.  It first
    stores under the id a new record with the drawn level, no adjacency
    list and no tombstone, then links it; in the end the map has the same
    keys, the id resolves to the new record (the drawn level, the new
    vector, no tombstone), so every adjacency list that names the id now
    names that record, and the other records keep their id, level, vector
    and tombstone flag. *)
Theorem C10_addPoint_existing_id
  (h : HNSW) (id : string) (v : list Q) (r : Q) :
  wf h -> id ∈ keys (nodes h) -> v <> [] -> d h = Some (length v) ->
  let lvl := selectLevel (probs h) r in
  let fresh := new_AstroNode id v lvl in
  let stored :=
    set_levelMax
      (set_nodes (set_d h (Some (length v))) (map_set (nodes h) id fresh))
      (Z.max (levelMax h) lvl) in
  exists h',
    addPoint h id v r = (Ret tt, h') /\
    addPoint h id v r = addNodeToGraphOptimized stored (mkRef id fresh) lvl /\
    map_get (nodes stored) id = Some fresh /\
    neighbors fresh = [] /\ deleted fresh = false /\
    keys (nodes stored) = keys (nodes h) /\
    keys (nodes h') = keys (nodes h) /\
    length (nodes h') = length (nodes h) /\
    (exists n', map_get (nodes h') id = Some n' /\ uniqueid n' = id /\
                level n' = lvl /\ vector n' = v /\ deleted n' = false) /\
    (forall k n, k <> id -> map_get (nodes h) k = Some n ->
       exists n', map_get (nodes h') k = Some n' /\ node_same n n').
Proof.
  intros Hwf Hid Hv Hd lvl fresh stored.
  destruct (addPoint_spec h id v r Hwf Hv) as (h' & E & _ & S).
  { intros n Hn. congruence. }
  fold lvl fresh in S.
  assert (Hk : keys (nodes h') = keys (nodes h)).
  { rewrite (map_rel_keys _ _ _ S). apply keys_map_set_in. exact Hid. }
  exists h'. split; [exact E|]. split.
  { unfold addPoint.
    destruct (decide (length v = 0)) as [E0|_];
      [destruct v; [congruence|discriminate]|].
    rewrite Hd, Nat.eqb_refl. reflexivity. }
  split.
  { simpl. rewrite map_get_map_set. destruct (decide (id = id)); congruence. }
  split; [reflexivity|]. split; [reflexivity|].
  split; [simpl; apply keys_map_set_in; exact Hid|].
  split; [exact Hk|]. split.
  { apply (f_equal length) in Hk. unfold keys in Hk.
    rewrite !length_map in Hk. exact Hk. }
  split.
  - pose proof (map_rel_get _ _ _ id S) as Hg. rewrite map_get_map_set in Hg.
    destruct (decide (id = id)); [|congruence].
    destruct (map_get (nodes h') id) as [n'|]; [|contradiction].
    destruct Hg as (Hu & Hl & Hvec & Hdel). exists n'. repeat split; assumption.
  - intros k n Hne Hn. pose proof (map_rel_get _ _ _ k S) as Hg.
    rewrite map_get_map_set in Hg.
    destruct (decide (id = k)); [congruence|]. rewrite Hn in Hg.
    destruct (map_get (nodes h') k) as [n'|]; [|contradiction].
    exists n'. split; [reflexivity|exact Hg].
Qed.

Lemma C10_addPoint_existing_id_witness :
  wf e2ABCD /\ "b" ∈ keys (nodes e2ABCD) /\ [5]%Q <> [] /\
  d e2ABCD = Some (length [5]%Q) /\
  exists h', addPoint e2ABCD "b" [5]%Q 0 = (Ret tt, h') /\
             keys (nodes h') = keys (nodes e2ABCD).
Proof.
  assert (Hwf : wf e2ABCD).
  { apply (bool_decide_unpack _). vm_compute. reflexivity. }
  assert (Hid : "b" ∈ keys (nodes e2ABCD)).
  { apply (bool_decide_unpack _). vm_compute. reflexivity. }
  assert (Hv : [5]%Q <> []) by discriminate.
  assert (Hd : d e2ABCD = Some (length [5]%Q)) by (vm_compute; reflexivity).
  split; [exact Hwf|]. split; [exact Hid|]. split; [exact Hv|].
  split; [exact Hd|].
  destruct (C10_addPoint_existing_id e2ABCD "b" [5]%Q 0 Hwf Hid Hv Hd)
    as (h' & E & _ & _ & _ & _ & _ & Hk & _).
  exists h'. split; [exact E|exact Hk].
Defined.


(** * Further properties *)

(** ** Soft delete *)

Lemma map_modify_missing (m : NodeMap) (k : string) (f : AstroNode -> AstroNode) :
  map_get m k = None -> map_modify m k f = m.
Proof.
  induction m as [|[k' n] m IH]; simpl; [reflexivity|].
  destruct (decide (k' = k)); [discriminate|].
  intros H. rewrite IH by exact H. reflexivity.
Qed.

Lemma set_nodes_id (h : HNSW) : set_nodes h (nodes h) = h.
Proof. destruct h. reflexivity. Qed.

Lemma removePoint_eq (h : HNSW) (id : string) :
  removePoint h id =
  set_nodes h (map_modify (nodes h) id (fun n => set_deleted n true)).
Proof.
  unfold removePoint. destruct (map_get (nodes h) id) eqn:E; [reflexivity|].
  rewrite map_modify_missing by exact E. symmetry. apply set_nodes_id.
Qed.

Lemma map_modify_idem (m : NodeMap) (k : string) (f : AstroNode -> AstroNode) :
  (forall n, f (f n) = f n) ->
  map_modify (map_modify m k f) k f = map_modify m k f.
Proof.
  intros Hf. induction m as [|[k' n] m IH]; simpl; [reflexivity|].
  destruct (decide (k' = k)) as [E|Hne]; [subst k'|]; simpl.
  - destruct (decide (k = k)); [|congruence]. rewrite Hf. reflexivity.
  - destruct (decide (k' = k)); [congruence|]. rewrite IH. reflexivity.
Qed.

Lemma map_modify_comm (m : NodeMap) (a b : string)
  (f : AstroNode -> AstroNode) :
  (forall n, f (f n) = f n) ->
  map_modify (map_modify m a f) b f = map_modify (map_modify m b f) a f.
Proof.
  intros Hf. induction m as [|[k n] m IH]; simpl; [reflexivity|].
  destruct (decide (k = a)) as [Ha|Ha], (decide (k = b)) as [Hb|Hb];
    try subst a; try subst b; simpl.
  - destruct (decide (k = k)); [|congruence]. rewrite Hf. reflexivity.
  - destruct (decide (k = b)); [congruence|].
    destruct (decide (k = k)); [|congruence]. reflexivity.
  - destruct (decide (k = k)); [|congruence].
    destruct (decide (k = a)); [congruence|]. reflexivity.
  - destruct (decide (k = b)); [congruence|].
    destruct (decide (k = a)); [congruence|]. rewrite IH. reflexivity.
Qed.

Lemma removePoint_idem (h : HNSW) (a : string) :
  removePoint (removePoint h a) a = removePoint h a.
Proof.
  rewrite !removePoint_eq. simpl. rewrite map_modify_idem; reflexivity.
Qed.

Lemma removePoint_comm (h : HNSW) (a b : string) :
  removePoint (removePoint h a) b = removePoint (removePoint h b) a.
Proof.
  rewrite !removePoint_eq. simpl. rewrite map_modify_comm; reflexivity.
Qed.

(** X1.  [removePoint] is idempotent and two removals commute; it keeps the
    keys, the entry point and [levelMax], and under every key the record
    it held, with the tombstone set when the key is the removed id.  On an
    id that is not stored it changes nothing. *)
Theorem X1_removePoint_tombstones_only (h : HNSW) (a b : string) :
  removePoint (removePoint h a) a = removePoint h a /\
  removePoint (removePoint h a) b = removePoint (removePoint h b) a /\
  keys (nodes (removePoint h a)) = keys (nodes h) /\
  entryPointId (removePoint h a) = entryPointId h /\
  levelMax (removePoint h a) = levelMax h /\
  (forall k, map_get (nodes (removePoint h a)) k =
             (fun n => if decide (a = k) then set_deleted n true else n)
               <$> map_get (nodes h) k) /\
  (a ∉ keys (nodes h) -> removePoint h a = h).
Proof.
  split; [apply removePoint_idem|]. split; [apply removePoint_comm|].
  rewrite removePoint_eq. simpl.
  split; [apply keys_map_modify|]. split; [reflexivity|].
  split; [reflexivity|]. split.
  - intros k. rewrite map_get_map_modify.
    destruct (decide (a = k)); [reflexivity|].
    destruct (map_get (nodes h) k); reflexivity.
  - intros Ha. apply map_get_None in Ha.
    rewrite map_modify_missing by exact Ha. apply set_nodes_id.
Qed.

Lemma removeMultiple_get (ids : list string) :
  forall h k,
    map_get (nodes (removeMultiple h ids)) k =
    (fun n => if decide (k ∈ ids) then set_deleted n true else n)
      <$> map_get (nodes h) k.
Proof.
  unfold removeMultiple.
  induction ids as [|a ids IH]; intros h k; simpl.
  - destruct (map_get (nodes h) k) as [n|]; simpl; [|reflexivity].
    destruct (decide (k ∈ [])) as [H|_]; [inversion H|reflexivity].
  - rewrite IH, removePoint_eq. simpl. rewrite map_get_map_modify.
    destruct (map_get (nodes h) k) as [n|];
      [|destruct (decide (a = k)); reflexivity].
    destruct (decide (a = k)) as [->|Hne]; simpl.
    + destruct (decide (k ∈ k :: ids)) as [_|H]; [|exfalso; apply H; left].
      destruct (decide (k ∈ ids)); reflexivity.
    + destruct (decide (k ∈ ids)) as [Hin|Hnin],
               (decide (k ∈ a :: ids)) as [Hin'|Hnin']; try reflexivity.
      * exfalso. apply Hnin'. right. exact Hin.
      * exfalso. apply elem_of_cons in Hin' as [->|Hin']; [congruence|auto].
Qed.

Lemma removeMultiple_fields (ids : list string) :
  forall h, keys (nodes (removeMultiple h ids)) = keys (nodes h) /\
            entryPointId (removeMultiple h ids) = entryPointId h.
Proof.
  unfold removeMultiple. induction ids as [|a ids IH]; intros h; simpl;
    [split; reflexivity|].
  destruct (IH (removePoint h a)) as [-> ->]. rewrite removePoint_eq. simpl.
  split; [apply keys_map_modify|reflexivity].
Qed.

(** X2.  Removing a list of ids keeps the keys and the entry point, and
    leaves under every key the record it held, tombstoned exactly when the
    key is in the list (whatever the order and the repetitions of the
    list). *)
Theorem X2_removeMultiple_tombstones_listed (h : HNSW) (ids : list string) :
  keys (nodes (removeMultiple h ids)) = keys (nodes h) /\
  entryPointId (removeMultiple h ids) = entryPointId h /\
  forall k, map_get (nodes (removeMultiple h ids)) k =
            (fun n => if decide (k ∈ ids) then set_deleted n true else n)
              <$> map_get (nodes h) k.
Proof.
  destruct (removeMultiple_fields ids h) as [Hk He].
  split; [exact Hk|]. split; [exact He|]. apply removeMultiple_get.
Qed.

(** ** Update *)

Lemma map_set_modify (m : NodeMap) (k : string) (f : AstroNode -> AstroNode)
  (n : AstroNode) :
  map_set (map_modify m k f) k n = map_set m k n.
Proof.
  induction m as [|[k' n'] m IH]; simpl; [reflexivity|].
  destruct (decide (k' = k)) as [E|Hne]; [subst k'|]; simpl.
  - destruct (decide (k = k)); [reflexivity|congruence].
  - destruct (decide (k' = k)); [congruence|]. rewrite IH. reflexivity.
Qed.

Lemma dimension_check_passes (h : HNSW) (v : list Q) :
  (forall n, d h = Some n -> length v = n) ->
  match d h with
  | Some n => negb (length v =? n)%nat
  | None => false
  end = false.
Proof.
  intros Hd. destruct (d h) as [n|]; [|reflexivity].
  rewrite (Hd n eq_refl), Nat.eqb_refl. reflexivity.
Qed.

(** X3.  With a non-empty vector of the engine's dimension, [updatePoint]
    is [addPoint], outcome and state: the tombstone it writes on the stored
    record is gone with that record when [addPoint] overwrites it. *)
Theorem X3_updatePoint_is_addPoint
  (h : HNSW) (id : string) (v : list Q) (r : Q) :
  v <> [] -> (forall n, d h = Some n -> length v = n) ->
  updatePoint h id v r = addPoint h id v r.
Proof.
  intros Hv Hd. unfold updatePoint.
  destruct (map_get (nodes h) id) as [n|]; [|reflexivity].
  unfold addPoint.
  destruct (decide (length v = 0)) as [E|_];
    [destruct v; [congruence|discriminate]|].
  simpl. rewrite (dimension_check_passes h v Hd).
  rewrite map_set_modify. reflexivity.
Qed.

Lemma X3_updatePoint_is_addPoint_witness :
  [5]%Q <> [] /\ (forall n, d e2ABCD = Some n -> length [5]%Q = n) /\
  updatePoint e2ABCD "b" [5]%Q 0 = addPoint e2ABCD "b" [5]%Q 0.
Proof.
  assert (Hv : [5]%Q <> []) by discriminate.
  assert (Hd : forall n, d e2ABCD = Some n -> length [5]%Q = n).
  { intros n Hn. vm_compute in Hn. injection Hn as <-. reflexivity. }
  split; [exact Hv|]. split; [exact Hd|].
  exact (X3_updatePoint_is_addPoint e2ABCD "b" [5]%Q 0 Hv Hd).
Defined.

(** X4.  On a stored id, [updatePoint] with a vector that [addPoint]
    refuses does not leave the engine as it was: with a vector of another
    length it throws DimensionMismatch, with the empty vector it returns,
    and in both cases the stored record is left tombstoned, as after
    [removePoint]. *)
Theorem X4_updatePoint_refused_vector_tombstones
  (h : HNSW) (id : string) (v : list Q) (r : Q) (n : nat) :
  id ∈ keys (nodes h) -> d h = Some n -> length v <> n ->
  updatePoint h id v r =
  (if decide (v = []) then Ret tt else Throw DimensionMismatch,
   removePoint h id).
Proof.
  intros Hid Hd Hn. apply map_get_keys in Hid as [node Hnode].
  unfold updatePoint, removePoint. rewrite Hnode.
  destruct (decide (v = [])) as [->|Hv]; [reflexivity|].
  apply addPoint_rejects_dimension with (n := n);
    [exact Hd|exact Hv|exact Hn].
Qed.

Lemma X4_updatePoint_refused_vector_tombstones_witness :
  "a" ∈ keys (nodes e16A) /\ d e16A = Some 3 /\ length [1; 0]%Q <> 3 /\
  updatePoint e16A "a" [1; 0]%Q 0 =
  (Throw DimensionMismatch, removePoint e16A "a").
Proof.
  assert (Hid : "a" ∈ keys (nodes e16A)).
  { apply (bool_decide_unpack _). vm_compute. reflexivity. }
  assert (Hd : d e16A = Some 3) by (vm_compute; reflexivity).
  assert (Hn : length [1; 0]%Q <> 3) by (simpl; lia).
  split; [exact Hid|]. split; [exact Hd|]. split; [exact Hn|].
  exact (X4_updatePoint_refused_vector_tombstones e16A "a" [1; 0]%Q 0 3
           Hid Hd Hn).
Defined.

(** ** The level table *)






(** ** Snapshots with repeated ids *)

Lemma keys_new_Map_fold (entries : list (string * AstroNode)) :
  forall acc, NoDup (keys acc) ->
    NoDup (keys (fold_left (fun m e => map_set m (fst e) (snd e)) entries acc)).
Proof.
  induction entries as [|[k n] entries IH]; intros acc Hnd; simpl; [exact Hnd|].
  apply IH. rewrite keys_map_set.
  destruct (decide (k ∈ keys acc)) as [Hin|Hnin]; [exact Hnd|].
  apply NoDup_app. split; [exact Hnd|]. split.
  - intros x Hx Hx'. apply list_elem_of_singleton in Hx'. subst x. auto.
  - apply NoDup_singleton.
Qed.

Lemma map_get_new_Map_fold (entries : list (string * AstroNode)) (k : string) :
  forall acc,
    map_get (fold_left (fun m e => map_set m (fst e) (snd e)) entries acc) k =
    match map_get (reverse entries) k with
    | Some n => Some n
    | None => map_get acc k
    end.
Proof.
  induction entries as [|[k' n] entries IH]; intros acc; simpl; [reflexivity|].
  rewrite IH, reverse_cons, map_get_map_set.
  assert (Happ : forall l1 l2 : list (string * AstroNode),
             map_get (l1 ++ l2) k =
             match map_get l1 k with
             | Some x => Some x
             | None => map_get l2 k
             end).
  { induction l1 as [|[k1 n1] l1 IH1]; intros l2; simpl; [reflexivity|].
    destruct (decide (k1 = k)); [reflexivity|apply IH1]. }
  rewrite Happ. destruct (map_get (reverse entries) k); [reflexivity|].
  simpl. destruct (decide (k' = k)); reflexivity.
Qed.

(** X6.  [new Map(entries)], as [fromJSON] builds the node map: every key
    is held once, and the record found under a key is the one of the last
    entry with that key. *)
Theorem X6_new_Map_last_entry_wins
  (entries : list (string * AstroNode)) (k : string) :
  NoDup (keys (new_Map entries)) /\
  map_get (new_Map entries) k = map_get (reverse entries) k.
Proof.
  unfold new_Map. split.
  - apply keys_new_Map_fold. constructor.
  - rewrite map_get_new_Map_fold. destruct (map_get (reverse entries) k);
      reflexivity.
Qed.

(** ** What an insertion leaves of the configuration *)

Lemma addNode_config (h : HNSW) (node : Ref) (lvl : Z) :
  let h' := snd (addNodeToGraphOptimized h node lvl) in
  metric h' = metric h /\ similarityFunction h' = similarityFunction h /\
  d h' = d h /\ M h' = M h /\ efConstruction h' = efConstruction h /\
  probs h' = probs h.
Proof.
  unfold addNodeToGraphOptimized.
  destruct (decide (entryPointId h = "")); [repeat split|].
  unfold lift_nodes.
  destruct (andThen (descend _ _ _ _ _) _) as [[[]| |] m]; simpl;
    try (repeat split; fail).
  destruct (levelMax h <? lvl)%Z; repeat split.
Qed.

Lemma addPoint_config (h : HNSW) (id : string) (v : list Q) (r : Q) :
  v <> [] -> (forall n, d h = Some n -> length v = n) ->
  let h' := snd (addPoint h id v r) in
  metric h' = metric h /\ similarityFunction h' = similarityFunction h /\
  d h' = Some (length v) /\ M h' = M h /\
  efConstruction h' = efConstruction h /\ probs h' = probs h.
Proof.
  intros Hv Hd. unfold addPoint.
  destruct (decide (length v = 0)) as [E|_];
    [destruct v; [congruence|discriminate]|].
  rewrite (dimension_check_passes h v Hd).
  match goal with
  | |- context [addNodeToGraphOptimized ?a ?b ?c] =>
      destruct (addNode_config a b c) as (H1 & H2 & H3 & H4 & H5 & H6)
  end.
  simpl in *. repeat split; assumption.
Qed.

(** ** Snapshots of an engine *)

Lemma fromJSON_toJSON_eq (cos : Similarity) (fround : Q -> Q) (h : HNSW) :
  NoDup (keys (nodes h)) ->
  fromJSON cos fround (toJSON h) =
  mkHNSW "cosine" cos None (M h) (efConstruction h) (levelMax h)
    (entryPointId h) (map (fun e => (fst e, narrowed fround (snd e))) (nodes h))
    (set_probs (M h)).
Proof.
  intros Hnd. pose proof (fromJSON_toJSON_nodes cos fround h Hnd) as H.
  unfold fromJSON in *. simpl in *. unfold set_nodes. simpl. rewrite H.
  reflexivity.
Qed.

Lemma narrowed_id (fround : Q -> Q) (n : AstroNode) :
  map fround (vector n) = vector n -> narrowed fround n = n.
Proof. destruct n. unfold narrowed. simpl. intros ->. reflexivity. Qed.

Lemma map_narrowed_id (fround : Q -> Q) (m : NodeMap) :
  float32_vectors fround m ->
  map (fun e => (fst e, narrowed fround (snd e))) m = m.
Proof.
  induction 1 as [|[k n] m Hn _ IH]; simpl; [reflexivity|].
  simpl in Hn. rewrite narrowed_id by exact Hn. rewrite IH. reflexivity.
Qed.



Lemma NoDup_e2ABCD : NoDup (keys (nodes e2ABCD)).
Proof. apply (bool_decide_unpack _). vm_compute. reflexivity. Defined.

Lemma float32_id (m : NodeMap) : float32_vectors fround_id m.
Proof.
  apply Forall_forall. intros e _. unfold fround_id.
  induction (vector (snd e)) as [|x l IH]; simpl; [reflexivity|].
  rewrite IH. reflexivity.
Defined.


Lemma closed_map_values (f : AstroNode -> AstroNode) (m : NodeMap) :
  (forall n, neighbors (f n) = neighbors n) ->
  closed m -> closed (map (fun e => (fst e, f (snd e))) m).
Proof.
  intros Hf. unfold closed.
  assert (Hk : keys (map (fun e => (fst e, f (snd e))) m) = keys m).
  { unfold keys. rewrite map_map. reflexivity. }
  rewrite Hk. generalize (keys m). intros ks H.
  clear Hk. induction H as [|e m He _ IH]; simpl; [constructor|].
  constructor; [|exact IH].
  unfold adj_in in *. simpl. rewrite Hf. exact He.
Qed.

Lemma ids_ok_map_values (f : AstroNode -> AstroNode) (m : NodeMap) :
  (forall n, uniqueid (f n) = uniqueid n) ->
  ids_ok m -> ids_ok (map (fun e => (fst e, f (snd e))) m).
Proof.
  intros Hf. unfold ids_ok.
  induction 1 as [|e m He _ IH]; simpl; [constructor|].
  constructor; [|exact IH].
  simpl. rewrite Hf. exact He.
Qed.

Lemma fromJSON_toJSON_wf (cos : Similarity) (fround : Q -> Q) (h : HNSW) :
  wf h -> NoDup (keys (nodes h)) -> wf (fromJSON cos fround (toJSON h)).
Proof.
  intros (Hc & Hi & He) Hnd. rewrite fromJSON_toJSON_eq by exact Hnd.
  split; [|split]; simpl.
  - apply closed_map_values; [reflexivity|exact Hc].
  - apply ids_ok_map_values; [reflexivity|exact Hi].
  - unfold entry_ok, keys. simpl. rewrite map_map. exact He.
Qed.

(** X8.  The dimension is not part of a snapshot: on [fromJSON(toJSON(idx))]
    [addPoint] accepts a non-empty vector of any length, whatever the
    dimension of [idx] was, and stores it; the restored engine takes the
    length of that vector as its dimension. *)
Theorem X8_reload_forgets_dimension
  (cos : Similarity) (fround : Q -> Q) (idx : HNSW)
  (id : string) (v : list Q) (r : Q) :
  wf idx -> NoDup (keys (nodes idx)) -> v <> [] ->
  exists h',
    addPoint (fromJSON cos fround (toJSON idx)) id v r = (Ret tt, h') /\
    d h' = Some (length v) /\
    exists n, map_get (nodes h') id = Some n /\ vector n = v.
Proof.
  intros Hwf Hnd Hv.
  pose proof (fromJSON_toJSON_wf cos fround idx Hwf Hnd) as Hwf'.
  set (h0 := fromJSON cos fround (toJSON idx)) in *.
  assert (Hd : forall n, d h0 = Some n -> length v = n) by (intros n [=]).
  destruct (addPoint_spec h0 id v r Hwf' Hv Hd) as (h' & E & _ & S).
  exists h'. split; [exact E|].
  destruct (addPoint_config h0 id v r Hv Hd) as (_ & _ & Hd' & _).
  rewrite E in Hd'. simpl in Hd'. split; [exact Hd'|].
  pose proof (map_rel_get _ _ _ id S) as Hg. rewrite map_get_map_set in Hg.
  destruct (decide (id = id)); [|congruence].
  destruct (map_get (nodes h') id) as [n|]; [|contradiction].
  exists n. split; [reflexivity|]. destruct Hg as (_ & _ & Hvec & _).
  exact Hvec.
Qed.

Lemma wf_e16A : wf e16A.
Proof. apply (bool_decide_unpack _). vm_compute. reflexivity. Defined.

Lemma X8_reload_forgets_dimension_witness :
  wf e16A /\ NoDup (keys (nodes e16A)) /\ [1; 0]%Q <> [] /\
  d e16A = Some 3 /\
  exists h',
    addPoint (fromJSON distSimilarity fround_id (toJSON e16A)) "b" [1; 0]%Q 0
    = (Ret tt, h') /\ d h' = Some 2.
Proof.
  assert (Hnd : NoDup (keys (nodes e16A))).
  { apply (bool_decide_unpack _). vm_compute. reflexivity. }
  assert (Hv : [1; 0]%Q <> []) by discriminate.
  split; [exact wf_e16A|]. split; [exact Hnd|]. split; [exact Hv|].
  split; [vm_compute; reflexivity|].
  destruct (X8_reload_forgets_dimension distSimilarity fround_id e16A "b"
              [1; 0]%Q 0 wf_e16A Hnd Hv) as (h' & E & Hd & _).
  exists h'. split; [exact E|exact Hd].
Defined.

(** X9.  [updateIndex] with the engine's own snapshot gives the engine back
    with its vectors narrowed, and returns the number of nodes; when the
    narrowing leaves the vectors as they are the engine is unchanged. *)
Theorem X9_updateIndex_own_snapshot
  (cos : Similarity) (fround : Q -> Q) (h : HNSW) :
  NoDup (keys (nodes h)) ->
  updateIndex cos fround h (toJSON h) =
  (length (nodes h),
   set_nodes h (map (fun e => (fst e, narrowed fround (snd e))) (nodes h))) /\
  (float32_vectors fround (nodes h) ->
   updateIndex cos fround h (toJSON h) = (length (nodes h), h)).
Proof.
  intros Hnd.
  assert (E : updateIndex cos fround h (toJSON h) =
              (length (nodes h),
               set_nodes h
                 (map (fun e => (fst e, narrowed fround (snd e))) (nodes h)))).
  { unfold updateIndex. rewrite fromJSON_toJSON_eq by exact Hnd. simpl.
    rewrite length_map. reflexivity. }
  split; [exact E|]. intros Hf. rewrite E, map_narrowed_id by exact Hf.
  rewrite set_nodes_id. reflexivity.
Qed.

Lemma X9_updateIndex_own_snapshot_witness :
  NoDup (keys (nodes e2ABCD)) /\
  updateIndex distSimilarity fround_id e2ABCD (toJSON e2ABCD) = (4, e2ABCD).
Proof.
  split; [exact NoDup_e2ABCD|].
  rewrite (proj2 (X9_updateIndex_own_snapshot distSimilarity fround_id e2ABCD
                    NoDup_e2ABCD) (float32_id _)).
  reflexivity.
Defined.

(** ** The worker *)



Lemma Forall_map_rel (P : AstroNode -> Prop)
  (R : AstroNode -> AstroNode -> Prop) (m m' : NodeMap) :
  (forall a b, R a b -> P a -> P b) ->
  map_rel R m m' -> Forall (fun e => P (snd e)) m -> Forall (fun e => P (snd e)) m'.
Proof.
  intros HR Hrel. induction Hrel as [|e e' m m' [_ H] _ IH]; intros Hm;
    [constructor|].
  inversion Hm; subst. constructor; eauto.
Qed.




(** ** The facade *)

(** X11.  [searchAstroDB] caps the similarity floor at 0.95: every setting
    of 95 or more runs the search with the floor 0.95 (and the default
    [ef = efConstruction], [beam_size = 10]). *)
Theorem X11_searchAstroDB_caps_threshold
  (h : HNSW) (v : list Q) (numb_nodes : nat) (setting : Q) :
  (95 <= setting)%Q ->
  searchAstroDB h v numb_nodes setting =
  searchKNNOptimized h v numb_nodes (95 # 100) (efConstruction h) 10.
Proof.
  intros Hs. unfold searchAstroDB, Math_min.
  assert (E : Qltb (setting / 100) (95 # 100) = false).
  { apply Qltb_ge. unfold Qdiv.
    apply Qle_trans with (y := (95 * / 100)%Q); [discriminate|].
    apply Qmult_le_compat_r; [exact Hs|discriminate]. }
  rewrite E. reflexivity.
Qed.

Lemma X11_searchAstroDB_caps_threshold_witness :
  (95 <= 100)%Q /\
  searchAstroDB e2ABCD [3]%Q 2 100 =
  searchKNNOptimized e2ABCD [3]%Q 2 (95 # 100) (efConstruction e2ABCD) 10.
Proof.
  assert (Hs : (95 <= 100)%Q) by discriminate.
  split; [exact Hs|].
  exact (X11_searchAstroDB_caps_threshold e2ABCD [3]%Q 2 100 Hs).
Defined.

(** ** Synchronisation *)

Lemma every_equal_prefix (v extra : list Q) : every_equal v (v ++ extra) = true.
Proof.
  induction v as [|x v IH]; simpl; [reflexivity|].
  rewrite IH, andb_true_r. apply Qeq_bool_iff. apply Qeq_refl.
Qed.

(** X12.  [syncVectorsFromCloud] leaves the engine as it is when every item
    names a stored node and carries that node's vector, possibly followed
    by further components: the comparison runs over the stored components
    only, so a longer vector with the stored prefix is not seen as a
    change. *)
Theorem X12_sync_skips_stored_prefix
  (h : HNSW) (items : list (string * list Q)) (rnd : nat -> Q) (i : nat) :
  Forall (fun item => exists n extra,
            map_get (nodes h) (fst item) = Some n /\
            snd item = vector n ++ extra) items ->
  syncVectorsFromCloud h items rnd i = h.
Proof.
  intros H. revert i. induction H as [|item items (n & extra & Hn & Hv) _ IH];
    intros i; simpl; [reflexivity|].
  assert (E : sync_item h item (rnd i) = h).
  { unfold sync_item. destruct (decide (length (snd item) = 0)); [reflexivity|].
    rewrite Hn, Hv, every_equal_prefix. reflexivity. }
  rewrite E. apply IH.
Qed.

Lemma X12_sync_skips_stored_prefix_witness :
  Forall (fun item => exists n extra,
            map_get (nodes e16A) (fst item) = Some n /\
            snd item = vector n ++ extra) [("a", [1; 0; 0; 7]%Q)] /\
  syncVectorsFromCloud e16A [("a", [1; 0; 0; 7]%Q)] rnd0 0 = e16A.
Proof.
  assert (H : Forall (fun item => exists n extra,
            map_get (nodes e16A) (fst item) = Some n /\
            snd item = vector n ++ extra) [("a", [1; 0; 0; 7]%Q)]).
  { constructor; [|constructor].
    exists (new_AstroNode "a" [1; 0; 0]%Q 7), [7]%Q.
    split; vm_compute; reflexivity. }
  split; [exact H|].
  exact (X12_sync_skips_stored_prefix e16A [("a", [1; 0; 0; 7]%Q)] rnd0 0 H).
Defined.

(** ** Building and rebuilding *)

Lemma addPoint_cases (h : HNSW) (id : string) (v : list Q) (r : Q) :
  wf h ->
  (v = [] /\ addPoint h id v r = (Ret tt, h)) \/
  (v <> [] /\ addPoint h id v r = (Throw DimensionMismatch, h)) \/
  (v <> [] /\ exists h', addPoint h id v r = (Ret tt, h') /\ wf h' /\
     map_rel node_same
       (map_set (nodes h) id (new_AstroNode id v (selectLevel (probs h) r)))
       (nodes h')).
Proof.
  intros Hwf. destruct (decide (v = [])) as [->|Hv]; [left; split; reflexivity|].
  right. destruct (d h) as [n|] eqn:En.
  - destruct (decide (length v = n)) as [El|El].
    + right. split; [exact Hv|]. apply addPoint_spec; [exact Hwf|exact Hv|].
      intros n' Hn'. congruence.
    + left. split; [exact Hv|].
      apply addPoint_rejects_dimension with (n := n); assumption.
  - right. split; [exact Hv|]. apply addPoint_spec; [exact Hwf|exact Hv|].
    intros n' Hn'. congruence.
Qed.

Lemma addPoints_keys (data : list (string * list Q)) (rnd : nat -> Q) :
  forall h i h', wf h -> addPoints h data rnd i = (Ret tt, h') ->
  forall k, k ∈ keys (nodes h') <->
            k ∈ keys (nodes h) \/ exists v, (k, v) ∈ data /\ v <> [].
Proof.
  induction data as [|[id v] data IH]; intros h i h' Hwf E k; simpl in E.
  - injection E as <-. split; [auto|]. intros [H|(v & Hin & _)]; [exact H|].
    inversion Hin.
  - destruct (addPoint_cases h id v (rnd i) Hwf)
      as [[-> E1]|[[Hv E1]|(Hv & h1 & E1 & Hwf1 & Hrel)]];
      rewrite E1 in E; simpl in E.
    + rewrite (IH h (S i) h' Hwf E k). split.
      * intros [H|(v & Hin & Hv)]; [left; exact H|].
        right. exists v. split; [right; exact Hin|exact Hv].
      * intros [H|(v & Hin & Hv)]; [left; exact H|].
        apply elem_of_cons in Hin as [[= -> ->]|Hin]; [congruence|].
        right. exists v. split; assumption.
    + discriminate E.
    + rewrite (IH h1 (S i) h' Hwf1 E k).
      rewrite (map_rel_keys _ _ _ Hrel), keys_map_set. split.
      * intros [H|(v' & Hin & Hv')].
        -- destruct (decide (id ∈ keys (nodes h))); [left; exact H|].
           apply elem_of_app in H as [H|H]; [left; exact H|].
           apply list_elem_of_singleton in H. subst k.
           right. exists v. split; [left|exact Hv].
        -- right. exists v'. split; [right; exact Hin|exact Hv'].
      * intros [H|(v' & Hin & Hv')].
        -- left. destruct (decide (id ∈ keys (nodes h))); [exact H|].
           apply elem_of_app. left. exact H.
        -- apply elem_of_cons in Hin as [[= -> ->]|Hin].
           ++ left. destruct (decide (id ∈ keys (nodes h))); [assumption|].
              apply elem_of_app. right. left.
           ++ right. exists v'. split; assumption.
Qed.

Lemma addPoint_live (h : HNSW) (id : string) (v : list Q) (r : Q) :
  wf h -> Forall (fun e => deleted (snd e) = false) (nodes h) ->
  Forall (fun e => deleted (snd e) = false) (nodes (snd (addPoint h id v r))).
Proof.
  intros Hwf Hl.
  destruct (addPoint_cases h id v r Hwf)
    as [[_ E]|[[_ E]|(_ & h1 & E & _ & S)]]; rewrite E; simpl; try exact Hl.
  apply (Forall_map_rel (fun n => deleted n = false) node_same _ _
           (fun a b Hab Ha => ltac:(
              destruct Hab as (_ & _ & _ & Hdel); rewrite Hdel; exact Ha)) S).
  apply Forall_map_set; [exact Hl|reflexivity].
Qed.

Lemma addPoints_live (data : list (string * list Q)) (rnd : nat -> Q) :
  forall h i, wf h -> Forall (fun e => deleted (snd e) = false) (nodes h) ->
  Forall (fun e => deleted (snd e) = false)
    (nodes (snd (addPoints h data rnd i))).
Proof.
  induction data as [|[id v] data IH]; intros h i Hwf Hl; simpl; [exact Hl|].
  pose proof (addPoint_wf h id v (rnd i) Hwf) as Hwf1.
  pose proof (addPoint_live h id v (rnd i) Hwf Hl) as Hl1.
  destruct (addPoint h id v (rnd i)) as [[[]| |] h1]; simpl in *;
    [apply IH; assumption|exact Hl1|exact Hl1].
Qed.

(** X13.  [buildIndex] discards what the engine held: when it returns, the
    keys of the map are exactly the ids of the items with a non-empty
    vector, and, whether it returns or stops on a throw, no node of the
    map is tombstoned. *)
Theorem X13_buildIndex_holds_the_data
  (h : HNSW) (data : list (string * list Q)) (rnd : nat -> Q) :
  Forall (fun e => deleted (snd e) = false)
    (nodes (snd (buildIndex h data rnd))) /\
  forall h', buildIndex h data rnd = (Ret tt, h') ->
    forall k, k ∈ keys (nodes h') <-> exists v, (k, v) ∈ data /\ v <> [].
Proof.
  unfold buildIndex. split.
  - apply addPoints_live; [apply empty_wf; reflexivity|constructor].
  - intros h' E k.
    assert (Hwf : wf (set_entryPointId (set_levelMax (set_nodes h []) 0) ""))
      by (apply empty_wf; reflexivity).
    rewrite (addPoints_keys data rnd _ 0 h' Hwf E k).
    simpl. split; [intros [H|H]; [inversion H|exact H]|auto].
Qed.

(** X14.  [rebuildGraphNodes] drops the tombstoned records: whether it runs
    to the end or stops on a throw no node of the map is tombstoned, and
    when it runs to the end the keys are exactly the ids of the prior
    records that were not tombstoned and had a non-empty id and a non-empty
    vector. *)
Theorem X14_rebuild_drops_tombstones (h : HNSW) (rnd : nat -> Q) :
  Forall (fun e => deleted (snd e) = false)
    (nodes (snd (rebuildGraphNodes h rnd))) /\
  forall h', rebuildGraphNodes h rnd = (Ret tt, h') ->
    forall k, k ∈ keys (nodes h') <->
      exists n, n ∈ map snd (nodes h) /\ deleted n = false /\
                uniqueid n = k /\ k <> "" /\ vector n <> [].
Proof.
  unfold rebuildGraphNodes.
  rewrite (processNode_addPoints (map snd (nodes h)) (rebuild_reset h) rnd 0
             rnd 0).
  split.
  - apply addPoints_live; [apply empty_wf; reflexivity|constructor].
  - intros h' E k.
    assert (Hwf : wf (rebuild_reset h)) by (apply empty_wf; reflexivity).
    rewrite (addPoints_keys _ rnd _ 0 h' Hwf E k).
    simpl. split.
    + intros [H|(v & Hin & Hv)]; [inversion H|].
      apply list_elem_of_In, in_map_iff in Hin as (n & [= <- <-] & Hn).
      apply list_elem_of_In, list_elem_of_filter in Hn as [Hk Hn].
      unfold rebuild_keeps in Hk. apply andb_true_iff in Hk as [Hd Hid].
      apply negb_true_iff in Hd. apply negb_true_iff in Hid.
      apply bool_decide_eq_false in Hid.
      exists n. repeat split; assumption.
    + intros (n & Hn & Hd & <- & Hid & Hv). right. exists (vector n).
      split; [|exact Hv].
      apply list_elem_of_In, in_map_iff. exists n. split; [reflexivity|].
      apply list_elem_of_In, list_elem_of_filter. split; [|exact Hn].
      unfold rebuild_keeps. rewrite Hd. simpl.
      apply negb_true_iff, bool_decide_eq_false. exact Hid.
Qed.

(** ** What searchLayer returns *)

Lemma node_same_sym (a b : AstroNode) : node_same a b -> node_same b a.
Proof. intros (?&?&?&?). repeat split; congruence. Qed.

Lemma ref_ok_rel (m m' : NodeMap) (r : Ref) :
  map_rel node_same m m' -> ref_ok m r -> ref_ok m' r.
Proof.
  intros Hrel (n & Hn & Hs). pose proof (map_rel_get _ _ _ (ref_key r) Hrel) as Hg.
  rewrite Hn in Hg.
  destruct (map_get m' (ref_key r)) as [n'|] eqn:E'; [|contradiction].
  exists n'. split; [exact E'|].
  eapply node_same_trans; [apply node_same_sym; exact Hg|exact Hs].
Qed.

Lemma ref_ok_rel_inv (m m' : NodeMap) (r : Ref) :
  map_rel node_same m m' -> ref_ok m' r -> ref_ok m r.
Proof.
  intros Hrel (n' & Hn & Hs).
  pose proof (map_rel_get _ _ _ (ref_key r) Hrel) as Hg. rewrite Hn in Hg.
  destruct (map_get m (ref_key r)) as [n|] eqn:E'; [|contradiction].
  exists n. split; [exact E'|]. eapply node_same_trans; eauto.
Qed.

Lemma ref_ok_uid (m : NodeMap) (r : Ref) :
  ids_ok m -> ref_ok m r -> uid r = ref_key r.
Proof.
  intros Hi (n & Hn & Hu & _). unfold uid. rewrite Hu.
  eapply ids_ok_get; eauto.
Qed.

Lemma ref_get_ok (m : NodeMap) (k : string) (r : Ref) :
  ref_get m k = Some r -> ref_ok m r.
Proof.
  unfold ref_get. destruct (map_get m k) as [n|] eqn:E; simpl; [|discriminate].
  intros [= <-]. exists n. split; [exact E|apply node_same_refl].
Qed.

Lemma pq_push_perm {T} (compare : T -> T -> Q) (x : T) (l : list T) :
  pq_push compare x l ≡ₚ x :: l.
Proof.
  induction l as [|y l IH]; simpl; [reflexivity|].
  destruct (Qltb 0 (compare x y)); [|reflexivity].
  rewrite IH. apply perm_swap.
Qed.

Lemma pq_push_NoDup_uid {T} (compare : T -> T -> Q) (f : T -> string)
  (x : T) (l : list T) :
  f x ∉ map f l -> NoDup (map f l) -> NoDup (map f (pq_push compare x l)).
Proof.
  intros Hx Hnd.
  assert (Hp : map f (pq_push compare x l) ≡ₚ f x :: map f l).
  { change (f x :: map f l) with (map f (x :: l)).
    apply Permutation_map, pq_push_perm. }
  rewrite Hp. constructor; assumption.
Qed.

Lemma popLast_take {T} (l : list T) : popLast l = take (length l - 1) l.
Proof.
  unfold popLast. rewrite removelast_firstn_len. f_equal. lia.
Qed.

Lemma NoDup_map_take {A B} (f : A -> B) (n : nat) (l : list A) :
  NoDup (map f l) -> NoDup (map f (take n l)).
Proof.
  intros H. rewrite <- (take_drop n l), map_app in H.
  apply NoDup_app in H as [H _]. exact H.
Qed.

Section Found_facts.
Variable sim : Similarity.
Variable q : list Q.

Lemma found_inv_push (m : NodeMap) (s : SearchState) (r : Ref)
  (vis : gset string) (c : list Ref) :
  found_inv sim q m s -> ref_ok m r -> uid r ∉ visited s ->
  vis = {[uid r]} ∪ visited s ->
  found_inv sim q m (mkSearch vis c (pq_push (cmp sim q) r (found s))).
Proof.
  intros (Hs & Hok & Hv & Hnd) Hr Hnv ->. unfold found_inv. simpl.
  split; [apply pq_push_sorted; exact Hs|]. split; [|split].
  - apply Forall_forall. intros x Hx. apply elem_of_pq_push in Hx as [->|Hx];
      [exact Hr|]. rewrite Forall_forall in Hok. auto.
  - apply Forall_forall. intros x Hx. apply elem_of_pq_push in Hx as [->|Hx];
      [set_solver|]. rewrite Forall_forall in Hv. specialize (Hv x Hx).
    set_solver.
  - apply pq_push_NoDup_uid; [|exact Hnd]. intros Hin.
    apply list_elem_of_In, in_map_iff in Hin as (x & Hx & Hin).
    apply list_elem_of_In in Hin. rewrite Forall_forall in Hv.
    apply Hnv. rewrite <- Hx. auto.
Qed.

Lemma found_inv_pop (m : NodeMap) (vis : gset string) (c f : list Ref) :
  found_inv sim q m (mkSearch vis c f) ->
  found_inv sim q m (mkSearch vis c (popLast f)).
Proof.
  intros (Hs & Hok & Hv & Hnd). unfold found_inv. simpl in *.
  rewrite popLast_take.
  split; [apply take_sorted; exact Hs|]. split; [apply Forall_take; exact Hok|].
  split; [apply Forall_take; exact Hv|apply NoDup_map_take; exact Hnd].
Qed.

Lemma found_inv_visit (m : NodeMap) (s : SearchState) (x : string)
  (c : list Ref) :
  found_inv sim q m s ->
  found_inv sim q m (mkSearch ({[x]} ∪ visited s) c (found s)).
Proof.
  intros (Hs & Hok & Hv & Hnd). unfold found_inv. simpl.
  split; [exact Hs|]. split; [exact Hok|]. split; [|exact Hnd].
  eapply Forall_impl; [exact Hv|]. intros r Hr. simpl in Hr. set_solver.
Qed.

Lemma found_inv_candidates (m : NodeMap) (s : SearchState) (c : list Ref) :
  found_inv sim q m s -> found_inv sim q m (mkSearch (visited s) c (found s)).
Proof. intros H. exact H. Qed.

Lemma found_inv_rel (m m' : NodeMap) (s : SearchState) :
  map_rel node_same m m' -> found_inv sim q m s -> found_inv sim q m' s.
Proof.
  intros Hrel (Hs & Hok & Hv & Hnd). split; [exact Hs|].
  split; [|split; assumption].
  eapply Forall_impl; [exact Hok|]. intros r. apply ref_ok_rel. exact Hrel.
Qed.

Lemma seed_found (m : NodeMap) (eps : list Ref) :
  ids_ok m ->
  forall s, Forall (ref_ok m) eps -> found_inv sim q m s ->
  found_inv sim q m (seed sim q eps s) /\
  length (found (seed sim q eps s)) <= length (found s) + length eps /\
  (eps <> [] -> found s = [] -> visited s = ∅ -> found (seed sim q eps s) <> []).
Proof.
  intros Hi. induction eps as [|ep eps IH]; intros s Heps Hinv; simpl.
  - split; [exact Hinv|]. split; [lia|]. congruence.
  - inversion Heps as [|? ? Hep Heps']; subst.
    destruct (decide (uid ep ∈ visited s)) as [Hv|Hv].
    + destruct (IH s Heps' Hinv) as (H1 & H2 & _).
      split; [exact H1|]. split; [lia|].
      intros _ _ He. rewrite He in Hv. set_solver.
    + set (s1 := mkSearch _ _ _).
      assert (Hinv1 : found_inv sim q m s1).
      { apply found_inv_push; [exact Hinv|exact Hep|exact Hv|reflexivity]. }
      destruct (IH s1 Heps' Hinv1) as (H1 & H2 & _).
      split; [exact H1|]. split.
      * simpl in H2. rewrite pq_push_length in H2. lia.
      * intros _ _ _. clear -H1 Hinv1 Heps' Hi.
        assert (Hgen : forall eps s, found s <> [] ->
                  found (seed sim q eps s) <> []).
        { clear. induction eps as [|e eps IH]; intros s Hs; simpl; [exact Hs|].
          destruct (decide (uid e ∈ visited s)); [apply IH; exact Hs|].
          apply IH. simpl. apply pq_push_not_nil. }
        apply Hgen. simpl. apply pq_push_not_nil.
Qed.

Lemma scan_found (ef : nat) (m : NodeMap) (B : nat) (ids : list string) :
  ids_ok m -> ef <= B ->
  forall s s', found_inv sim q m s -> length (found s) <= B ->
  scan sim q ef m ids s = Ret s' ->
  found_inv sim q m s' /\ length (found s') <= B /\
  (found s <> [] -> found s' <> []).
Proof.
  intros Hi HB. induction ids as [|nid ids IH]; intros s s' Hinv Hlen; simpl.
  - intros [= <-]. auto.
  - destruct (decide (nid = "")); [apply IH; assumption|].
    destruct (decide (nid ∈ visited s)) as [Hv|Hv]; [apply IH; assumption|].
    destruct (ref_get m nid) as [nb|] eqn:En; [|discriminate].
    pose proof (ref_get_ok m nid nb En) as Hok.
    destruct (ref_get_uid m nid nb Hi En) as [_ Hu].
    assert (Hnv : uid nb ∉ visited s) by (rewrite Hu; exact Hv).
    assert (Henter :
      forall s', scan sim q ef m ids
             (mkSearch ({[nid]} ∪ visited s)
                (pq_push (cmp sim q) nb (candidates s))
                (if (ef <? length (pq_push (cmp sim q) nb (found s)))%nat
                 then popLast (pq_push (cmp sim q) nb (found s))
                 else pq_push (cmp sim q) nb (found s))) = Ret s' ->
           found_inv sim q m s' /\ length (found s') <= B /\
           (found s <> [] -> found s' <> [])).
    { intros s2 E.
      assert (Hp : found_inv sim q m
                (mkSearch ({[nid]} ∪ visited s)
                   (pq_push (cmp sim q) nb (candidates s))
                   (pq_push (cmp sim q) nb (found s)))).
      { apply found_inv_push; [exact Hinv|exact Hok|exact Hnv|].
        rewrite Hu. reflexivity. }
      destruct (Nat.ltb_spec ef (length (pq_push (cmp sim q) nb (found s))))
        as [Hlt|Hge].
      - apply found_inv_pop in Hp.
        assert (Hl : length (popLast (pq_push (cmp sim q) nb (found s))) <= B).
        { rewrite popLast_length, pq_push_length. simpl. exact Hlen. }
        destruct (IH _ s2 Hp Hl E) as (H1 & H2 & H3).
        split; [exact H1|]. split; [exact H2|]. intros Hne. apply H3.
        simpl. intros Hnil. apply (f_equal length) in Hnil.
        rewrite popLast_length, pq_push_length in Hnil. simpl in Hnil.
        destruct (found s); [congruence|discriminate].
      - assert (Hl : length (pq_push (cmp sim q) nb (found s)) <= B) by lia.
        destruct (IH _ s2 Hp Hl E) as (H1 & H2 & H3).
        split; [exact H1|]. split; [exact H2|]. intros _. apply H3.
        simpl. apply pq_push_not_nil. }
    assert (Hskip :
      forall s', scan sim q ef m ids
             (mkSearch ({[nid]} ∪ visited s) (candidates s) (found s)) = Ret s' ->
           found_inv sim q m s' /\ length (found s') <= B /\
           (found s <> [] -> found s' <> [])).
    { intros s2 E.
      apply (IH (mkSearch ({[nid]} ∪ visited s) (candidates s) (found s)) s2);
        [apply found_inv_visit; exact Hinv|exact Hlen|exact E]. }
    destruct (length (found s) <? ef)%nat; [apply Henter|].
    destruct (getLast (found s)) as [fu|]; [|discriminate].
    destruct (Qltb (score_of sim q fu) (score_of sim q nb));
      [apply Henter|apply Hskip].
Qed.

Lemma search_loop_found (ef : nat) (lvl : Z) (B : nat) :
  ef <= B ->
  forall fuel m s res m', ids_ok m -> found_inv sim q m s ->
  length (found s) <= B ->
  search_loop sim q fuel ef lvl m s = (Ret res, m') ->
  StronglySorted (desc sim q) res /\ Forall (ref_ok m') res /\
  NoDup (map uid res) /\ length res <= B /\ (found s <> [] -> res <> []).
Proof.
  intros HB. induction fuel as [|fuel IH]; intros m s res m' Hi Hinv Hlen; simpl.
  - destruct (candidates s); [|discriminate]. intros [= <- <-].
    destruct Hinv as (H1 & H2 & _ & H4). auto.
  - destruct (candidates s) as [|current rest].
    { intros [= <- <-]. destruct Hinv as (H1 & H2 & _ & H4). auto. }
    destruct (getLast (found s)) as [fu|]; [|discriminate].
    destruct (Qltb _ _).
    { intros [= <- <-]. destruct Hinv as (H1 & H2 & _ & H4). auto. }
    set (m1 := init_nb m (ref_key current) lvl).
    assert (Hrel : map_rel node_same m m1) by apply init_nb_same.
    destruct (scan sim q ef m1 _ _) as [s1| |] eqn:Es; [|discriminate..].
    intros E.
    destruct (scan_found ef m1 B _ (ids_ok_same _ _ Hi Hrel) HB _ _
                (found_inv_rel m m1 (mkSearch (visited s) rest (found s)) Hrel Hinv)
                Hlen Es) as (Hinv1 & Hlen1 & Hne1).
    destruct (IH m1 s1 res m' (ids_ok_same _ _ Hi Hrel) Hinv1 Hlen1 E)
      as (H1 & H2 & H3 & H4 & H5).
    repeat (split; [assumption|]). intros Hne. apply H5, Hne1. exact Hne.
Qed.
End Found_facts.

Lemma searchLayer_result (sim : Similarity) (q : list Q) (m : NodeMap)
  (eps : list Ref) (ef : nat) (lvl : Z) :
  closed m -> ids_ok m -> Forall (ref_ok m) eps ->
  exists res m',
    searchLayer sim q m eps ef lvl = (Ret res, m') /\
    map_rel node_frame m m' /\
    StronglySorted (desc sim q) res /\
    Forall (ref_ok m) res /\ NoDup (map uid res) /\
    length res <= Nat.max ef (length eps) /\
    (eps <> [] -> res <> []).
Proof.
  intros Hc Hi Heps.
  destruct (searchLayer_ok sim q m eps ef lvl Hc) as (res & m' & E & Hfr).
  exists res, m'. split; [exact E|]. split; [exact Hfr|].
  assert (Hinv0 : found_inv sim q m (mkSearch ∅ [] [])).
  { repeat split; constructor. }
  destruct (seed_found sim q m eps Hi _ Heps Hinv0) as (Hinv & Hlen & Hne).
  simpl in Hlen.
  unfold searchLayer in E.
  assert (Hl : length (found (seed sim q eps (mkSearch ∅ [] [])))
               <= Nat.max ef (length eps)) by lia.
  destruct (search_loop_found sim q ef lvl (Nat.max ef (length eps))
              (Nat.le_max_l _ _) _ m _ res m' Hi Hinv Hl E)
    as (H1 & H2 & H3 & H4 & H5).
  split; [exact H1|]. split.
  { eapply Forall_impl; [exact H2|]. intros r.
    apply ref_ok_rel_inv, map_frame_same. exact Hfr. }
  split; [exact H3|]. split; [exact H4|].
  intros Hn. apply H5. apply Hne; [exact Hn|reflexivity|reflexivity].
Qed.

(** X15.  On a map with closed adjacency whose records sit under their own
    ids, [searchLayer] from entry points taken from the map returns; the
    result is in descending order of similarity to the query, holds
    references to stored nodes, holds no id twice, has at most
    max(ef, number of entry points) entries, and is not empty when there is
    an entry point. *)
Theorem X15_searchLayer_result
  (sim : Similarity) (q : list Q) (m : list (string * AstroNode))
  (eps : list Ref) (ef : nat) (lvl : Z) :
  closed m -> ids_ok m -> Forall (ref_ok m) eps ->
  exists res m',
    searchLayer sim q m eps ef lvl = (Ret res, m') /\
    StronglySorted (fun a b => (score_of sim q b <= score_of sim q a)%Q) res /\
    Forall (fun r => exists n, map_get m (uid r) = Some n /\
                               vector n = vector (ref_obj r)) res /\
    NoDup (map uid res) /\
    length res <= Nat.max ef (length eps) /\
    (eps <> [] -> res <> []).
Proof.
  intros Hc Hi Heps.
  destruct (searchLayer_result sim q m eps ef lvl Hc Hi Heps)
    as (res & m' & E & _ & H1 & H2 & H3 & H4 & H5).
  exists res, m'. split; [exact E|]. split; [exact H1|].
  split; [|split; [exact H3|split; [exact H4|exact H5]]].
  eapply Forall_impl; [exact H2|]. intros r Hr.
  rewrite (ref_ok_uid m r Hi Hr). destruct Hr as (n & Hn & _ & _ & Hv & _).
  exists n. split; [exact Hn|symmetry; exact Hv].
Qed.

Lemma wf_e2ABCD : wf e2ABCD.
Proof. apply (bool_decide_unpack _). vm_compute. reflexivity. Defined.

Lemma X15_searchLayer_result_witness :
  closed (nodes e2ABCD) /\ ids_ok (nodes e2ABCD) /\
  Forall (ref_ok (nodes e2ABCD))
    [mkRef "a" (new_AstroNode "a" [0]%Q 28)] /\
  exists res m',
    searchLayer distSimilarity [3]%Q (nodes e2ABCD)
      [mkRef "a" (new_AstroNode "a" [0]%Q 28)] 2 0 = (Ret res, m') /\
    length res <= 2.
Proof.
  destruct wf_e2ABCD as (Hc & Hi & _).
  assert (Heps : Forall (ref_ok (nodes e2ABCD))
                   [mkRef "a" (new_AstroNode "a" [0]%Q 28)]).
  { constructor; [|constructor].
    eexists. split; [vm_compute; reflexivity|]. repeat split. }
  split; [exact Hc|]. split; [exact Hi|]. split; [exact Heps|].
  destruct (X15_searchLayer_result distSimilarity [3]%Q (nodes e2ABCD)
              [mkRef "a" (new_AstroNode "a" [0]%Q 28)] 2 0 Hc Hi Heps)
    as (res & m' & E & _ & _ & _ & Hlen & _).
  exists res, m'. split; [exact E|]. simpl in Hlen. exact Hlen.
Defined.

(** ** What the top-K search returns *)

Lemma truncate_elem (sim : Similarity) (q : list Q) (n : nat) (l : list Ref)
  (r : Ref) :
  r ∈ truncate n l -> r ∈ l.
Proof. rewrite truncate_take. apply subseteq_take. Qed.

Lemma updateBest_elem (sim : Similarity) (q : list Q) (m : NodeMap)
  (news : list Ref) (n : nat) (r : Ref) :
  forall best, r ∈ updateBestCandidates sim q m best news n ->
               r ∈ best \/ r ∈ news.
Proof.
  intros best H. unfold updateBestCandidates in H.
  apply truncate_elem in H; [|exact sim|exact q].
  revert best H. induction news as [|c news IH]; intros best H; simpl in H;
    [left; exact H|].
  apply IH in H as [H|H]; [|right; right; exact H].
  destruct (deleted (live m c)); [left; exact H|].
  apply elem_of_pq_push in H as [->|H]; [right; left|left; exact H].
Qed.

Lemma getTopBeam_elem {T} (l : list T) (n : nat) (x : T) :
  x ∈ getTopBeam l n -> x ∈ l.
Proof.
  unfold getTopBeam. destruct (length l <=? n)%nat; [auto|].
  apply subseteq_take.
Qed.

Lemma Forall_ref_ok_rel (m m' : NodeMap) (l : list Ref) :
  map_rel node_frame m m' -> Forall (ref_ok m) l -> Forall (ref_ok m') l.
Proof.
  intros Hrel H. eapply Forall_impl; [exact H|]. intros r.
  apply ref_ok_rel, map_frame_same. exact Hrel.
Qed.

Lemma beam_levels_refs (sim : Similarity) (q : list Q) (K ef beam_size : nat)
  (lvls : list Z) :
  forall m best beam, closed m -> ids_ok m ->
  Forall (ref_ok m) best -> Forall (ref_ok m) beam ->
  exists best' beam' m',
    beam_levels sim q K ef beam_size lvls m best beam
    = (Ret (best', beam'), m') /\
    map_rel node_frame m m' /\
    Forall (ref_ok m') best' /\ Forall (ref_ok m') beam'.
Proof.
  induction lvls as [|lvl lvls IH]; intros m best beam Hc Hi Hb Hbm; simpl.
  - exists best, beam, m. split; [reflexivity|].
    split; [apply map_frame_refl|split; assumption].
  - destruct (searchLayer_result sim q m beam (Nat.min ef beam_size) lvl
                Hc Hi Hbm) as (res & m1 & E & Hfr & _ & Hres & _).
    rewrite E. simpl.
    assert (Hres1 : Forall (ref_ok m1) res)
      by (eapply Forall_ref_ok_rel; eauto).
    destruct (IH m1 (updateBestCandidates sim q m1 best res (Nat.max K ef))
                (getTopBeam res beam_size))
      as (best' & beam' & m' & E' & Hfr' & Hb' & Hbm').
    + eapply closed_frame; eauto.
    + eapply ids_ok_same; [exact Hi|apply map_frame_same; exact Hfr].
    + apply Forall_forall. intros r Hr.
      apply updateBest_elem in Hr as [Hr|Hr].
      * pose proof (Forall_ref_ok_rel m m1 best Hfr Hb) as Hb1.
        rewrite Forall_forall in Hb1. auto.
      * rewrite Forall_forall in Hres1. auto.
    + apply Forall_forall. intros r Hr. apply getTopBeam_elem in Hr.
      rewrite Forall_forall in Hres1. auto.
    + exists best', beam', m'. split; [exact E'|].
      split; [eapply map_frame_trans; eauto|split; assumption].
Qed.

Lemma searchKNN_sound (h : HNSW) (q : list Q) (K : nat) (t : Q)
  (ef beam_size : nat) :
  wf h ->
  exists res h',
    searchKNNOptimized h q K t ef beam_size = (Ret res, h') /\
    Forall (fun c => exists n,
              map_get (nodes h) (sc_uniqueid c) = Some n /\
              deleted n = false /\ vector n = sc_vector c /\
              level n = sc_level c) res.
Proof.
  intros (Hc & Hi & He). unfold searchKNNOptimized.
  destruct (decide (entryPointId h = "")) as [E|E].
  { exists [], h. split; [reflexivity|constructor]. }
  destruct He as [He|He]; [contradiction|].
  destruct (ref_get_is_Some _ _ He) as [e Hre]. rewrite Hre.
  set (sim := similarityFunction h).
  destruct (beam_levels_refs sim q K ef beam_size (range_down (levelMax h) 0)
              (nodes h) [] [e] Hc Hi)
    as (best & beam & m1 & E1 & Hfr1 & Hb1 & Hbm1).
  { constructor. }
  { constructor; [|constructor]. eapply ref_get_ok. exact Hre. }
  rewrite E1. simpl.
  assert (Hc1 : closed m1) by (eapply closed_frame; eauto).
  assert (Hi1 : ids_ok m1)
    by (eapply ids_ok_same; [exact Hi|apply map_frame_same; exact Hfr1]).
  destruct (searchLayer_result sim q m1 beam ef 0 Hc1 Hi1 Hbm1)
    as (bottom & m2 & E2 & Hfr2 & _ & Hbot & _).
  rewrite E2. simpl. unfold lift_nodes. simpl.
  eexists _, _. split; [reflexivity|].
  assert (Hfr : map_rel node_frame (nodes h) m2)
    by (eapply map_frame_trans; eauto).
  assert (Hi2 : ids_ok m2)
    by (eapply ids_ok_same; [exact Hi|apply map_frame_same; exact Hfr]).
  set (best2 := updateBestCandidates sim q m2 best bottom (Nat.max K ef)).
  assert (Hbest2 : Forall (ref_ok m2) best2).
  { apply Forall_forall. intros r Hr. apply updateBest_elem in Hr as [Hr|Hr].
    - pose proof (Forall_ref_ok_rel m1 m2 best Hfr2 Hb1) as H.
      rewrite Forall_forall in H. auto.
    - pose proof (Forall_ref_ok_rel m1 m2 bottom Hfr2 Hbot) as H.
      rewrite Forall_forall in H. auto. }
  set (scored := filter _ _).
  assert (Hall : Forall (fun c => exists n,
              map_get (nodes h) (sc_uniqueid c) = Some n /\
              deleted n = false /\ vector n = sc_vector c /\
              level n = sc_level c) scored).
  { apply Forall_forall. intros c Hin. unfold scored in Hin.
    apply list_elem_of_filter in Hin as [[_ Hdel] Hin].
    apply list_elem_of_In, in_map_iff in Hin as (r & <- & Hr).
    apply list_elem_of_In in Hr. rewrite Forall_forall in Hbest2.
    specialize (Hbest2 r Hr).
    pose proof (ref_ok_uid m2 r Hi2 Hbest2) as Hu.
    destruct Hbest2 as (n2 & Hn2 & _ & Hl2 & Hv2 & _).
    simpl in *. unfold live in Hdel. rewrite Hn2 in Hdel.
    pose proof (map_rel_get _ _ _ (ref_key r) Hfr) as Hg. rewrite Hn2 in Hg.
    destruct (map_get (nodes h) (ref_key r)) as [n|] eqn:En; [|contradiction].
    destruct Hg as [(_ & Hl & Hv & Hd) _].
    exists n. rewrite Hu. split; [exact En|].
    split; [congruence|]. split; congruence. }
  destruct (K <? length scored)%nat; [apply Forall_take|]; exact Hall.
Qed.

(** X16.  On a well-formed engine [searchKNNOptimized] returns, and every
    entry of the result is a node of the engine: its id is a key of the
    map, the record stored there is not tombstoned, and the entry carries
    that record's vector and level. *)
Theorem X16_search_returns_stored_live_nodes
  (h : HNSW) (q : list Q) (K : nat) (t : Q) (ef beam_size : nat) :
  wf h ->
  exists res h',
    searchKNNOptimized h q K t ef beam_size = (Ret res, h') /\
    Forall (fun c => exists n,
              map_get (nodes h) (sc_uniqueid c) = Some n /\
              deleted n = false /\ vector n = sc_vector c /\
              level n = sc_level c) res.
Proof. apply searchKNN_sound. Qed.

Lemma X16_search_returns_stored_live_nodes_witness :
  wf e2ABCD /\
  exists res h',
    searchKNNOptimized e2ABCD [3]%Q 2 (1 # 4) 10 10 = (Ret res, h') /\
    Forall (fun c => sc_uniqueid c ∈ keys (nodes e2ABCD)) res.
Proof.
  split; [exact wf_e2ABCD|].
  destruct (X16_search_returns_stored_live_nodes e2ABCD [3]%Q 2 (1 # 4) 10 10
              wf_e2ABCD) as (res & h' & E & Hall).
  exists res, h'. split; [exact E|].
  eapply Forall_impl; [exact Hall|]. intros c (n & Hn & _).
  apply map_get_keys. eauto.
Defined.

(** X17.  After [removePoint(id)] a search does not return [id]: on a
    well-formed engine the search on the engine left by the removal
    returns, and no entry of its result has that id. *)
Theorem X17_removed_id_is_not_returned
  (h : HNSW) (id : string) (q : list Q) (K : nat) (t : Q)
  (ef beam_size : nat) :
  wf h ->
  exists res h',
    searchKNNOptimized (removePoint h id) q K t ef beam_size = (Ret res, h') /\
    Forall (fun c => sc_uniqueid c <> id) res.
Proof.
  intros Hwf.
  destruct (searchKNN_sound (removePoint h id) q K t ef beam_size
              (removePoint_wf h id Hwf)) as (res & h' & E & Hall).
  exists res, h'. split; [exact E|].
  eapply Forall_impl; [exact Hall|]. intros c (n & Hn & Hd & _) Hc.
  rewrite Hc, removePoint_eq in Hn. simpl in Hn.
  rewrite map_get_map_modify in Hn.
  destruct (decide (id = id)); [|congruence].
  destruct (map_get (nodes h) id) as [n0|]; simpl in Hn; [|discriminate].
  injection Hn as <-. simpl in Hd. discriminate Hd.
Qed.

Lemma X17_removed_id_is_not_returned_witness :
  wf e2ABCD /\
  exists res h',
    searchKNNOptimized (removePoint e2ABCD "d") [3]%Q 2 (1 # 4) 10 10
    = (Ret res, h') /\
    Forall (fun c => sc_uniqueid c <> "d") res.
Proof.
  split; [exact wf_e2ABCD|].
  exact (X17_removed_id_is_not_returned e2ABCD "d" [3]%Q 2 (1 # 4) 10 10
           wf_e2ABCD).
Defined.

(** ** Shrinking *)

Lemma shrink_queue_perm (sim : Similarity) (v : list Q) (m : NodeMap)
  (ids : list string) :
  forall acc,
    fold_left (fun pq neighborId =>
                 match ref_get m neighborId with
                 | Some r => pq_push (cmp sim v) r pq
                 | None => pq
                 end) ids acc ≡ₚ omap (ref_get m) ids ++ acc.
Proof.
  induction ids as [|nid ids IH]; intros acc; simpl; [reflexivity|].
  rewrite IH. destruct (ref_get m nid) as [r|]; [|reflexivity].
  rewrite pq_push_perm. simpl. symmetry. apply Permutation_middle.
Qed.

Lemma shrink_queue_sorted (sim : Similarity) (v : list Q) (m : NodeMap)
  (ids : list string) :
  forall acc, StronglySorted (desc sim v) acc ->
    StronglySorted (desc sim v)
      (fold_left (fun pq neighborId =>
                    match ref_get m neighborId with
                    | Some r => pq_push (cmp sim v) r pq
                    | None => pq
                    end) ids acc).
Proof.
  induction ids as [|nid ids IH]; intros acc Hs; simpl; [exact Hs|].
  apply IH. destruct (ref_get m nid); [apply pq_push_sorted|]; exact Hs.
Qed.

Lemma selectNeighbors_take {T} (l : list T) (n : nat) :
  selectNeighbors l n = take n l.
Proof.
  unfold selectNeighbors. destruct (Nat.leb_spec (length l) n); [|reflexivity].
  rewrite take_ge by lia. reflexivity.
Qed.

(** X18.  When a node's adjacency list at a level has more than M entries,
    [shrinkConnectionsIfNeeded] replaces it by the ids of at most M of the
    stored nodes it named, and these are the most similar to the node:
    every neighbour kept is at least as similar to the node's vector as
    every stored neighbour dropped.  Ids that name no stored node are
    dropped. *)
Theorem X18_shrink_keeps_the_most_similar
  (sim : Similarity) (maxM : nat) (m : list (string * AstroNode))
  (node : Ref) (lvl : Z) (nbs : list string) :
  ids_ok m -> get_nb m (ref_key node) lvl = Some nbs -> maxM < length nbs ->
  exists kept dropped,
    shrinkConnectionsIfNeeded sim maxM m node lvl =
      (Ret tt, set_nb m (ref_key node) lvl (map uid kept)) /\
    get_nb (set_nb m (ref_key node) lvl (map uid kept)) (ref_key node) lvl
      = Some (map uid kept) /\
    kept ++ dropped ≡ₚ omap (ref_get m) nbs /\
    length kept = Nat.min maxM (length (omap (ref_get m) nbs)) /\
    (forall a b, a ∈ kept -> b ∈ dropped ->
       (sim (vector (ref_obj node)) (vector (ref_obj b))
        <= sim (vector (ref_obj node)) (vector (ref_obj a)))%Q) /\
    (forall y, y ∈ map uid kept -> y ∈ nbs /\ y ∈ keys m).
Proof.
  intros Hi Hn HM. unfold shrinkConnectionsIfNeeded. rewrite Hn.
  destruct (Nat.ltb_spec maxM (length nbs)) as [_|Hle]; [|lia].
  set (old := fold_left _ nbs []).
  assert (Hperm : old ≡ₚ omap (ref_get m) nbs).
  { unfold old. rewrite shrink_queue_perm, app_nil_r. reflexivity. }
  assert (Hsorted : StronglySorted (desc sim (vector (ref_obj node))) old).
  { apply shrink_queue_sorted. constructor. }
  exists (take maxM old), (drop maxM old).
  rewrite selectNeighbors_take. split; [reflexivity|].
  destruct (get_nb_key _ _ _ _ Hn) as [Hk Hl].
  split; [apply get_nb_set_nb_eq; assumption|].
  split; [rewrite take_drop; exact Hperm|].
  split; [rewrite length_take, (Permutation_length Hperm); reflexivity|].
  split.
  - intros a b Ha Hb. rewrite <- (take_drop maxM old) in Hsorted.
    exact (StronglySorted_app_1_elem_of _ _ _ _ _ Hsorted Ha Hb).
  - intros y Hy. apply list_elem_of_In, in_map_iff in Hy as (r & <- & Hr).
    apply list_elem_of_In, subseteq_take in Hr. rewrite Hperm in Hr.
    apply list_elem_of_omap in Hr as (nid & Hnid & Hr).
    destruct (ref_get_uid m nid r Hi Hr) as [_ ->].
    split; [exact Hnid|]. apply (ref_get_key m nid r Hr).
Qed.

Lemma X18_shrink_keeps_the_most_similar_witness :
  let m := set_nb (nodes e2ABCD) "a" 0 ["b"; "c"; "d"] in
  ids_ok m /\ get_nb m "a" 0 = Some ["b"; "c"; "d"] /\ 2 < 3 /\
  exists kept,
    shrinkConnectionsIfNeeded distSimilarity 2 m
      (mkRef "a" (new_AstroNode "a" [0]%Q 28)) 0 =
    (Ret tt, set_nb m "a" 0 (map uid kept)) /\ length kept = 2.
Proof.
  intros m.
  assert (Hi : ids_ok m).
  { apply (bool_decide_unpack _). vm_compute. reflexivity. }
  assert (Hn : get_nb m (ref_key (mkRef "a" (new_AstroNode "a" [0]%Q 28))) 0
               = Some ["b"; "c"; "d"]) by (vm_compute; reflexivity).
  assert (HM : 2 < length ["b"; "c"; "d"]) by (simpl; lia).
  split; [exact Hi|]. split; [exact Hn|]. split; [lia|].
  destruct (X18_shrink_keeps_the_most_similar distSimilarity 2 m
              (mkRef "a" (new_AstroNode "a" [0]%Q 28)) 0 ["b"; "c"; "d"]
              Hi Hn HM) as (kept & dropped & E & _ & _ & Hlen & _).
  exists kept. split; [exact E|]. rewrite Hlen. vm_compute. reflexivity.
Defined.

(** ** No dangling reference is ever followed *)

Lemma addPoint_benign (h : HNSW) (id : string) (v : list Q) (r : Q) :
  wf h -> benign (fst (addPoint h id v r)).
Proof.
  intros Hwf. destruct (addPoint_cases h id v r Hwf)
    as [[_ E]|[[_ E]|(_ & h1 & E & _)]]; rewrite E; simpl;
    [left|right|left]; reflexivity.
Qed.

Lemma addPoints_benign (data : list (string * list Q)) (rnd : nat -> Q) :
  forall h i, wf h -> benign (fst (addPoints h data rnd i)).
Proof.
  induction data as [|[id v] data IH]; intros h i Hwf; simpl;
    [left; reflexivity|].
  pose proof (addPoint_benign h id v (rnd i) Hwf) as Hb.
  pose proof (addPoint_wf h id v (rnd i) Hwf) as Hwf1.
  destruct (addPoint h id v (rnd i)) as [[[]| |] h1]; simpl in *.
  - apply IH. exact Hwf1.
  - exact Hb.
  - exact Hb.
Qed.

Lemma op_outcome_benign (o : op) (h : HNSW) : wf h -> benign (op_outcome o h).
Proof.
  intros Hwf. destruct o; simpl.
  - apply addPoint_benign. exact Hwf.
  - left. reflexivity.
  - unfold updatePoint. destruct (map_get (nodes h) id).
    + apply addPoint_benign, tombstone_wf. exact Hwf.
    + apply addPoint_benign. exact Hwf.
  - unfold buildIndex. apply addPoints_benign. apply empty_wf; reflexivity.
  - unfold rebuildGraphNodes.
    rewrite (processNode_addPoints _ _ rnd 0 rnd 0).
    apply addPoints_benign. apply empty_wf; reflexivity.
  - destruct (searchKNN_sound h q K similarityStrength ef beam_size Hwf)
      as (res & h' & E & _).
    rewrite E. left. reflexivity.
Qed.

(** X19.  In a reachable state no operation reads a property of a missing
    node or runs out of steps: [addPoint], [updatePoint], [buildIndex] and
    [rebuildGraphNodes] return or throw the dimension error, [removePoint]
    and [searchKNNOptimized] return. *)
Theorem X19_operations_never_meet_a_missing_node (h : HNSW) (o : op) :
  reachable h ->
  op_outcome o h = Ret tt \/ op_outcome o h = Throw DimensionMismatch.
Proof.
  intros Hr. apply op_outcome_benign, reachable_wf. exact Hr.
Qed.

Lemma X19_operations_never_meet_a_missing_node_witness :
  reachable e2A /\
  (op_outcome (OpAdd "b" [1; 2]%Q 0) e2A = Ret tt \/
   op_outcome (OpAdd "b" [1; 2]%Q 0) e2A = Throw DimensionMismatch).
Proof.
  assert (Hr : reachable e2A).
  { apply (reach_op e2 (OpAdd "a" [0]%Q 0)), reach_new; reflexivity. }
  split; [exact Hr|].
  exact (X19_operations_never_meet_a_missing_node e2A _ Hr).
Defined.

(** ** The degree bound *)

Lemma nb_list_set_nb_ne (m : NodeMap) (k k' : string) (lvl lvl' : Z)
  (l : list string) :
  k <> k' \/ lvl <> lvl' ->
  nb_list (set_nb m k lvl l) k' lvl' = nb_list m k' lvl'.
Proof.
  intros H. unfold nb_list. rewrite get_nb_set_nb_ne by exact H. reflexivity.
Qed.

Lemma nb_list_init_nb (m : NodeMap) (k k' : string) (lvl lvl' : Z) :
  nb_list (init_nb m k lvl) k' lvl' = nb_list m k' lvl'.
Proof.
  unfold init_nb. destruct (get_nb m k lvl) eqn:E; [reflexivity|].
  unfold nb_list.
  destruct (get_nb_set_nb_cases m k k' lvl lvl' []) as [->|(-> & -> & ->)];
    [reflexivity|].
  rewrite E. reflexivity.
Qed.

Lemma nb_list_push_eq (m : NodeMap) (k : string) (lvl : Z) (x : string) :
  k ∈ keys m -> (0 <= lvl)%Z ->
  nb_list (push_unless_included m k lvl x) k lvl = pushed (nb_list m k lvl) x.
Proof.
  intros Hk Hl. unfold push_unless_included, pushed.
  destruct (includes (nb_list m k lvl) x); [reflexivity|].
  apply nb_list_set_nb_eq; assumption.
Qed.

Lemma nb_list_push_ne (m : NodeMap) (k k' : string) (lvl lvl' : Z)
  (x : string) :
  k <> k' \/ lvl <> lvl' ->
  nb_list (push_unless_included m k lvl x) k' lvl' = nb_list m k' lvl'.
Proof.
  intros H. unfold push_unless_included.
  destruct (includes (nb_list m k lvl) x); [reflexivity|].
  apply nb_list_set_nb_ne. exact H.
Qed.

Lemma nb_list_frame (m m' : NodeMap) (k : string) (lvl : Z) :
  map_rel node_frame m m' -> nb_list m' k lvl = nb_list m k lvl.
Proof.
  intros Hfr. pose proof (map_rel_get _ _ _ k Hfr) as Hg.
  unfold nb_list, get_nb.
  destruct (map_get m k) as [n|], (map_get m' k) as [n'|]; simpl;
    try contradiction; [|reflexivity].
  destruct Hg as [_ Hm]. destruct (Hm lvl) as [->|[-> ->]]; reflexivity.
Qed.

Lemma nb_list_map_modify (m : NodeMap) (k k' : string) (lvl : Z)
  (f : AstroNode -> AstroNode) :
  (forall n, neighbors (f n) = neighbors n) ->
  nb_list (map_modify m k f) k' lvl = nb_list m k' lvl.
Proof.
  intros Hf. unfold nb_list, get_nb. rewrite map_get_map_modify.
  destruct (decide (k = k')); [|reflexivity].
  destruct (map_get m k'); simpl; [rewrite Hf|]; reflexivity.
Qed.

Lemma nb_list_map_set_new (m : NodeMap) (id k : string) (v : list Q)
  (l lvl : Z) :
  nb_list (map_set m id (new_AstroNode id v l)) k lvl =
  if decide (id = k) then [] else nb_list m k lvl.
Proof.
  unfold nb_list, get_nb. rewrite map_get_map_set.
  destruct (decide (id = k)); [|reflexivity].
  simpl. rewrite arr_get_nil. reflexivity.
Qed.

Lemma non_empty_ids_length (l : list string) :
  length (non_empty_ids l) <= length l.
Proof. apply length_filter. Qed.

Lemma pushed_length (l : list string) (x : string) :
  length (pushed l x) <= length l + 1.
Proof.
  unfold pushed. destruct (includes l x); [lia|].
  rewrite length_app. simpl. lia.
Qed.

Lemma pushed_elem (l : list string) (x : string) : x ∈ pushed l x.
Proof.
  unfold pushed, includes. destruct (bool_decide_reflect (x ∈ l)) as [H|H];
    [exact H|]. apply elem_of_app. right. left.
Qed.

Lemma pushed_included (l : list string) (x : string) :
  x ∈ l -> pushed l x = l.
Proof.
  intros H. unfold pushed, includes. rewrite bool_decide_true by exact H.
  reflexivity.
Qed.

Lemma filter_drops_one (l : list string) (x : string) :
  x ∈ l -> x ∉ non_empty_ids l -> length (non_empty_ids l) < length l.
Proof.
  unfold non_empty_ids. induction l as [|y l IH]; intros Hin Hout;
    [inversion Hin|].
  rewrite filter_cons in *. destruct (decide (y ≠ "")) as [Hy|Hy].
  - simpl. apply elem_of_cons in Hin as [->|Hin].
    + exfalso. apply Hout. left.
    + assert (length (filter (fun x => x ≠ "") l) < length l); [|lia].
      apply IH; [exact Hin|]. intros H. apply Hout. right. exact H.
  - simpl. pose proof (length_filter (fun x : string => x ≠ "") l). lia.
Qed.

(** One more entry at most, and none when the id is already listed. *)
Lemma relinked_length (n : nat) (id : string) (l : list string) :
  length l <= n \/ (length l <= n + 1 /\ id ∈ l) ->
  length (pushed (non_empty_ids l) id) <= n + 1.
Proof.
  intros H. unfold pushed, includes.
  destruct (bool_decide_reflect (id ∈ non_empty_ids l)) as [Hin|Hout].
  - pose proof (non_empty_ids_length l). destruct H as [H|[H _]]; lia.
  - rewrite length_app. simpl. destruct H as [H|[H Hid]].
    + pose proof (non_empty_ids_length l). lia.
    + pose proof (filter_drops_one l id Hid Hout). lia.
Qed.

(** The adjacency lists that [addBidirectionalConnections] leaves. *)
Lemma link_nb (m : NodeMap) (a b : Ref) (lvl : Z) :
  ref_key a ∈ keys m -> ref_key b ∈ keys m -> (0 <= lvl)%Z ->
  let m' := addBidirectionalConnections m a b lvl in
  (forall k l, l <> lvl \/ (k <> ref_key a /\ k <> ref_key b) ->
     nb_list m' k l = nb_list m k l) /\
  (ref_key a <> ref_key b ->
     nb_list m' (ref_key a) lvl =
       pushed (non_empty_ids (nb_list m (ref_key a) lvl)) (uid b) /\
     nb_list m' (ref_key b) lvl =
       pushed (non_empty_ids (nb_list m (ref_key b) lvl)) (uid a)) /\
  (ref_key a = ref_key b ->
     nb_list m' (ref_key a) lvl =
       pushed (pushed (non_empty_ids (non_empty_ids (nb_list m (ref_key a) lvl)))
                 (uid b)) (uid a)).
Proof.
  intros Ha Hb Hl. unfold addBidirectionalConnections.
  set (m1 := init_nb m (ref_key a) lvl).
  set (m2 := init_nb m1 (ref_key b) lvl).
  set (m3 := set_nb m2 (ref_key a) lvl _).
  set (m4 := set_nb m3 (ref_key b) lvl _).
  set (m5 := push_unless_included m4 (ref_key a) lvl (uid b)).
  assert (K2 : keys m2 = keys m).
  { unfold m2, m1. rewrite !keys_init_nb. reflexivity. }
  assert (K3 : keys m3 = keys m) by (unfold m3; rewrite keys_set_nb; exact K2).
  assert (K4 : keys m4 = keys m) by (unfold m4; rewrite keys_set_nb; exact K3).
  assert (K5 : keys m5 = keys m) by (unfold m5; rewrite keys_push; exact K4).
  assert (N2 : forall k l, nb_list m2 k l = nb_list m k l).
  { intros k l. unfold m2, m1. rewrite !nb_list_init_nb. reflexivity. }
  assert (N3a : nb_list m3 (ref_key a) lvl =
                non_empty_ids (nb_list m (ref_key a) lvl)).
  { unfold m3. rewrite nb_list_set_nb_eq, N2;
      [reflexivity|rewrite K2; exact Ha|exact Hl]. }
  cbv zeta. split; [|split].
  - intros k l Hne.
    assert (Hka : ref_key a <> k \/ lvl <> l)
      by (destruct Hne as [H|[H _]]; [right|left]; congruence).
    assert (Hkb : ref_key b <> k \/ lvl <> l)
      by (destruct Hne as [H|[_ H]]; [right|left]; congruence).
    rewrite nb_list_push_ne by exact Hkb. unfold m5.
    rewrite nb_list_push_ne by exact Hka. unfold m4.
    rewrite nb_list_set_nb_ne by exact Hkb. unfold m3.
    rewrite nb_list_set_nb_ne by exact Hka. apply N2.
  - intros Hab. split.
    + rewrite nb_list_push_ne by (left; congruence). unfold m5.
      rewrite nb_list_push_eq by (rewrite ?K4; assumption). unfold m4.
      rewrite nb_list_set_nb_ne by (left; congruence).
      rewrite N3a. reflexivity.
    + rewrite nb_list_push_eq by (rewrite ?K5; assumption). unfold m5.
      rewrite nb_list_push_ne by (left; congruence). unfold m4.
      rewrite nb_list_set_nb_eq by (rewrite ?K3; assumption). unfold m3.
      rewrite nb_list_set_nb_ne by (left; congruence).
      rewrite N2. reflexivity.
  - intros Hab. rewrite Hab.
    rewrite nb_list_push_eq by (rewrite ?K5; assumption). unfold m5.
    rewrite Hab.
    rewrite nb_list_push_eq by (rewrite ?K4; assumption). unfold m4.
    rewrite nb_list_set_nb_eq by (rewrite ?K3; assumption).
    rewrite <- Hab. rewrite N3a. reflexivity.
Qed.

Lemma peer_ok_mono (n : nat) (id : string) (done done' : list string)
  (m m' : NodeMap) (lvl : Z) (k : string) :
  nb_list m' k lvl = nb_list m k lvl -> (forall y, y ∈ done -> y ∈ done') ->
  peer_ok n id done m lvl k -> peer_ok n id done' m' lvl k.
Proof.
  unfold peer_ok. intros -> Hd [H|(H1 & H2 & H3)]; [left; exact H|].
  right. split; [exact H1|]. split; [exact H2|apply Hd; exact H3].
Qed.

Lemma link_all_degree (n : nat) (node : Ref) (lvl : Z) :
  uid node = ref_key node -> (0 <= lvl)%Z ->
  forall closest m done,
    closed m -> ids_ok m -> ref_key node ∈ keys m ->
    length (nb_list m (ref_key node) lvl) <= length done ->
    (forall k, k <> ref_key node -> peer_ok n (uid node) done m lvl k) ->
    let m' := link_all m node closest lvl in
    (forall k l, l <> lvl -> nb_list m' k l = nb_list m k l) /\
    length (nb_list m' (ref_key node) lvl) <= length done + length closest /\
    (forall k, k <> ref_key node ->
       peer_ok n (uid node) (done ++ map uid closest) m' lvl k).
Proof.
  intros Hnode Hl. induction closest as [|c closest IH];
    intros m done Hc Hi Hn Hown Hpeer; simpl.
  - split; [reflexivity|]. split; [lia|]. rewrite app_nil_r. exact Hpeer.
  - assert (Hlen : length (done ++ [uid c]) = length done + 1)
      by (rewrite length_app; reflexivity).
    assert (Hsub : forall y, y ∈ done -> y ∈ done ++ [uid c])
      by (intros y Hy; apply elem_of_app; left; exact Hy).
    assert (Happ : (done ++ [uid c]) ++ map uid closest
                   = done ++ uid c :: map uid closest)
      by (rewrite <- app_assoc; reflexivity).
    destruct (ref_get m (uid c)) as [nb|] eqn:E.
    + destruct (ref_get_uid m _ _ Hi E) as [Hk Hu].
      destruct (ref_get_key m _ _ E) as [_ Hin].
      assert (Hkn : uid node ∈ keys m) by (rewrite Hnode; exact Hn).
      destruct (link_spec m node nb lvl Hc Hkn) as (C1 & S1 & _);
        [rewrite Hu; exact Hin|].
      destruct (link_nb m node nb lvl Hn) as (Noth & Nne & Neq);
        [rewrite Hk; exact Hin|exact Hl|].
      set (m1 := addBidirectionalConnections m node nb lvl) in *.
      assert (K1 : keys m1 = keys m) by (eapply map_rel_keys; eauto).
      destruct (IH m1 (done ++ [uid c]) C1 (ids_ok_same _ _ Hi S1))
        as (A1 & A2 & A3).
      * rewrite K1. exact Hn.
      * rewrite Hlen. destruct (decide (ref_key node = ref_key nb)) as [Eab|Eab].
        -- rewrite (Neq Eab), Hu, <- Hk, <- Eab, <- Hnode.
           rewrite (pushed_included _ (uid node)) by apply pushed_elem.
           pose proof (pushed_length
                         (non_empty_ids
                            (non_empty_ids (nb_list m (uid node) lvl)))
                         (uid node)).
           pose proof (non_empty_ids_length
                         (non_empty_ids (nb_list m (uid node) lvl))).
           pose proof (non_empty_ids_length (nb_list m (uid node) lvl)).
           rewrite Hnode in *. lia.
        -- destruct (Nne Eab) as [-> _].
           pose proof (pushed_length
                         (non_empty_ids (nb_list m (ref_key node) lvl))
                         (uid nb)).
           pose proof (non_empty_ids_length (nb_list m (ref_key node) lvl)).
           lia.
      * intros k Hkne. destruct (decide (k = ref_key nb)) as [->|Hkb].
        -- assert (Eab : ref_key node <> ref_key nb) by congruence.
           destruct (Nne Eab) as [_ Eb]. right. rewrite Eb.
           split; [|split; [apply pushed_elem|]].
           ++ apply relinked_length.
              destruct (Hpeer _ Hkne) as [H|(H1 & H2 & _)];
                [left; exact H|right; split; assumption].
           ++ rewrite Hk. apply elem_of_app. right. left.
        -- eapply peer_ok_mono; [|exact Hsub|apply Hpeer; exact Hkne].
           apply Noth. right. split; assumption.
      * split; [|split].
        -- intros k l Hne. rewrite A1 by exact Hne. apply Noth. left. exact Hne.
        -- rewrite Hlen in A2. simpl. lia.
        -- rewrite Happ in A3. exact A3.
    + destruct (IH m (done ++ [uid c]) Hc Hi Hn) as (A1 & A2 & A3).
      * rewrite Hlen. lia.
      * intros k Hkne. eapply peer_ok_mono;
          [reflexivity|exact Hsub|apply Hpeer; exact Hkne].
      * split; [exact A1|]. split; [rewrite Hlen in A2; simpl; lia|].
        rewrite Happ in A3. exact A3.
Qed.

Lemma shrink_degree (sim : Similarity) (maxM : nat) (m : NodeMap) (node : Ref)
  (lvl : Z) :
  let m' := snd (shrinkConnectionsIfNeeded sim maxM m node lvl) in
  (forall k l, k <> ref_key node \/ l <> lvl ->
     nb_list m' k l = nb_list m k l) /\
  length (nb_list m' (ref_key node) lvl) <= maxM.
Proof.
  unfold shrinkConnectionsIfNeeded.
  destruct (get_nb m (ref_key node) lvl) as [nbs|] eqn:E; simpl.
  - destruct (Nat.ltb_spec maxM (length nbs)) as [Hlt|Hle]; simpl.
    + destruct (get_nb_key _ _ _ _ E) as [Hk Hl]. split.
      * intros k l Hne. apply nb_list_set_nb_ne.
        destruct Hne as [H|H]; [left|right]; congruence.
      * rewrite nb_list_set_nb_eq by assumption.
        rewrite length_map, selectNeighbors_take, length_take. lia.
    + split; [reflexivity|]. unfold nb_list. rewrite E. exact Hle.
  - split; [reflexivity|]. unfold nb_list. rewrite E. simpl. lia.
Qed.

Lemma nb_list_key (m : NodeMap) (k : string) (lvl : Z) :
  nb_list m k lvl <> [] -> k ∈ keys m.
Proof.
  unfold nb_list. destruct (get_nb m k lvl) as [l|] eqn:E;
    [|simpl; intros H; exfalso; apply H; reflexivity].
  intros _. apply (get_nb_key _ _ _ _ E).
Qed.

Lemma shrink_all_degree (sim : Similarity) (maxM : nat) (lvl : Z) :
  forall closest m, closed m -> ids_ok m ->
  (forall c, c ∈ closest -> uid c ∈ keys m -> is_Some (get_nb m (uid c) lvl)) ->
  (forall k, length (nb_list m k lvl) <= maxM \/ k ∈ map uid closest) ->
  let m' := snd (shrink_all sim maxM m closest lvl) in
  (forall k l, l <> lvl -> nb_list m' k l = nb_list m k l) /\
  (forall k, length (nb_list m' k lvl) <= maxM).
Proof.
  induction closest as [|c closest IH]; intros m Hc Hi Hdef Hb; simpl.
  - split; [reflexivity|]. intros k. destruct (Hb k) as [H|H];
      [exact H|inversion H].
  - destruct (ref_get m (uid c)) as [nb|] eqn:E.
    + destruct (ref_get_key m _ _ E) as [Hk Hin].
      destruct (shrink_spec sim maxM m nb lvl Hc Hi) as (m1 & E1 & C1 & S1 & D1).
      { rewrite Hk. apply Hdef; [left|exact Hin]. }
      pose proof (shrink_degree sim maxM m nb lvl) as [B1 B2].
      rewrite E1 in B1, B2. rewrite E1. simpl in *.
      assert (K1 : keys m1 = keys m) by (eapply map_rel_keys; eauto).
      destruct (IH m1 C1 (ids_ok_same _ _ Hi S1)) as [A1 A2].
      * intros c' Hc' Hk'. apply D1. apply Hdef; [right; exact Hc'|].
        rewrite <- K1. exact Hk'.
      * intros k. destruct (decide (k = ref_key nb)) as [->|Hne];
          [left; exact B2|].
        rewrite B1 by (left; exact Hne).
        destruct (Hb k) as [H|H]; [left; exact H|].
        apply elem_of_cons in H as [H|H]; [congruence|right; exact H].
      * split; [|exact A2].
        intros k l Hne. rewrite A1 by exact Hne. apply B1. right. exact Hne.
    + apply IH; [exact Hc|exact Hi| |].
      * intros c' Hc' Hk'. apply Hdef; [right; exact Hc'|exact Hk'].
      * intros k. destruct (Hb k) as [H|H]; [left; exact H|].
        apply elem_of_cons in H as [->|H]; [|right; exact H].
        left. apply ref_get_None in E.
        destruct (nb_list m (uid c) lvl) eqn:El; [simpl; lia|].
        exfalso. apply E. apply (nb_list_key m (uid c) lvl). congruence.
Qed.

Lemma selectNeighbors_length {T} (l : list T) (n : nat) :
  length (selectNeighbors l n) <= n.
Proof. rewrite selectNeighbors_take, length_take. lia. Qed.

Lemma connect_degree (sim : Similarity) (maxM ef : nat) (node : Ref) :
  uid node = ref_key node ->
  forall lvls m eps, closed m -> ids_ok m -> uid node ∈ keys m ->
  Forall (fun l => (0 <= l)%Z) lvls -> NoDup lvls ->
  degree_ok maxM m ->
  (forall l, l ∈ lvls -> nb_list m (ref_key node) l = []) ->
  degree_ok maxM (snd (connect sim maxM ef node lvls m eps)).
Proof.
  intros Hnode. induction lvls as [|i lvls IH];
    intros m eps Hc Hi Hn Hl Hnd Hdeg Hown; simpl; [exact Hdeg|].
  inversion Hl as [|? ? Hi0 Hl']; subst.
  inversion Hnd as [|? ? Hnotin Hnd']; subst.
  destruct (searchLayer_ok sim (vector (ref_obj node)) m eps ef i Hc)
    as (res & m1 & E & Hfr).
  rewrite E. simpl.
  assert (C1 : closed m1) by (eapply closed_frame; eauto).
  assert (S1 : map_rel node_same m m1) by (apply map_frame_same; exact Hfr).
  assert (I1 : ids_ok m1) by (eapply ids_ok_same; eauto).
  assert (K1 : keys m1 = keys m) by (eapply map_rel_keys; eauto).
  assert (N1 : forall k l, nb_list m1 k l = nb_list m k l)
    by (intros k l; apply nb_list_frame; exact Hfr).
  destruct (link_all_spec node i (selectNeighbors res maxM) m1 C1 I1)
    as (C2 & S2 & D2 & Def2); [rewrite K1; exact Hn|].
  destruct (link_all_degree maxM node i Hnode Hi0 (selectNeighbors res maxM)
              m1 [] C1 I1) as (L1 & L2 & L3).
  { rewrite K1, <- Hnode. exact Hn. }
  { rewrite N1, Hown by left. simpl. lia. }
  { intros k _. left. rewrite N1. apply Hdeg. }
  set (m2 := link_all m1 node (selectNeighbors res maxM) i) in *.
  assert (K2 : keys m2 = keys m1) by (eapply map_rel_keys; eauto).
  assert (I2 : ids_ok m2) by (eapply ids_ok_same; eauto).
  assert (Hdef : forall c, c ∈ selectNeighbors res maxM -> uid c ∈ keys m2 ->
                   is_Some (get_nb m2 (uid c) i)).
  { intros c Hc' Hk. apply Def2; [exact Hi0|exact Hc'|].
    rewrite <- K2. exact Hk. }
  destruct (shrink_all_spec sim maxM i (selectNeighbors res maxM) m2 C2 I2 Hdef)
    as (m3 & E3 & C3 & S3 & _).
  destruct (shrink_all_degree sim maxM i (selectNeighbors res maxM) m2 C2 I2 Hdef)
    as [B1 B2].
  { intros k. destruct (decide (k = ref_key node)) as [->|Hne].
    - left. pose proof (selectNeighbors_length res maxM). simpl in L2. lia.
    - destruct (L3 k Hne) as [H|(_ & _ & H)]; [left; exact H|right; exact H]. }
  rewrite E3 in B1, B2. rewrite E3. simpl in *.
  assert (S13 : map_rel node_same m m3).
  { eapply map_same_trans; [exact S1|].
    eapply map_same_trans; [exact S2|exact S3]. }
  assert (N3 : forall k l, l <> i -> nb_list m3 k l = nb_list m k l).
  { intros k l Hne. rewrite B1, L1, N1 by exact Hne. reflexivity. }
  apply IH.
  - exact C3.
  - eapply ids_ok_same; [exact Hi|exact S13].
  - rewrite (map_rel_keys _ _ _ S13). exact Hn.
  - exact Hl'.
  - exact Hnd'.
  - intros k l. destruct (decide (l = i)) as [->|Hne]; [apply B2|].
    rewrite N3 by exact Hne. apply Hdeg.
  - intros l Hin. rewrite N3; [apply Hown; right; exact Hin|].
    intros ->. contradiction.
Qed.

Lemma range_down_NoDup (hi lo : Z) : NoDup (range_down hi lo).
Proof.
  unfold range_down. generalize (Z.to_nat (hi - lo + 1)). intros n.
  change (NoDup ((fun k => (hi - Z.of_nat k)%Z) <$> seq 0 n)).
  apply NoDup_fmap_2; [|apply NoDup_seq].
  intros x y H. lia.
Qed.

Lemma addNode_degree (h : HNSW) (node : Ref) (lvl : Z) :
  closed (nodes h) -> ids_ok (nodes h) -> uid node ∈ keys (nodes h) ->
  uid node = ref_key node -> degree_ok (M h) (nodes h) ->
  (forall l, nb_list (nodes h) (ref_key node) l = []) ->
  degree_ok (M h) (nodes (snd (addNodeToGraphOptimized h node lvl))).
Proof.
  intros Hc Hi Hn Hnode Hdeg Hown. unfold addNodeToGraphOptimized.
  destruct (decide (entryPointId h = "")) as [E|E]; [exact Hdeg|].
  set (eps := match ref_get (nodes h) (entryPointId h) with
              | Some e => [e] | None => [] end).
  destruct (descend_spec (similarityFunction h) (vector (ref_obj node))
              (range_down (levelMax h) (lvl + 1)) (nodes h) eps Hc)
    as (eps1 & m1 & E1 & Hfr1).
  rewrite E1. simpl.
  assert (S1 : map_rel node_same (nodes h) m1) by (apply map_frame_same; auto).
  assert (C1 : closed m1) by (eapply closed_frame; eauto).
  assert (I1 : ids_ok m1) by (eapply ids_ok_same; eauto).
  assert (K1 : uid node ∈ keys m1)
    by (rewrite (map_rel_keys _ _ _ S1); exact Hn).
  destruct (connect_spec (similarityFunction h) (M h) (efConstruction h) node
              (range_down (Z.min (levelMax h) lvl) 0) m1 eps1 C1 I1 K1
              (range_down_nonneg _)) as (m2 & E2 & _).
  pose proof (connect_degree (similarityFunction h) (M h) (efConstruction h)
                node Hnode (range_down (Z.min (levelMax h) lvl) 0) m1 eps1
                C1 I1 K1 (range_down_nonneg _) (range_down_NoDup _ _)) as D.
  rewrite E2 in D. rewrite E2. simpl in *.
  assert (D2 : degree_ok (M h) m2).
  { apply D.
    - intros k l. rewrite (nb_list_frame _ _ _ _ Hfr1). apply Hdeg.
    - intros l _. rewrite (nb_list_frame _ _ _ _ Hfr1). apply Hown. }
  destruct (levelMax h <? lvl)%Z; exact D2.
Qed.

Lemma addPoint_degree (h : HNSW) (id : string) (v : list Q) (r : Q) :
  wf h -> degree_ok (M h) (nodes h) ->
  M (snd (addPoint h id v r)) = M h /\
  degree_ok (M h) (nodes (snd (addPoint h id v r))).
Proof.
  intros (Hc & Hi & He) Hdeg. unfold addPoint.
  destruct (decide (length v = 0)) as [_|_]; [split; [reflexivity|exact Hdeg]|].
  destruct (match d h with
            | Some n => negb (length v =? n)%nat
            | None => false
            end); [split; [reflexivity|exact Hdeg]|].
  set (lvl := selectLevel _ r).
  set (h1 := set_levelMax _ _).
  split.
  - apply (addNode_config h1 (mkRef id (new_AstroNode id v lvl)) lvl).
  - apply (addNode_degree h1 (mkRef id (new_AstroNode id v lvl)) lvl).
    + simpl. apply closed_map_set_new. exact Hc.
    + simpl. apply ids_ok_map_set_new. exact Hi.
    + simpl. apply key_in_map_set.
    + reflexivity.
    + simpl. intros k l. rewrite nb_list_map_set_new.
      destruct (decide (id = k)); [simpl; lia|apply Hdeg].
    + simpl. intros l. rewrite nb_list_map_set_new.
      rewrite decide_True by reflexivity. reflexivity.
Qed.

Lemma addPoints_degree (data : list (string * list Q)) (rnd : nat -> Q) :
  forall h i, wf h -> degree_ok (M h) (nodes h) ->
    M (snd (addPoints h data rnd i)) = M h /\
    degree_ok (M h) (nodes (snd (addPoints h data rnd i))).
Proof.
  induction data as [|[id v] data IH]; intros h i Hwf Hdeg; simpl;
    [split; [reflexivity|exact Hdeg]|].
  pose proof (addPoint_degree h id v (rnd i) Hwf Hdeg) as [HM Hd].
  pose proof (addPoint_wf h id v (rnd i) Hwf) as Hwf1.
  destruct (addPoint h id v (rnd i)) as [[[]| |] h1]; simpl in *.
  - rewrite <- HM in Hd. destruct (IH h1 (S i) Hwf1 Hd) as [HM' Hd'].
    rewrite HM', HM in *. split; [reflexivity|exact Hd'].
  - split; assumption.
  - split; assumption.
Qed.

Lemma tombstone_degree (n : nat) (m : NodeMap) (id : string) :
  degree_ok n m ->
  degree_ok n (map_modify m id (fun x => set_deleted x true)).
Proof.
  intros Hdeg k l. rewrite nb_list_map_modify by reflexivity. apply Hdeg.
Qed.

Lemma empty_degree (n : nat) : degree_ok n [].
Proof. intros k l. simpl. lia. Qed.

Lemma run_op_degree (o : op) (h : HNSW) :
  wf h -> degree_ok (M h) (nodes h) ->
  M (run_op o h) = M h /\ degree_ok (M h) (nodes (run_op o h)).
Proof.
  intros Hwf Hdeg. destruct o; simpl.
  - apply addPoint_degree; assumption.
  - unfold removePoint. destruct (map_get (nodes h) id);
      [|split; [reflexivity|exact Hdeg]].
    split; [reflexivity|]. simpl. apply tombstone_degree. exact Hdeg.
  - unfold updatePoint. destruct (map_get (nodes h) id).
    + apply (addPoint_degree
               (set_nodes h (map_modify (nodes h) id
                               (fun n => set_deleted n true)))).
      * apply tombstone_wf. exact Hwf.
      * simpl. apply tombstone_degree. exact Hdeg.
    + apply addPoint_degree; assumption.
  - unfold buildIndex.
    apply (addPoints_degree data rnd
             (set_entryPointId (set_levelMax (set_nodes h []) 0) "")).
    + apply empty_wf; reflexivity.
    + apply empty_degree.
  - unfold rebuildGraphNodes.
    rewrite (processNode_addPoints _ _ rnd 0 rnd 0).
    apply (addPoints_degree _ rnd (rebuild_reset h)).
    + apply empty_wf; reflexivity.
    + apply empty_degree.
  - destruct (searchKNN_frame h q K similarityStrength ef beam_size)
      as [Hcfg Hfr].
    split; [apply Hcfg|].
    intros k l. rewrite (nb_list_frame _ _ _ _ Hfr). apply Hdeg.
Qed.

Lemma reachable_degree (h : HNSW) :
  reachable h -> degree_ok (M h) (nodes h).
Proof.
  induction 1 as [h Hn _|h o Hr IH].
  - rewrite Hn. apply empty_degree.
  - destruct (run_op_degree o h (reachable_wf h Hr) IH) as [-> Hd]. exact Hd.
Qed.

(** X20.  In a reachable state every adjacency list has at most M entries,
    at every level of every stored node: linking may add one entry to the
    list of a peer, and the shrinking pass that follows brings each linked
    peer back within M. *)
Theorem X20_adjacency_lists_hold_at_most_M
  (h : HNSW) (k : string) (lvl : Z) (l : list string) :
  reachable h -> get_nb (nodes h) k lvl = Some l -> length l <= M h.
Proof.
  intros Hr E. pose proof (reachable_degree h Hr k lvl) as H.
  unfold nb_list in H. rewrite E in H. exact H.
Qed.

Lemma X20_adjacency_lists_hold_at_most_M_witness :
  reachable e2ABCD /\ get_nb (nodes e2ABCD) "b" 0 = Some ["c"; "a"] /\
  length ["c"; "a"] <= M e2ABCD.
Proof.
  assert (Hr : reachable e2ABCD).
  { apply (reach_op e2ABC (OpAdd "d" [3]%Q 0)).
    apply (reach_op e2AB (OpAdd "c" [2]%Q 0)).
    apply (reach_op e2A (OpAdd "b" [1]%Q 0)).
    apply (reach_op e2 (OpAdd "a" [0]%Q 0)), reach_new; reflexivity. }
  assert (E : get_nb (nodes e2ABCD) "b" 0 = Some ["c"; "a"])
    by (vm_compute; reflexivity).
  split; [exact Hr|]. split; [exact E|].
  exact (X20_adjacency_lists_hold_at_most_M e2ABCD "b" 0 _ Hr E).
Defined.

(** ** The priority queue *)

(** X21.  [push] splices the item in front of the first entry it does not
    compare greater than: the entries before it all have
    [compare(item, x) > 0], the entry after it, if any, has
    [compare(item, y) <= 0], so that a new item goes in front of the entries
    it ties with; the other entries keep their order, and the size grows by
    one.  This holds for any comparison function. *)
Theorem X21_push_splices_before_first_not_greater
  {T : Type} (compare : T -> T -> Q) (item : T) (items : list T) :
  exists l1 l2,
    items = l1 ++ l2 /\
    pq_push compare item items = l1 ++ item :: l2 /\
    Forall (fun x => (0 < compare item x)%Q) l1 /\
    (forall y, head l2 = Some y -> (compare item y <= 0)%Q) /\
    size (pq_push compare item items) = S (size items) /\
    isEmpty (pq_push compare item items) = false /\
    peek (pq_push compare item items) <> None.
Proof.
  assert (Hcore : exists l1 l2,
    items = l1 ++ l2 /\
    pq_push compare item items = l1 ++ item :: l2 /\
    Forall (fun x => (0 < compare item x)%Q) l1 /\
    (forall y, head l2 = Some y -> (compare item y <= 0)%Q)).
  { induction items as [|x items IH]; simpl.
    - exists [], []. repeat split; [constructor|]. intros y Hy. discriminate.
    - destruct (Qltb 0 (compare item x)) eqn:E.
      + destruct IH as (l1 & l2 & E1 & E2 & F & Hd).
        exists (x :: l1), l2. rewrite E1 at 1. rewrite E2.
        repeat split; [|exact Hd].
        constructor; [apply Qltb_lt; exact E|exact F].
      + exists [], (x :: items). repeat split; [constructor|].
        intros y Hy. injection Hy as <-. apply Qltb_ge. exact E. }
  destruct Hcore as (l1 & l2 & E1 & E2 & F & Hd).
  exists l1, l2. split; [exact E1|]. split; [exact E2|].
  split; [exact F|]. split; [exact Hd|].
  unfold size, isEmpty, peek. rewrite pq_push_length.
  split; [reflexivity|]. split; [reflexivity|].
  rewrite E2. destruct l1; discriminate.
Qed.

Lemma pushes_perm (sim : Similarity) (q : list Q) (xs : list Ref) :
  forall acc,
    fold_left (fun pq x => pq_push (cmp sim q) x pq) xs acc ≡ₚ xs ++ acc.
Proof.
  induction xs as [|x xs IH]; intros acc; simpl; [reflexivity|].
  rewrite IH, pq_push_perm. symmetry. apply Permutation_middle.
Qed.

Lemma pushes_sorted (sim : Similarity) (q : list Q) (xs : list Ref) :
  forall acc, StronglySorted (desc sim q) acc ->
    StronglySorted (desc sim q)
      (fold_left (fun pq x => pq_push (cmp sim q) x pq) xs acc).
Proof.
  induction xs as [|x xs IH]; intros acc Hs; simpl; [exact Hs|].
  apply IH, pq_push_sorted. exact Hs.
Qed.

Lemma sorted_first (sim : Similarity) (q : list Q) (l : list Ref) (a b : Ref) :
  StronglySorted (desc sim q) l -> peek l = Some a -> b ∈ l ->
  (score_of sim q b <= score_of sim q a)%Q.
Proof.
  intros Hs Ha Hb. destruct l as [|x l]; [discriminate|].
  injection Ha as ->. inversion Hs as [|? ? _ Hall]; subst.
  apply elem_of_cons in Hb as [->|Hb]; [apply Qle_refl|].
  rewrite Forall_forall in Hall. apply Hall. exact Hb.
Qed.

Lemma sorted_last (sim : Similarity) (q : list Q) (l : list Ref) (z b : Ref) :
  StronglySorted (desc sim q) l -> getLast l = Some z -> b ∈ l ->
  (score_of sim q z <= score_of sim q b)%Q.
Proof.
  intros Hs Hz Hb. unfold getLast in Hz.
  apply last_Some in Hz as [l' ->].
  apply elem_of_app in Hb as [Hb|Hb].
  - apply (StronglySorted_app_1_elem_of _ _ _ _ _ Hs Hb). left.
  - apply list_elem_of_singleton in Hb as ->. apply Qle_refl.
Qed.

(** X22.  A queue built with the similarity comparator holds what was
    pushed, most similar first: [peek] and [popFirst] give an entry at least
    as similar to the query as every entry pushed, [getLast] one at most as
    similar, [popLast] removes exactly that last entry, and the queue is
    empty only when nothing was pushed. *)
Theorem X22_similarity_queue_ends
  (sim : Similarity) (q : list Q) (xs : list Ref) :
  let pq := fold_left (fun pq x => pq_push (cmp sim q) x pq) xs [] in
  pq ≡ₚ xs /\
  size pq = length xs /\
  (isEmpty pq = true <-> xs = []) /\
  (forall a, peek pq = Some a ->
     fst (popFirst pq) = Some a /\ a :: snd (popFirst pq) = pq /\
     forall b, b ∈ xs -> (sim q (vector (ref_obj b)) <= sim q (vector (ref_obj a)))%Q) /\
  (forall z, getLast pq = Some z ->
     popLast pq ++ [z] = pq /\
     forall b, b ∈ xs -> (sim q (vector (ref_obj z)) <= sim q (vector (ref_obj b)))%Q).
Proof.
  intros pq.
  assert (Hp : pq ≡ₚ xs).
  { unfold pq. rewrite pushes_perm, app_nil_r. reflexivity. }
  assert (Hs : StronglySorted (desc sim q) pq).
  { apply pushes_sorted. constructor. }
  split; [exact Hp|].
  split; [unfold size; apply Permutation_length; exact Hp|].
  split.
  { unfold isEmpty. rewrite bool_decide_eq_true, (Permutation_length Hp).
    destruct xs; simpl; split; intros H; try reflexivity; discriminate. }
  split.
  - intros a Ha. destruct pq as [|x pq'] eqn:E; [discriminate|].
    injection Ha as ->. simpl. split; [reflexivity|]. split; [reflexivity|].
    intros b Hb. rewrite <- Hp in Hb.
    apply (sorted_first sim q (a :: pq') a b Hs eq_refl Hb).
  - intros z Hz. split.
    + unfold getLast in Hz. apply last_Some in Hz as [l' El].
      rewrite El. unfold popLast. rewrite removelast_last. reflexivity.
    + intros b Hb. rewrite <- Hp in Hb.
      apply (sorted_last sim q pq z b Hs Hz Hb).
Qed.

(** ** Levels *)

Lemma addPoint_probs (h : HNSW) (id : string) (v : list Q) (r : Q) :
  probs (snd (addPoint h id v r)) = probs h.
Proof.
  unfold addPoint.
  destruct (decide (length v = 0)); [reflexivity|].
  destruct (match d h with
            | Some n => negb (length v =? n)%nat
            | None => false
            end); [reflexivity|].
  set (lvl := selectLevel _ r).
  set (h1 := set_levelMax _ _).
  apply (addNode_config h1 (mkRef id (new_AstroNode id v lvl)) lvl).
Qed.

Lemma addPoint_level (h : HNSW) (id : string) (v : list Q) (r : Q) :
  wf h ->
  all_on_level (Z.of_nat (length (probs h)) - 1) (nodes h) ->
  all_on_level (Z.of_nat (length (probs h)) - 1)
    (nodes (snd (addPoint h id v r))).
Proof.
  intros Hwf Hl.
  destruct (addPoint_cases h id v r Hwf)
    as [[_ E]|[[_ E]|(_ & h1 & E & _ & S)]]; rewrite E; simpl; try exact Hl.
  apply (Forall_map_rel (fun n => level n = Z.of_nat (length (probs h)) - 1)%Z
           node_same _ _
           (fun a b Hab Ha => ltac:(
              destruct Hab as (_ & Hlev & _); rewrite Hlev; exact Ha)) S).
  apply Forall_map_set; [exact Hl|reflexivity].
Qed.

Lemma addPoints_level (data : list (string * list Q)) (rnd : nat -> Q) :
  forall h i, wf h ->
    all_on_level (Z.of_nat (length (probs h)) - 1) (nodes h) ->
    probs (snd (addPoints h data rnd i)) = probs h /\
    all_on_level (Z.of_nat (length (probs h)) - 1)
      (nodes (snd (addPoints h data rnd i))).
Proof.
  induction data as [|[id v] data IH]; intros h i Hwf Hl; simpl;
    [split; [reflexivity|exact Hl]|].
  pose proof (addPoint_wf h id v (rnd i) Hwf) as Hwf1.
  pose proof (addPoint_level h id v (rnd i) Hwf Hl) as Hl1.
  pose proof (addPoint_probs h id v (rnd i)) as Hp.
  destruct (addPoint h id v (rnd i)) as [[[]| |] h1]; simpl in *.
  - rewrite <- Hp in Hl1. destruct (IH h1 (S i) Hwf1 Hl1) as [Hp' Hl'].
    rewrite Hp', Hp in *. split; [reflexivity|exact Hl'].
  - split; assumption.
  - split; assumption.
Qed.

Lemma run_op_level (o : op) (h : HNSW) :
  wf h -> all_on_level (Z.of_nat (length (probs h)) - 1) (nodes h) ->
  probs (run_op o h) = probs h /\
  all_on_level (Z.of_nat (length (probs h)) - 1) (nodes (run_op o h)).
Proof.
  intros Hwf Hl. destruct o; simpl.
  - split; [apply addPoint_probs|apply addPoint_level; assumption].
  - unfold removePoint. destruct (map_get (nodes h) id);
      [|split; [reflexivity|exact Hl]].
    split; [reflexivity|]. simpl. apply Forall_map_modify; [exact Hl|].
    intros n Hn. exact Hn.
  - unfold updatePoint. destruct (map_get (nodes h) id).
    + split;
        [exact (addPoint_probs
                  (set_nodes h (map_modify (nodes h) id
                                  (fun n => set_deleted n true))) id v r)|].
      apply (addPoint_level
               (set_nodes h (map_modify (nodes h) id
                               (fun n => set_deleted n true)))).
      * apply tombstone_wf. exact Hwf.
      * simpl. apply Forall_map_modify; [exact Hl|]. intros n Hn. exact Hn.
    + split; [apply addPoint_probs|apply addPoint_level; assumption].
  - unfold buildIndex.
    apply (addPoints_level data rnd
             (set_entryPointId (set_levelMax (set_nodes h []) 0) "")).
    + apply empty_wf; reflexivity.
    + constructor.
  - unfold rebuildGraphNodes.
    rewrite (processNode_addPoints _ _ rnd 0 rnd 0).
    apply (addPoints_level _ rnd (rebuild_reset h)).
    + apply empty_wf; reflexivity.
    + constructor.
  - destruct (searchKNN_frame h q K similarityStrength ef beam_size)
      as [Hcfg Hfr].
    split; [apply Hcfg|].
    apply (Forall_map_rel (fun n => level n = Z.of_nat (length (probs h)) - 1)%Z
             node_same _ _
             (fun a b Hab Ha => ltac:(
                destruct Hab as (_ & Hlev & _); rewrite Hlev; exact Ha))
             (map_frame_same _ _ Hfr)).
    exact Hl.
Qed.

Lemma reachable_level (h : HNSW) :
  reachable h -> all_on_level (Z.of_nat (length (probs h)) - 1) (nodes h).
Proof.
  induction 1 as [h Hn _|h o Hr IH].
  - rewrite Hn. constructor.
  - destruct (run_op_level o h (reachable_wf h Hr) IH) as [-> Hl]. exact Hl.
Qed.

(** X23.  In a reachable state every stored node carries the same level,
    the number of entries of the probability table minus one: the graph has
    no node that is absent from an upper layer. *)
Theorem X23_every_node_is_on_the_top_level
  (h : HNSW) (k : string) (n : AstroNode) :
  reachable h -> map_get (nodes h) k = Some n ->
  level n = (Z.of_nat (length (probs h)) - 1)%Z.
Proof.
  intros Hr E. pose proof (reachable_level h Hr) as Hl.
  unfold all_on_level in Hl. rewrite Forall_forall in Hl.
  apply (Hl (k, n)). apply map_get_elem. exact E.
Qed.

Lemma X23_every_node_is_on_the_top_level_witness :
  reachable e2A /\
  map_get (nodes e2A) "a" = Some (new_AstroNode "a" [0]%Q 28) /\
  level (new_AstroNode "a" [0]%Q 28)
  = (Z.of_nat (length (probs e2A)) - 1)%Z.
Proof.
  assert (Hr : reachable e2A).
  { apply (reach_op e2 (OpAdd "a" [0]%Q 0)), reach_new; reflexivity. }
  assert (E : map_get (nodes e2A) "a" = Some (new_AstroNode "a" [0]%Q 28))
    by (vm_compute; reflexivity).
  split; [exact Hr|]. split; [exact E|].
  exact (X23_every_node_is_on_the_top_level e2A "a" _ Hr E).
Defined.

(** ** A search in a graph of one node *)













Lemma X13_buildIndex_holds_the_data_witness :
  let data := [("a", [0]%Q); ("b", [1]%Q); ("c", [])] in
  let h' := snd (buildIndex e2AB data rnd0) in
  buildIndex e2AB data rnd0 = (Ret tt, h') /\
  ("b" ∈ keys (nodes h') <-> exists v, ("b", v) ∈ data /\ v <> []).
Proof.
  intros data h'.
  assert (E : buildIndex e2AB data rnd0 = (Ret tt, h'))
    by (vm_compute; reflexivity).
  split; [exact E|].
  exact (proj2 (X13_buildIndex_holds_the_data e2AB data rnd0) h' E "b").
Defined.

Lemma X14_rebuild_drops_tombstones_witness :
  let h := removePoint e2AB "a" in
  let h' := snd (rebuildGraphNodes h rnd0) in
  rebuildGraphNodes h rnd0 = (Ret tt, h') /\
  ("a" ∈ keys (nodes h') <->
   exists n, n ∈ map snd (nodes h) /\ deleted n = false /\
             uniqueid n = "a" /\ "a" <> "" /\ vector n <> []).
Proof.
  intros h h'.
  assert (E : rebuildGraphNodes h rnd0 = (Ret tt, h'))
    by (vm_compute; reflexivity).
  split; [exact E|].
  exact (proj2 (X14_rebuild_drops_tombstones h rnd0) h' E "a").
Defined.

(** ** The entry point *)

Lemma addNode_keeps_entry (h : HNSW) (node : Ref) (lvl : Z) :
  entryPointId h <> "" -> (lvl <= levelMax h)%Z ->
  entryPointId (snd (addNodeToGraphOptimized h node lvl)) = entryPointId h /\
  levelMax (snd (addNodeToGraphOptimized h node lvl)) = levelMax h.
Proof.
  intros He Hl. unfold addNodeToGraphOptimized.
  destruct (decide (entryPointId h = "")) as [|_]; [contradiction|].
  unfold lift_nodes.
  destruct (descend _ _ _ _ _) as [[eps| |] m1]; simpl;
    try (split; reflexivity).
  destruct (connect _ _ _ _ _ _ _) as [[[]| |] m2]; simpl;
    try (split; reflexivity).
  destruct (Z.ltb_spec (levelMax h) lvl) as [Hlt|_]; [lia|].
  split; reflexivity.
Qed.

Lemma addPoint_keeps_entry (h : HNSW) (id : string) (v : list Q) (r : Q) :
  entryPointId h <> "" ->
  entryPointId (snd (addPoint h id v r)) = entryPointId h.
Proof.
  intros He. unfold addPoint.
  destruct (decide (length v = 0)); [reflexivity|].
  destruct (match d h with
            | Some n => negb (length v =? n)%nat
            | None => false
            end); [reflexivity|].
  set (lvl := selectLevel _ r).
  set (h1 := set_levelMax _ _).
  apply (addNode_keeps_entry h1 (mkRef id (new_AstroNode id v lvl)) lvl).
  - exact He.
  - unfold h1. simpl. lia.
Qed.

(** X25.  The entry point is chosen once: when the engine has an entry
    point, [addPoint], [updatePoint], [removePoint] and
    [searchKNNOptimized] leave it as it is, whatever they return or throw.
    [addPoint] raises [levelMax] to the level of the new node before it
    links the node, so the branch that would make the new node the entry
    point is never taken; a tombstoned or updated entry point stays the
    entry point. *)
Theorem X25_entry_point_is_never_replaced
  (h : HNSW) (id : string) (v q : list Q) (r t : Q) (K ef beam_size : nat) :
  entryPointId h <> "" ->
  entryPointId (snd (addPoint h id v r)) = entryPointId h /\
  entryPointId (snd (updatePoint h id v r)) = entryPointId h /\
  entryPointId (removePoint h id) = entryPointId h /\
  entryPointId (snd (searchKNNOptimized h q K t ef beam_size))
  = entryPointId h.
Proof.
  intros He. split; [apply addPoint_keeps_entry; exact He|].
  split; [|split].
  - unfold updatePoint. destruct (map_get (nodes h) id).
    + apply (addPoint_keeps_entry
               (set_nodes h (map_modify (nodes h) id
                               (fun n => set_deleted n true)))).
      exact He.
    + apply addPoint_keeps_entry. exact He.
  - unfold removePoint. destruct (map_get (nodes h) id); reflexivity.
  - apply (searchKNN_frame h q K t ef beam_size).
Qed.

Lemma X25_entry_point_is_never_replaced_witness :
  entryPointId e2AB <> "" /\
  entryPointId (snd (updatePoint e2AB "a" [5]%Q 0)) = entryPointId e2AB.
Proof.
  assert (He : entryPointId e2AB <> "") by (vm_compute; discriminate).
  split; [exact He|].
  exact (proj1 (proj2 (X25_entry_point_is_never_replaced e2AB "a" [5]%Q [0]%Q
                         0 0 1 1 1 He))).
Defined.
